(** * CIDE "New project" dialog: name guessing and project scaffolding

    A shallow embedding of [src/cide/new_project_dialog.cc].

    - [Qt]: the part of the Qt string and path API the dialog calls
      ([QString], [QChar], [QDir], [QFileInfo]), as pure functions.
    - [Disk]: a small file-system state on which [QDir::mkpath],
      [QDir::mkdir], [QDir::cd] and [QFile] act, together with the trace of
      the calls the dialog makes and the message boxes it shows.
    - [NewProjectDialog]: the member functions of the dialog, written over
      the two layers above.
    - the notions the theorems are stated with, the plan the specification
      describes a run by, and example disks.
    - the lemmas and, with them, the theorems about the name guesser and
      the scaffolding. *)

From Stdlib Require Import Ascii String.
From Stdlib Require Import ZArith NArith List Bool Lia.
Import ListNotations.

Local Open Scope Z_scope.

(** ** Qt strings *)

Module Qt.

(** A [QChar] is one UTF-16 code unit; a [QString] is a sequence of them.
    Sizes and positions are C++ [int]s; no text handled here comes near
    [2^31] units, so they are plain integers. *)
Definition QChar := N.
Definition QString := list QChar.

Definition ch (a : ascii) : QChar := N_of_ascii a.

(** [QStringLiteral("...")] / [QString("...")] for a literal of ASCII
    characters. *)
Definition QS (s : string) : QString := map ch (list_ascii_of_string s).

Definition LF : QChar := 10%N.
Definition CR : QChar := 13%N.
Definition dquote : QChar := 34%N.
Definition lparen : QChar := 40%N.
Definition rparen : QChar := 41%N.
Definition slash : QChar := 47%N.
Definition colon : QChar := 58%N.
Definition percent : QChar := 37%N.

(** A line of a C++ string literal that ends in a newline escape. *)
Definition line (s : string) : QString := QS s ++ [LF].

Definition size (s : QString) : Z := Z.of_nat (length s).
Definition isEmpty (s : QString) : bool :=
  match s with [] => true | _ :: _ => false end.

Fixpoint eqb (a b : QString) : bool :=
  match a, b with
  | [], [] => true
  | x :: a', y :: b' => N.eqb x y && eqb a' b'
  | _, _ => false
  end.

(** [QChar::isSpace]: the ASCII white space U+0009..U+000D and U+0020, then
    U+0085, U+00A0 and the code units of the Unicode separator categories
    Zs, Zl and Zp. *)
Definition isSpace (c : QChar) : bool :=
  (N.eqb c 32 || (N.leb 9 c && N.leb c 13)
   || N.eqb c 133 || N.eqb c 160
   || N.eqb c 5760 || (N.leb 8192 c && N.leb c 8202)
   || N.eqb c 8232 || N.eqb c 8233 || N.eqb c 8239 || N.eqb c 8287
   || N.eqb c 12288)%bool.

(** Case folding as [Qt::CaseInsensitive] comparison uses it.  Only the
    comparison against the ASCII needle ["project"] is made in this program:
    the code units that fold to an ASCII letter are the ASCII capitals, the
    Kelvin sign (to [k]) and the long s (to [s]); every other unit folds to
    a unit that is not an ASCII letter and is left as it is here. *)
Definition foldCase (c : QChar) : QChar :=
  if (N.leb 65 c && N.leb c 90)%bool then (c + 32)%N
  else if N.eqb c 8490 then 107%N
  else if N.eqb c 383 then 115%N
  else c.

Inductive CaseSensitivity := CaseInsensitive | CaseSensitive.

Definition sameChar (cs : CaseSensitivity) (a b : QChar) : bool :=
  match cs with
  | CaseSensitive => N.eqb a b
  | CaseInsensitive => N.eqb (foldCase a) (foldCase b)
  end.

(** [s] starts with [needle]. *)
Fixpoint startsWith (cs : CaseSensitivity) (needle s : QString) : bool :=
  match needle, s with
  | [], _ => true
  | _ :: _, [] => false
  | n :: needle', c :: s' => sameChar cs n c && startsWith cs needle' s'
  end.

(** [QString::operator[]] on a non-const string: the [QCharRef] it returns
    converts to the unit at [i] when [i] is inside the string and to
    [QChar(0)] when it is not. *)
Definition at_ (s : QString) (i : Z) : QChar :=
  if (0 <=? i) && (i <? size s) then nth (Z.to_nat i) s 0%N else 0%N.

(** The search of [indexOf] from position [pos] on, [s] being the text from
    [pos] to its end. *)
Fixpoint indexOf_go (cs : CaseSensitivity) (needle s : QString) (pos : Z) : Z :=
  match s with
  | [] => if isEmpty needle then pos else -1
  | _ :: s' =>
      if startsWith cs needle s then pos
      else indexOf_go cs needle s' (pos + 1)
  end.

(** [QString::indexOf(str, from, cs)]: position of the first occurrence of
    [needle] at or after [from], [-1] when there is none.  A negative [from]
    counts from the end. *)
Definition indexOf (s needle : QString) (from : Z) (cs : CaseSensitivity) : Z :=
  let from := if from <? 0 then Z.max (from + size s) 0 else from in
  if size s <? from then -1
  else indexOf_go cs needle (skipn (Z.to_nat from) s) from.

(** [QString::indexOf(QChar, from)]. *)
Definition indexOfChar (s : QString) (c : QChar) (from : Z) : Z :=
  indexOf s [c] from CaseSensitive.

(** [QString::mid(position, n)]: [n] units from [position]; to the end of
    the string when [n] is negative or reaches past it; empty when
    [position] is past the end. *)
Definition mid (s : QString) (position n : Z) : QString :=
  if size s <? position then []
  else
    let position' := Z.max position 0 in
    let n' := if position <? 0 then (if n <? 0 then n else Z.max (n + position) 0) else n in
    let rest := skipn (Z.to_nat position') s in
    if (n' <? 0) || (size s - position' <? n') then rest
    else firstn (Z.to_nat n') rest.

Fixpoint dropSpaces (s : QString) : QString :=
  match s with
  | [] => []
  | c :: s' => if isSpace c then dropSpaces s' else s
  end.

(** [QString::trimmed]: white space removed from both ends. *)
Definition trimmed (s : QString) : QString :=
  rev (dropSpaces (rev (dropSpaces s))).

(** [QString::replace(before, after)] for a non-empty [before]: every
    occurrence, found left to right without overlap, is replaced.  [skip]
    counts the units of a match still to be passed over. *)
Fixpoint replace_go (before after s : QString) (skip : nat) : QString :=
  match s with
  | [] => []
  | c :: s' =>
      match skip with
      | S k => replace_go before after s' k
      | O =>
          if startsWith CaseSensitive before s
          then after ++ replace_go before after s' (length before - 1)
          else c :: replace_go before after s' 0
      end
  end.

Definition replace (s before after : QString) : QString :=
  replace_go before after s 0.

(** *** [QString::arg] *)

(** [QChar::digitValue], for the ASCII digits. *)
Definition digitValue (c : QChar) : option nat :=
  if (N.leb 48 c && N.leb c 57)%bool then Some (N.to_nat (c - 48)) else None.

(** A place marker at the head of [s]: a percent sign, an optional [L], a
    digit and, when one follows, a second digit.  The result is the number
    of the marker and its length. *)
Definition markerAt (s : QString) : option (nat * nat) :=
  match s with
  | p :: rest =>
      if N.eqb p percent then
        let '(digits, len) :=
          match rest with
          | l :: rest' => if N.eqb l (ch "L") then (rest', 2%nat) else (rest, 1%nat)
          | [] => (rest, 1%nat)
          end in
        match digits with
        | d1 :: more =>
            match digitValue d1 with
            | None => None
            | Some v1 =>
                match more with
                | d2 :: _ =>
                    match digitValue d2 with
                    | Some v2 => Some (10 * v1 + v2, len + 2)%nat
                    | None => Some (v1, len + 1)%nat
                    end
                | [] => Some (v1, len + 1)%nat
                end
            end
        | [] => None
        end
      else None
  | [] => None
  end.

Inductive ArgToken :=
| Lit (c : QChar)
| Marker (number : nat) (raw : QString).

Fixpoint argTokens (s : QString) (skip : nat) : list ArgToken :=
  match s with
  | [] => []
  | c :: s' =>
      match skip with
      | S k => argTokens s' k
      | O =>
          match markerAt s with
          | Some (n, len) => Marker n (firstn len s) :: argTokens s' (len - 1)
          | None => Lit c :: argTokens s' 0
          end
      end
  end.

Fixpoint lowestMarker (ts : list ArgToken) : option nat :=
  match ts with
  | [] => None
  | Lit _ :: ts' => lowestMarker ts'
  | Marker n _ :: ts' =>
      match lowestMarker ts' with
      | Some m => Some (Nat.min n m)
      | None => Some n
      end
  end.

Definition fillMarker (m : nat) (a : QString) (t : ArgToken) : QString :=
  match t with
  | Lit c => [c]
  | Marker n raw => if Nat.eqb n m then a else raw
  end.

(** [QString::arg(const QString &a)]: every occurrence of the place marker
    with the lowest number is replaced by [a]; a string without a marker is
    returned as it is. *)
Definition arg (s a : QString) : QString :=
  let ts := argTokens s 0 in
  match lowestMarker ts with
  | None => s
  | Some m => concat (map (fillMarker m a) ts)
  end.

(** *** Paths *)

Inductive Platform := Unix | Windows.

Definition isLetter (c : QChar) : bool :=
  ((N.leb 65 c && N.leb c 90) || (N.leb 97 c && N.leb c 122))%bool.

(** Length of the root at the head of a path: [/] on both platforms, a
    drive such as [C:] or [C:/] on Windows, nothing for a relative path. *)
Definition rootLength (pf : Platform) (p : QString) : nat :=
  match pf, p with
  | Unix, c :: _ => if N.eqb c slash then 1%nat else 0%nat
  | Windows, d :: c :: rest =>
      if (isLetter d && N.eqb c colon)%bool then
        match rest with
        | s :: _ => if N.eqb s slash then 3%nat else 2%nat
        | [] => 2%nat
        end
      else if N.eqb d slash then 1%nat else 0%nat
  | Windows, [d] => if N.eqb d slash then 1%nat else 0%nat
  | _, [] => 0%nat
  end.

(** [QFileSystemEntry::isAbsolute]. *)
Definition isAbsolute (pf : Platform) (p : QString) : bool :=
  match pf with
  | Unix => startsWith CaseSensitive [slash] p
  | Windows =>
      match p with
      | d :: c :: s :: _ =>
          (isLetter d && N.eqb c colon && N.eqb s slash)
          || (N.eqb d slash && N.eqb c slash)
      | [d; c] => N.eqb d slash && N.eqb c slash
      | _ => false
      end
  end.

(** [QDir::isRelativePath]. *)
Definition isRelativePath (pf : Platform) (p : QString) : bool :=
  match pf with
  | Unix => negb (startsWith CaseSensitive [slash] p)
  | Windows =>
      match p with
      | [] => true
      | d :: rest =>
          negb (N.eqb d slash)
          && negb (match rest with c :: _ => N.eqb c colon | [] => false end)
      end
  end.

(** The prefix [QDir::cleanPath] leaves as it is ([rootLength] of
    qdir.cpp): [/] on both platforms; on Windows also a drive with the
    separator that follows it, and of a network path [//server/share] the
    part up to the separator after the name of the server. *)
Definition prefixLength (pf : Platform) (p : QString) : nat :=
  match pf with
  | Unix => rootLength Unix p
  | Windows =>
      if startsWith CaseSensitive [slash; slash] p then
        let nextSlash := indexOfChar p slash 2 in
        if nextSlash <? 0 then length p else S (Z.to_nat nextSlash)
      else
        match p with
        | d :: c :: rest =>
            if N.eqb c colon then
              match rest with
              | s :: _ => if N.eqb s slash then 3%nat else 2%nat
              | [] => 2%nat
              end
            else if N.eqb d slash then 1%nat else 0%nat
        | [d] => if N.eqb d slash then 1%nat else 0%nat
        | [] => 0%nat
        end
  end.

(** The parts of a path between its separators. *)
Fixpoint split_go (s part : QString) : list QString :=
  match s with
  | [] => [part]
  | c :: s' =>
      if N.eqb c slash then part :: split_go s' [] else split_go s' (part ++ [c])
  end.

(** [tokenize('/', Qt::SkipEmptyParts)]. *)
Definition pathParts (s : QString) : list QString :=
  filter (fun part => negb (isEmpty part)) (split_go s []).

Fixpoint joinParts (parts : list QString) : QString :=
  match parts with
  | [] => []
  | [x] => x
  | x :: rest => x ++ [slash] ++ joinParts rest
  end.

(** Resolution of [.] and [..]; [done] holds the parts kept so far, last
    one first.  Under a root, [..] at the top is dropped. *)
Fixpoint resolveDots (rooted : bool) (parts done : list QString) : list QString :=
  match parts with
  | [] => rev done
  | x :: parts' =>
      if eqb x (QS ".") then resolveDots rooted parts' done
      else if eqb x (QS "..") then
        match done with
        | y :: done' =>
            if eqb y (QS "..") then resolveDots rooted parts' (x :: done)
            else resolveDots rooted parts' done'
        | [] =>
            if rooted then resolveDots rooted parts' done
            else resolveDots rooted parts' [x]
        end
      else resolveDots rooted parts' (x :: done)
  end.

(** [QDir::cleanPath]: redundant separators removed, [.] and [..]
    resolved as far as possible, and a separator at the end removed unless
    the path is [/] or a drive with its separator.  An empty path stays
    empty. *)
Definition cleanPath (pf : Platform) (p : QString) : QString :=
  if isEmpty p then []
  else
    let r := prefixLength pf p in
    let root := firstn r p in
    let rooted := negb (isEmpty root) in
    let body := joinParts (resolveDots rooted (pathParts (skipn r p)) []) in
    let ret := if isEmpty (root ++ body) then QS "." else root ++ body in
    let driveRoot :=
      match pf, ret with
      | Windows, [_; c; _] => N.eqb c colon
      | _, _ => false
      end in
    if ((1 <? size ret) && N.eqb (last ret 0%N) slash && negb driveRoot)%bool
    then removelast ret else ret.

(** The path a [QDir] constructed from [path] holds: [.] for an empty
    path, a trailing separator removed unless the path is a root. *)
Definition QDir (pf : Platform) (path : QString) : QString :=
  let p := if isEmpty path then QS "." else path in
  if (N.eqb (last p 0%N) slash && (1 <? size p)
      && negb (Nat.eqb (rootLength pf p) (length p)))%bool
  then removelast p else p.

(** [QDir::filePath]. *)
Definition filePath (pf : Platform) (dir fileName : QString) : QString :=
  if isAbsolute pf fileName then fileName
  else if isEmpty fileName then dir
  else if (isEmpty dir || N.eqb (last dir 0%N) slash)%bool then dir ++ fileName
  else dir ++ [slash] ++ fileName.

(** The text after the last separator, the whole text when there is
    none. *)
Definition afterLastSlash (p : QString) : QString :=
  last (split_go p []) [].

Definition beforeLastSlash (p : QString) : QString :=
  firstn (length p - length (afterLastSlash p) - 1) p.

Definition hasSlash (p : QString) : bool := existsb (N.eqb slash) p.

(** [QDir::dirName]: the name of the directory, its path from the last
    separator on. *)
Definition dirName (dir : QString) : QString := afterLastSlash dir.

(** [QFileInfo(file).dir()]: the directory [file] lies in. *)
Definition QFileInfo_dir (pf : Platform) (file : QString) : QString :=
  let path :=
    if negb (hasSlash file) then
      match pf with
      | Windows => if Nat.eqb (rootLength pf file) 2 then firstn 2 file else QS "."
      | Unix => QS "."
      end
    else if isEmpty (beforeLastSlash file) then [slash]
    else if (Nat.eqb (rootLength pf file) 3
             && Nat.eqb (length (beforeLastSlash file)) 2)%bool
    then firstn 3 file
    else beforeLastSlash file in
  QDir pf path.

(** [QDir::absolutePath] of a directory or file path, [cwd] being the
    working directory of the process. *)
Definition absolutePath (pf : Platform) (cwd p : QString) : QString :=
  if isRelativePath pf p then cleanPath pf (cwd ++ [slash] ++ p)
  else cleanPath pf p.

Definition toLower (s : QString) : QString := map foldCase s.

Fixpoint commonParts (same : QString -> QString -> bool) (a b : list QString)
  : nat :=
  match a, b with
  | x :: a', y :: b' => if same x y then S (commonParts same a' b') else 0%nat
  | _, _ => 0%nat
  end.

(** [driveSpec] of qdir.cpp: the first two units of a path whose second
    unit is a colon. *)
Definition driveSpec (p : QString) : QString :=
  match p with
  | _ :: c :: _ => if N.eqb c colon then firstn 2 p else []
  | _ => []
  end.

(** [QDir::relativeFilePath]: [fileName] relative to the directory.  A
    relative [fileName] is returned cleaned and otherwise unchanged, and so
    is, on Windows, one on another drive than the directory and one on a
    network share when the directory is on none. *)
Definition relativeFilePath (pf : Platform) (cwd dirPath fileName : QString)
  : QString :=
  let dir := absolutePath pf cwd dirPath in
  let file := cleanPath pf fileName in
  if (isRelativePath pf file || isRelativePath pf dir)%bool then file
  else
    let driveOf p :=
      match pf with
      | Windows => driveSpec p
      | Unix => []
      end in
    let dirDrive := driveOf dir in
    let fileDrive := if isEmpty (driveOf file) then dirDrive else driveOf file in
    let fileOnShareOnly :=
      match pf with
      | Windows =>
          (startsWith CaseSensitive [slash; slash] file
           && negb (startsWith CaseSensitive [slash; slash] dir))%bool
      | Unix => false
      end in
    if (negb (eqb (toLower fileDrive) (toLower dirDrive)) || fileOnShareOnly)%bool
    then file
    else
      let same x y :=
        match pf with
        | Windows => eqb (toLower x) (toLower y)
        | Unix => eqb x y
        end in
      let dirElts := pathParts (skipn (length dirDrive) dir) in
      let fileElts := pathParts (skipn (length (driveOf file)) file) in
      let i := commonParts same dirElts fileElts in
      let result :=
        concat (repeat (QS "../") (length dirElts - i))
        ++ joinParts (skipn i fileElts) in
      if isEmpty result then QS "." else result.

End Qt.

Import Qt.

(** ** The disk and the trace of calls *)

Module Disk.

(** The calls of [QDir], [QFile] and [QMessageBox] act on a disk that is
    part of the state.  A directory can be created where its parent is a
    directory and nothing has its name; a file can be opened for writing
    where the directory it lies in exists and it is no directory itself;
    access rights and links are left out, and names are compared unit by
    unit, as a file system that tells capitals from small letters does.
    [QFile::close] does nothing here. *)

(** The directories and files that exist, by absolute clean path, oldest
    first.  A file is kept as the text that [readAll] followed by
    [QString::fromUtf8] delivers, which is also the text handed to
    [toUtf8] and [write]: the encoding maps the units [LF] and [CR] to the
    bytes of the same value and produces these bytes from no other unit. *)
Record FileSystem := {
  cwd : QString;
  dirs : list QString;
  files : list (QString * QString)
}.

(** What the dialog asks of the outside, in the order it asks. *)
Inductive Event :=
| Mkpath (path : QString) (ok : bool)
| Mkdir (path : QString) (ok : bool)
| Cd (path : QString) (ok : bool)
| OpenWrite (path : QString) (ok : bool)
| OpenRead (path : QString) (ok : bool)
| Write (path : QString) (text : QString)
| Warning (title text : QString).

(** The state: the disk, the calls made so far, and the part of the
    outside that decides how the writes to come fare.  Each [QFile::write]
    takes the head of [shortWrites]; when that holds a text, the write
    falls short (a disk that fills up, a device that fails) and the file
    receives this text in place of the one written; when the list is empty
    or its head holds nothing, the file receives the text whole. *)
Record World := {
  fs : FileSystem;
  trace : list Event;
  shortWrites : list (option QString)
}.

Definition IO (A : Type) : Type := World -> A * World.

Definition ret {A} (a : A) : IO A := fun w => (a, w).
Definition bind {A B} (m : IO A) (k : A -> IO B) : IO B :=
  fun w => let '(a, w') := m w in k a w'.

Definition emit (e : Event) : IO unit :=
  fun w => (tt, {| fs := fs w; trace := trace w ++ [e];
                   shortWrites := shortWrites w |}).
Definition getFs : IO FileSystem := fun w => (fs w, w).
Definition setFs (f : FileSystem) : IO unit :=
  fun w => (tt, {| fs := f; trace := trace w;
                   shortWrites := shortWrites w |}).

(** What the file receives of the [text] of the next write. *)
Definition takeWrite (text : QString) : IO QString :=
  fun w =>
    (match shortWrites w with Some part :: _ => part | _ => text end,
     {| fs := fs w; trace := trace w; shortWrites := tl (shortWrites w) |}).

Definition isDir (f : FileSystem) (p : QString) : bool :=
  existsb (eqb p) (dirs f).

Fixpoint lookupFile (l : list (QString * QString)) (p : QString)
  : option QString :=
  match l with
  | [] => None
  | (q, text) :: l' => if eqb p q then Some text else lookupFile l' p
  end.

Definition isFile (f : FileSystem) (p : QString) : bool :=
  match lookupFile (files f) p with Some _ => true | None => false end.

Definition addDir (f : FileSystem) (p : QString) : FileSystem :=
  {| cwd := cwd f; dirs := dirs f ++ [p]; files := files f |}.

Fixpoint setFile (l : list (QString * QString)) (p text : QString)
  : list (QString * QString) :=
  match l with
  | [] => [(p, text)]
  | (q, old) :: l' =>
      if eqb p q then (q, text) :: l' else (q, old) :: setFile l' p text
  end.

Definition putFile (f : FileSystem) (p text : QString) : FileSystem :=
  {| cwd := cwd f; dirs := dirs f; files := setFile (files f) p text |}.

Section WithPlatform.

Variable pf : Platform.

Definition parentDir (p : QString) : QString :=
  cleanPath pf (p ++ QS "/..").

(** The root of an absolute clean path and the directories below it down
    to the path itself. *)
Fixpoint below (base : QString) (parts : list QString) : list QString :=
  match parts with
  | [] => []
  | x :: parts' => let p := filePath pf base x in p :: below p parts'
  end.

Definition ancestors (p : QString) : list QString :=
  let r := prefixLength pf p in
  let root := cleanPath pf (firstn r p) in
  root :: below root (pathParts (skipn r p)).

(** Creation of one directory: its parent must be a directory and nothing
    may have its name. *)
Definition createDir (f : FileSystem) (p : QString) : option FileSystem :=
  if (isDir f p || isFile f p || negb (isDir f (parentDir p)))%bool then None
  else Some (addDir f p).

(** Creation of each of [paths] that is not a directory yet, stopping at
    the first that cannot be created. *)
Fixpoint createAll (f : FileSystem) (paths : list QString)
  : bool * FileSystem :=
  match paths with
  | [] => (true, f)
  | p :: paths' =>
      if isDir f p then createAll f paths'
      else match createDir f p with
           | Some f' => createAll f' paths'
           | None => (false, f)
           end
  end.

(** [QDir::mkpath]: the directory and all its missing parents; true also
    when the directory exists already. *)
Definition QDir_mkpath (dir dirPath : QString) : IO bool :=
  bind getFs (fun f =>
  let p := absolutePath pf (cwd f) (filePath pf dir dirPath) in
  let '(ok, f') := createAll f (ancestors p) in
  bind (setFs f') (fun _ =>
  bind (emit (Mkpath p ok)) (fun _ =>
  ret ok))).

(** [QDir::mkdir]: one directory; false when it exists already or its
    parent does not. *)
Definition QDir_mkdir (dir dirName : QString) : IO bool :=
  bind getFs (fun f =>
  let p := absolutePath pf (cwd f) (filePath pf dir dirName) in
  match createDir f p with
  | Some f' =>
      bind (setFs f') (fun _ => bind (emit (Mkdir p true)) (fun _ => ret true))
  | None => bind (emit (Mkdir p false)) (fun _ => ret false)
  end).

(** [QDir::cd]: the directory object moves to [dirName] when that
    directory exists and stays where it is when it does not.  The result is
    the path the object holds afterwards. *)
Definition QDir_cd (dir dirName : QString) : IO QString :=
  if (isEmpty dirName || eqb dirName (QS "."))%bool then ret dir
  else
    bind getFs (fun f =>
    let newPath :=
      if negb (isRelativePath pf dirName) then cleanPath pf dirName
      else
        let joined :=
          (if N.eqb (last dir 0%N) slash then dir else dir ++ [slash])
          ++ dirName in
        if (hasSlash dirName || eqb dirName (QS "..") || eqb dir (QS "."))%bool
        then
          let cleaned := cleanPath pf joined in
          if startsWith CaseSensitive (QS "..") cleaned
          then absolutePath pf (cwd f) cleaned else cleaned
        else joined in
    let target := QDir pf newPath in
    let p := absolutePath pf (cwd f) target in
    if isDir f p
    then bind (emit (Cd p true)) (fun _ => ret target)
    else bind (emit (Cd p false)) (fun _ => ret dir)).

(** [QFile::open(QIODevice::WriteOnly | QIODevice::Truncate)]: the file is
    created or emptied; it fails on a directory and where the directory the
    file lies in does not exist. *)
Definition QFile_open_write (name : QString) : IO bool :=
  bind getFs (fun f =>
  let p := absolutePath pf (cwd f) name in
  if (isDir f p || negb (isDir f (parentDir p)))%bool
  then bind (emit (OpenWrite p false)) (fun _ => ret false)
  else bind (setFs (putFile f p [])) (fun _ =>
       bind (emit (OpenWrite p true)) (fun _ => ret true))).

(** [QFile::write] on a file opened for writing, with the [QFile::close]
    that follows it: the file receives the text, or what a write that
    falls short leaves of it.  The result of [write] tells the two apart;
    the dialog does not look at it, and it is left out here. *)
Definition QFile_write (name text : QString) : IO unit :=
  bind getFs (fun f =>
  let p := absolutePath pf (cwd f) name in
  let old := match lookupFile (files f) p with Some t => t | None => [] end in
  bind (takeWrite text) (fun received =>
  bind (setFs (putFile f p (old ++ received))) (fun _ =>
  emit (Write p text)))).

(** [QFile::open(QIODevice::ReadOnly | QIODevice::Text)] followed, when it
    succeeds, by [QString::fromUtf8(file.readAll())]. *)
Definition QFile_open_read (name : QString) : IO (option QString) :=
  bind getFs (fun f =>
  let p := absolutePath pf (cwd f) name in
  match lookupFile (files f) p with
  | Some text => bind (emit (OpenRead p true)) (fun _ => ret (Some text))
  | None => bind (emit (OpenRead p false)) (fun _ => ret None)
  end).

(** [QMessageBox::warning]. *)
Definition QMessageBox_warning (title text : QString) : IO unit :=
  emit (Warning title text).

End WithPlatform.

End Disk.

Import Disk.

Notation "x <- m ;; k" := (bind m (fun x => k))
  (at level 61, m at next level, right associativity).
Notation "m ;;; k" := (bind m (fun _ => k))
  (at level 61, right associativity).

(** ** The dialog *)

Module NewProjectDialog.

(** Modelled from the spec: the enumeration [NewlineFormat] that
    [MainWindow::GetDefaultNewlineFormat] returns is declared outside this
    file; the dialog only compares it with [CrLf]. *)
Inductive NewlineFormat := CrLf | Lf.

(** The members of the dialog the functions below read: the path given to
    the constructor, the text of the two line edits, and the newline
    format of the main window. *)
Record Dialog := {
  existingCMakeFilePath : QString;
  nameEdit : QString;
  folderEdit : QString;
  defaultNewlineFormat : NewlineFormat
}.

Definition tr (s : QString) : QString := s.

(** *** TryGuessProjectName: the scan of the text *)

(** The [for] loop over [arguments], from position [i] on; [arguments] is
    here the part of the argument string from [i] to its end. *)
Fixpoint parseArguments (arguments : QString) (i : Z) (haveString : bool)
  (projectName : QString) : QString :=
  match arguments with
  | [] => projectName
  | c :: rest =>
      if ((i =? 0) && N.eqb c dquote)%bool then
        parseArguments rest (i + 1) true projectName
      else if (haveString && N.eqb c dquote)%bool then projectName
      else if isSpace c then projectName
      else parseArguments rest (i + 1) haveString (projectName ++ [c])
  end.

(** The inner [while] loop: [leftBracketPos] moves over white space and
    stops at the end of the text.  [s] is the text from [pos] to its end;
    [reads] lists the positions at which [text[...]] has been evaluated. *)
Fixpoint skipSpaces_go (s : QString) (pos : Z) (reads : list Z)
  : Z * list Z :=
  match s with
  | [] => (pos, reads)
  | c :: s' =>
      if isSpace c then skipSpaces_go s' (pos + 1) (reads ++ [pos])
      else (pos, reads ++ [pos])
  end.

Definition skipSpaces (text : QString) (from : Z) (reads : list Z)
  : Z * list Z :=
  skipSpaces_go (skipn (Z.to_nat from) text) from reads.

(** The outcome of the scan: the name it returned, if it returned one
    from inside the loop, and the positions of the text it evaluated
    [text[...]] at. *)
Record Scan := {
  found : option QString;
  reads : list Z
}.

(** The [while (true)] loop.  [fuel] bounds the number of iterations;
    [None] is returned only when it runs out. *)
Fixpoint scan (fuel : nat) (text : QString) (cursor : Z) (rd : list Z)
  : option Scan :=
  match fuel with
  | O => None
  | S fuel' =>
      let cursor := indexOf text (QS "project") cursor CaseInsensitive in
      if cursor <? 0 then Some {| found := None; reads := rd |}
      else
        let cursor := cursor + 7 in
        let '(leftBracketPos, rd) := skipSpaces text cursor rd in
        let rd := rd ++ [leftBracketPos] in
        if N.eqb (at_ text leftBracketPos) lparen then
          let rightBracketPos := indexOfChar text rparen (leftBracketPos + 1) in
          if 0 <=? rightBracketPos then
            let arguments :=
              trimmed (mid text (leftBracketPos + 1)
                           (rightBracketPos - leftBracketPos - 1)) in
            Some {| found := Some (parseArguments arguments 0 false []);
                    reads := rd |}
          else scan fuel' text cursor rd
        else scan fuel' text cursor rd
  end.

(** Every iteration moves [cursor] at least seven positions on, so the
    size of the text bounds the number of iterations: with this fuel the
    loop always ends by itself ([scanText_ends]). *)
Definition scanText (text : QString) : option Scan :=
  scan (S (length text)) text 0 [].

Section WithPlatform.

Variable pf : Platform.

(** The folder name the function falls back on. *)
Definition folderName (d : Dialog) : QString :=
  dirName (QFileInfo_dir pf (existingCMakeFilePath d)).

Definition TryGuessProjectName (d : Dialog) : IO QString :=
  if isEmpty (existingCMakeFilePath d) then ret (QS "")
  else
    opened <- QFile_open_read pf (existingCMakeFilePath d) ;;
    match opened with
    | Some text =>
        match scanText text with
        | Some {| found := Some projectName |} => ret projectName
        | _ => ret (folderName d)
        end
    | None => ret (folderName d)
    end.

(** *** The generated files *)

Definition quoted (s : string) : QString := [dquote] ++ QS s ++ [dquote].

Definition projectFileTemplate : QString :=
  line "name: %1" ++
  line "projectCMakeDir: build" ++
  line "buildDir: build" ++
  line "buildTarget: %2" ++
  line "runDir: build" ++
  line "runCmd: ./%2".

Definition cmakeListsFileTemplate : QString :=
  line "cmake_minimum_required(VERSION 3.0)" ++
  line "" ++
  line "project(%1)" ++
  line "" ++
  line "# To set a C++ standard:" ++
  line "# set(CMAKE_CXX_STANDARD 11)" ++
  line "" ++
  line "add_executable(%2" ++
  line "  src/%3/main.cc" ++
  line ")" ++
  line "target_compile_options(%2 PUBLIC" ++
  QS "  " ++ quoted "$<$<COMPILE_LANGUAGE:CXX>:-Wall>" ++ [LF] ++
  QS "  " ++ quoted ";$<$<COMPILE_LANGUAGE:CXX>:-Wextra>" ++ [LF] ++
  QS "  " ++ quoted ";$<$<COMPILE_LANGUAGE:CXX>:-O2>" ++ [LF] ++
  QS "  " ++ quoted ";$<$<COMPILE_LANGUAGE:CXX>:-msse2>" ++ [LF] ++
  QS "  " ++ quoted ";$<$<COMPILE_LANGUAGE:CXX>:-msse3>" ++ [LF] ++
  line ")".

Definition mainFileTemplate : QString :=
  line "int main(int argc, char** argv) {" ++
  line "  " ++
  line "}".

Definition existingProjectFileTemplate : QString :=
  line "name: %1" ++
  line "projectCMakeDir: %3" ++
  line "buildDir: %3" ++
  line "runDir: %3" ++
  line "runCmd: ./%2".

(** The final step on each text:
    [if (GetDefaultNewlineFormat() == NewlineFormat::CrLf) text.replace("\n", "\r\n")]. *)
Definition applyNewlineFormat (d : Dialog) (text : QString) : QString :=
  match defaultNewlineFormat d with
  | CrLf => replace text [LF] [CR; LF]
  | Lf => text
  end.

Definition CreateNewProject (d : Dialog) : IO bool :=
  (* Create project directory *)
  let dir := QDir pf (folderEdit d) in
  made <- QDir_mkpath pf dir (QS ".") ;;
  if negb made then
    QMessageBox_warning (tr (QS "New project"))
      (arg (tr (QS "Failed to create project directory (%1).")) dir) ;;;
    ret false
  else
  let projectName := nameEdit d in
  let binaryName := projectName in
  let srcSubfolderName := projectName in
  (* <project_name>.cide *)
  let projectFile := filePath pf dir (projectName ++ QS ".cide") in
  opened <- QFile_open_write pf projectFile ;;
  if negb opened then
    QMessageBox_warning (tr (QS "New project"))
      (arg (tr (QS "Failed to create project file (%1).")) projectFile) ;;;
    ret false
  else
  let projectFileText :=
    applyNewlineFormat d (arg (arg projectFileTemplate projectName) binaryName) in
  QFile_write pf projectFile projectFileText ;;;
  (* CMakeLists.txt *)
  let cmakeListsPath := filePath pf dir (QS "CMakeLists.txt") in
  opened <- QFile_open_write pf cmakeListsPath ;;
  if negb opened then
    QMessageBox_warning (tr (QS "New project"))
      (arg (tr (QS "Failed to create CMakeLists.txt file (%1).")) cmakeListsPath) ;;;
    ret false
  else
  let cmakeListsFileText :=
    applyNewlineFormat d
      (arg (arg (arg cmakeListsFileTemplate projectName) binaryName)
           srcSubfolderName) in
  QFile_write pf cmakeListsPath cmakeListsFileText ;;;
  (* src/<project_name> directory *)
  let srcDir := dir in
  _ <- QDir_mkdir pf srcDir (QS "src") ;;
  srcDir <- QDir_cd pf srcDir (QS "src") ;;
  _ <- QDir_mkdir pf srcDir srcSubfolderName ;;
  srcDir <- QDir_cd pf srcDir srcSubfolderName ;;
  (* src/<project_name>/main.cc *)
  let mainPath := filePath pf srcDir (QS "main.cc") in
  opened <- QFile_open_write pf mainPath ;;
  if negb opened then
    QMessageBox_warning (tr (QS "New project"))
      (arg (tr (QS "Failed to create main file (%1).")) mainPath) ;;;
    ret false
  else
  let mainFileText := applyNewlineFormat d mainFileTemplate in
  QFile_write pf mainPath mainFileText ;;;
  (* build directory *)
  _ <- QDir_mkdir pf dir (QS "build") ;;
  ret true.

Definition CreateProjectForExistingCMakeListsTxtFile (d : Dialog) : IO bool :=
  let projectName := nameEdit d in
  let binaryName := projectName in
  let cmakeFileDir := QFileInfo_dir pf (existingCMakeFilePath d) in
  (* Create build directory if it does not exist yet *)
  let buildDirPath := folderEdit d in
  let buildDir := QDir pf buildDirPath in
  _ <- QDir_mkpath pf buildDir (QS ".") ;;
  (* Create <project_name>.cide *)
  let projectFile := filePath pf cmakeFileDir (projectName ++ QS ".cide") in
  opened <- QFile_open_write pf projectFile ;;
  if negb opened then
    QMessageBox_warning (tr (QS "New project"))
      (arg (tr (QS "Failed to create project file (%1).")) projectFile) ;;;
    ret false
  else
  f <- getFs ;;
  let projectFileText :=
    applyNewlineFormat d
      (arg (arg (arg existingProjectFileTemplate projectName) binaryName)
           (relativeFilePath pf (cwd f) cmakeFileDir buildDirPath)) in
  QFile_write pf projectFile projectFileText ;;;
  ret true.

Definition CreateProject (d : Dialog) : IO bool :=
  if isEmpty (existingCMakeFilePath d) then CreateNewProject d
  else CreateProjectForExistingCMakeListsTxtFile d.

Definition GetProjectFilePath (d : Dialog) : QString :=
  let projectName := nameEdit d in
  if isEmpty (existingCMakeFilePath d) then
    filePath pf (QDir pf (folderEdit d)) (projectName ++ QS ".cide")
  else
    filePath pf (QFileInfo_dir pf (existingCMakeFilePath d))
             (projectName ++ QS ".cide").

(** [accept]: an empty name is refused with a message; otherwise the
    dialog closes through [QDialog::accept].  The result tells whether it
    closed. *)
Definition accept (d : Dialog) : IO bool :=
  if isEmpty (nameEdit d) then
    QMessageBox_warning (tr (QS "New project"))
      (tr (QS "Please enter a name for the project.")) ;;;
    ret false
  else ret true.

End WithPlatform.

End NewProjectDialog.

Import NewProjectDialog.

(** ** The notions the theorems are stated with *)

Module Notions.

(** The token the scan searches for. *)
Definition needle : QString := QS "project".

(** The token stands at position [m] of [text], whatever the case of its
    letters. *)
Definition occursAt (text : QString) (m : Z) : bool :=
  (0 <=? m) && startsWith CaseInsensitive needle (skipn (Z.to_nat m) text).

(** Where the inner [while] loop stops when it starts after the token at
    [m]. *)
Definition leftBracket (text : QString) (m : Z) : Z :=
  fst (skipSpaces text (m + 7) []).

(** What the body of the loop makes of the token at [m]: the name it
    returns, or nothing when it goes on to the next token. *)
Definition nameAt (text : QString) (m : Z) : option QString :=
  let lb := leftBracket text m in
  if N.eqb (at_ text lb) lparen then
    let rb := indexOfChar text rparen (lb + 1) in
    if 0 <=? rb then
      Some (parseArguments (trimmed (mid text (lb + 1) (rb - lb - 1)))
              0 false [])
    else None
  else None.

(** The token at [m] opens a declaration that is closed: white space or
    nothing follows it, then an open bracket, and somewhere after that
    bracket a closing one. *)
Definition closedAt (text : QString) (m : Z) : bool :=
  (occursAt text m
   && N.eqb (at_ text (leftBracket text m)) lparen
   && (0 <=? indexOfChar text rparen (leftBracket text m + 1)))%bool.

(** No token of the text opens a declaration that is closed. *)
Definition noneClosed (text : QString) : bool :=
  forallb (fun m => negb (closedAt text (Z.of_nat m))) (seq 0 (length text)).

(** The text of the file the dialog was given, when it can be opened. *)
Definition configText (pf : Platform) (d : Dialog) (w : World)
  : option QString :=
  lookupFile (files (fs w))
    (absolutePath pf (cwd (fs w)) (existingCMakeFilePath d)).

(** No [LF] without a [CR] right before it. *)
Definition noBareLF (text : QString) : Prop :=
  forall i, nth_error text i = Some LF ->
  exists j, i = S j /\ nth_error text j = Some CR.

(** The same, as a test that runs over the text with the unit before the
    current one in hand. *)
Fixpoint guardedLF (prev : QChar) (s : QString) : bool :=
  match s with
  | [] => true
  | c :: s' => (negb (N.eqb c LF) || N.eqb prev CR) && guardedLF c s'
  end.

(** What the replacement makes of one unit. *)
Definition crlf (c : QChar) : QString :=
  if N.eqb c LF then [CR; LF] else [c].

(** Every text written so far has the property [P]. *)
Definition writes (P : QString -> Prop) (t : list Event) : Prop :=
  forall p text, In (Write p text) t -> P text.

(** [m] writes only texts that have the property [P]. *)
Definition writesOnly {A} (P : QString -> Prop) (m : IO A) : Prop :=
  forall w, writes P (trace w) -> writes P (trace (snd (m w))).

(** The event is a message box. *)
Definition isWarning (e : Event) : bool :=
  match e with Warning _ _ => true | _ => false end.

End Notions.

Import Notions.

(** ** The plan of the specification *)

Module SpecPlan.

(** The specification describes a run as a plan, directories to create
    followed by files to write, that an executor carries out with two
    calls: one creates a directory with all its missing parents and accepts
    a directory that exists, the other creates or truncates a file and
    writes it.  These definitions follow that description, not the code. *)
Record ScaffoldPlan := {
  directoriesToCreate : list QString;
  filesToWrite : list (QString * QString)
}.

Section WithPlatform.

Variable pf : Platform.

Definition createDirectoryRecursive (f : FileSystem) (p : QString)
  : option FileSystem :=
  let '(ok, f') := createAll pf f (ancestors pf p) in
  if ok then Some f' else None.

Definition writeFile (f : FileSystem) (p text : QString) : option FileSystem :=
  if (isDir f p || negb (isDir f (parentDir pf p)))%bool then None
  else Some (putFile f p text).

Fixpoint createDirectories (f : FileSystem) (ps : list QString)
  : option FileSystem :=
  match ps with
  | [] => Some f
  | p :: ps' =>
      match createDirectoryRecursive f p with
      | Some f' => createDirectories f' ps'
      | None => None
      end
  end.

Fixpoint writeFiles (f : FileSystem) (l : list (QString * QString))
  : option FileSystem :=
  match l with
  | [] => Some f
  | (p, text) :: l' =>
      match writeFile f p text with
      | Some f' => writeFiles f' l'
      | None => None
      end
  end.

Definition executePlan (plan : ScaffoldPlan) (f : FileSystem)
  : option FileSystem :=
  match createDirectories f (directoriesToCreate plan) with
  | Some f' => writeFiles f' (filesToWrite plan)
  | None => None
  end.

End WithPlatform.

Definition newlines (nl : NewlineFormat) (text : QString) : QString :=
  match nl with
  | CrLf => replace text [LF] [CR; LF]
  | Lf => text
  end.

(** The three files of the project [Demo], as the specification gives
    them. *)
Definition demoDescriptor : QString :=
  line "name: Demo" ++
  line "projectCMakeDir: build" ++
  line "buildDir: build" ++
  line "buildTarget: Demo" ++
  line "runDir: build" ++
  line "runCmd: ./Demo".

Definition demoCMakeLists : QString :=
  line "cmake_minimum_required(VERSION 3.0)" ++
  line "" ++
  line "project(Demo)" ++
  line "" ++
  line "# To set a C++ standard:" ++
  line "# set(CMAKE_CXX_STANDARD 11)" ++
  line "" ++
  line "add_executable(Demo" ++
  line "  src/Demo/main.cc" ++
  line ")" ++
  line "target_compile_options(Demo PUBLIC" ++
  QS "  " ++ quoted "$<$<COMPILE_LANGUAGE:CXX>:-Wall>" ++ [LF] ++
  QS "  " ++ quoted ";$<$<COMPILE_LANGUAGE:CXX>:-Wextra>" ++ [LF] ++
  QS "  " ++ quoted ";$<$<COMPILE_LANGUAGE:CXX>:-O2>" ++ [LF] ++
  QS "  " ++ quoted ";$<$<COMPILE_LANGUAGE:CXX>:-msse2>" ++ [LF] ++
  QS "  " ++ quoted ";$<$<COMPILE_LANGUAGE:CXX>:-msse3>" ++ [LF] ++
  line ")".

Definition demoMain : QString :=
  line "int main(int argc, char** argv) {" ++
  line "  " ++
  line "}".

(** The plan for the new project [Demo] in [/tmp/x]. *)
Definition demoPlan (nl : NewlineFormat) : ScaffoldPlan :=
  {| directoriesToCreate :=
       [QS "/tmp/x"; QS "/tmp/x/src/Demo"; QS "/tmp/x/build"];
     filesToWrite :=
       [(QS "/tmp/x/Demo.cide", newlines nl demoDescriptor);
        (QS "/tmp/x/CMakeLists.txt", newlines nl demoCMakeLists);
        (QS "/tmp/x/src/Demo/main.cc", newlines nl demoMain)] |}.

End SpecPlan.

(** ** The build folder that cannot be made relative *)

Module RelativePath.

Section WithPlatform.

Variable pf : Platform.

(** What [QDir::relativeFilePath] answers for the build folder of the
    dialog. *)
Definition relativeBuildDir (d : Dialog) (w : World) : QString :=
  relativeFilePath pf (cwd (fs w))
    (QFileInfo_dir pf (existingCMakeFilePath d)) (folderEdit d).

(** The build folder lies on another root than the folder of the file:
    both paths are absolute, as Windows has them, and the build folder
    names a drive that is not the drive of the folder of the file, or it
    lies on a network share and the folder of the file on none. *)
Definition onAnotherRoot (d : Dialog) (w : World) : bool :=
  let dir :=
    absolutePath pf (cwd (fs w)) (QFileInfo_dir pf (existingCMakeFilePath d)) in
  let file := cleanPath pf (folderEdit d) in
  match pf with
  | Windows =>
      negb (isRelativePath pf file) && negb (isRelativePath pf dir)
      && ((negb (isEmpty (driveSpec file))
           && negb (eqb (toLower (driveSpec file)) (toLower (driveSpec dir))))
          || (startsWith CaseSensitive [slash; slash] file
              && negb (startsWith CaseSensitive [slash; slash] dir)))
  | Unix => false
  end.

(** The build folder cannot be made relative to the folder of the file. *)
Definition cannotBeMadeRelative (d : Dialog) (w : World) : Prop :=
  isRelativePath pf (relativeBuildDir d w) = false.

(** The run [r] from [w] reported an error and did nothing else: the disk
    is as it was and the trace has grown by one message. *)
Definition refusedBeforeAnyIO (w : World) (r : bool * World) : Prop :=
  fst r = false /\ fs (snd r) = fs w /\
  exists title text, trace (snd r) = trace w ++ [Warning title text].

(** The descriptor written beside an existing file. *)
Definition existingDescriptor (d : Dialog) (w : World) : QString :=
  applyNewlineFormat d
    (arg (arg (arg existingProjectFileTemplate (nameEdit d)) (nameEdit d))
         (relativeBuildDir d w)).

End WithPlatform.

End RelativePath.

(** ** Example disks and dialogs *)

Module Examples.

Definition cmakeLists : QString := QS "/home/u/proj/CMakeLists.txt".

(** A disk on which [/home/u/proj/CMakeLists.txt] holds [text]. *)
Definition diskWith (text : QString) : World :=
  {| fs := {| cwd := QS "/home/u";
              dirs := [QS "/"; QS "/home"; QS "/home/u"; QS "/home/u/proj"];
              files := [(cmakeLists, text)] |};
     trace := [];
     shortWrites := [] |}.

(** The same disk without the file. *)
Definition diskWithout : World :=
  {| fs := {| cwd := QS "/home/u";
              dirs := [QS "/"; QS "/home"; QS "/home/u"; QS "/home/u/proj"];
              files := [] |};
     trace := [];
     shortWrites := [] |}.

(** The dialog as its constructor has it when it calls
    [TryGuessProjectName]. *)
Definition opening : Dialog :=
  {| existingCMakeFilePath := cmakeLists;
     nameEdit := [];
     folderEdit := [];
     defaultNewlineFormat := Lf |}.

(** A disk that holds [/] and [/tmp] and nothing else. *)
Definition freshDisk : World :=
  {| fs := {| cwd := QS "/"; dirs := [QS "/"; QS "/tmp"]; files := [] |};
     trace := [];
     shortWrites := [] |}.

(** The dialog for a new project [Demo] in [/tmp/x]. *)
Definition newDemo (nl : NewlineFormat) : Dialog :=
  {| existingCMakeFilePath := [];
     nameEdit := QS "Demo";
     folderEdit := QS "/tmp/x";
     defaultNewlineFormat := nl |}.

(** A disk on which [/tmp/x] exists and holds a regular file [build]. *)
Definition diskWithFileNamedBuild : World :=
  {| fs := {| cwd := QS "/";
              dirs := [QS "/"; QS "/tmp"; QS "/tmp/x"];
              files := [(QS "/tmp/x/build", QS "notes")] |};
     trace := [];
     shortWrites := [] |}.

(** A project with [/home/u/proj/CMakeLists.txt], a regular file
    [/home/u/proj/build] beside it. *)
Definition projectWithFileNamedBuild : World :=
  {| fs := {| cwd := QS "/home/u";
              dirs := [QS "/"; QS "/home"; QS "/home/u"; QS "/home/u/proj"];
              files := [(QS "/home/u/proj/CMakeLists.txt", QS "project(Foo)");
                        (QS "/home/u/proj/build", QS "notes")] |};
     trace := [];
     shortWrites := [] |}.

(** The dialog for the existing file, the build folder the one the
    constructor proposes. *)
Definition attachFoo : Dialog :=
  {| existingCMakeFilePath := QS "/home/u/proj/CMakeLists.txt";
     nameEdit := QS "Foo";
     folderEdit := QS "/home/u/proj/build";
     defaultNewlineFormat := Lf |}.

(** A Windows disk with two drives, the project on [C:]. *)
Definition twoDrives : World :=
  {| fs := {| cwd := QS "C:/";
              dirs := [QS "C:/"; QS "C:/proj"; QS "D:/"];
              files := [(QS "C:/proj/CMakeLists.txt", QS "project(Foo)")] |};
     trace := [];
     shortWrites := [] |}.

(** The dialog for the file on [C:], the build folder on [D:]. *)
Definition attachAcrossDrives : Dialog :=
  {| existingCMakeFilePath := QS "C:/proj/CMakeLists.txt";
     nameEdit := QS "Foo";
     folderEdit := QS "D:/build";
     defaultNewlineFormat := Lf |}.

(** The same project with the share [//server/share] beside the drive. *)
Definition driveAndShare : World :=
  {| fs := {| cwd := QS "C:/";
              dirs := [QS "C:/"; QS "C:/proj"; QS "//server";
                       QS "//server/share"];
              files := [(QS "C:/proj/CMakeLists.txt", QS "project(Foo)")] |};
     trace := [];
     shortWrites := [] |}.

(** The dialog for the file on [C:], the build folder on the share. *)
Definition attachOnShare : Dialog :=
  {| existingCMakeFilePath := QS "C:/proj/CMakeLists.txt";
     nameEdit := QS "Foo";
     folderEdit := QS "//server/share/build";
     defaultNewlineFormat := Lf |}.

End Examples.

Import SpecPlan RelativePath Examples.

(** ** The scan as a search from left to right *)

Module ScanNotions.

(** The name of the leftmost token that yields one, looked for at every
    position in turn; [s] is the text from [pos] to its end. *)
Fixpoint firstNameFrom (text s : QString) (pos : Z) : option QString :=
  match s with
  | [] => None
  | _ :: s' =>
      if startsWith CaseInsensitive needle s then
        match nameAt text pos with
        | Some name => Some name
        | None => firstNameFrom text s' (pos + 1)
        end
      else firstNameFrom text s' (pos + 1)
  end.

Definition firstName (text : QString) : option QString :=
  firstNameFrom text text 0.

(** White space removed from the end. *)
Definition trimmedRight (s : QString) : QString :=
  rev (dropSpaces (rev s)).

End ScanNotions.

Import ScanNotions.

(** ** Runs that only add to the disk *)

Module RunNotions.

(** The world [w'] comes from [w] by calls that added [evs] to the trace:
    the working directory is the same, and every directory and every file
    of [w] still exists in [w']. *)
Definition extends (w w' : World) (evs : list Event) : Prop :=
  trace w' = trace w ++ evs /\
  cwd (fs w') = cwd (fs w) /\
  (forall p, isDir (fs w) p = true -> isDir (fs w') p = true) /\
  (forall p, isFile (fs w) p = true -> isFile (fs w') p = true).

(** The same, by calls that showed no message. *)
Definition extendsQuietly (w w' : World) (evs : list Event) : Prop :=
  extends w w' evs /\ existsb isWarning evs = false.

(** A disk that has the directories and files of another, and its working
    directory. *)
Definition holds (f f' : FileSystem) : Prop :=
  cwd f' = cwd f /\
  (forall p, isDir f p = true -> isDir f' p = true) /\
  (forall p, isFile f p = true -> isFile f' p = true).

(** The event is the opening for writing, or the writing, of the file
    [q]. *)
Definition touches (q : QString) (e : Event) : bool :=
  match e with
  | OpenWrite p true => eqb p q
  | Write p _ => eqb p q
  | _ => false
  end.

(** Every file that none of [evs] touches holds in [w'] what it held in
    [w], or is missing in both. *)
Definition spares (w w' : World) (evs : list Event) : Prop :=
  forall q, existsb (touches q) evs = false ->
  lookupFile (files (fs w')) q = lookupFile (files (fs w)) q.

(** The texts [CreateNewProject] writes. *)
Definition newDescriptor (d : Dialog) : QString :=
  applyNewlineFormat d
    (arg (arg projectFileTemplate (nameEdit d)) (nameEdit d)).

Definition newCMakeLists (d : Dialog) : QString :=
  applyNewlineFormat d
    (arg (arg (arg cmakeListsFileTemplate (nameEdit d)) (nameEdit d))
         (nameEdit d)).

Definition newMain (d : Dialog) : QString :=
  applyNewlineFormat d mainFileTemplate.

(** The descriptor [CreateProject] writes, in either mode. *)
Definition descriptorText (pf : Platform) (d : Dialog) (w : World)
  : QString :=
  if isEmpty (existingCMakeFilePath d) then newDescriptor d
  else existingDescriptor pf d w.

(** The end of a line in the newline format of the main window. *)
Definition eol (d : Dialog) : QString :=
  match defaultNewlineFormat d with
  | CrLf => [CR; LF]
  | Lf => [LF]
  end.

End RunNotions.

Import RunNotions.

(** ** More example dialogs *)

Module RunExamples.

(** The dialog for a new project [Demo] in a folder below the regular file
    [/tmp/x/build] of [diskWithFileNamedBuild]. *)
Definition newBelowFile : Dialog :=
  {| existingCMakeFilePath := [];
     nameEdit := QS "Demo";
     folderEdit := QS "/tmp/x/build/p";
     defaultNewlineFormat := Lf |}.

(** The project of [diskWith] with an older descriptor beside the
    file. *)
Definition diskWithDescriptor : World :=
  {| fs := {| cwd := QS "/home/u";
              dirs := [QS "/"; QS "/home"; QS "/home/u"; QS "/home/u/proj"];
              files := [(cmakeLists, QS "project(Foo)");
                        (QS "/home/u/proj/Foo.cide", QS "name: Old")] |};
     trace := [];
     shortWrites := [] |}.

(** The same disk when it fills up: of the next write only [name: F]
    gets through. *)
Definition diskThatFillsUp : World :=
  {| fs := fs diskWithDescriptor;
     trace := [];
     shortWrites := [Some (QS "name: F")] |}.

End RunExamples.

Import RunExamples.

(** ** Templates cut at their place markers *)

Module ArgNotions.

(** A template as literal text and place markers [%k], [k] one digit. *)
Inductive Piece :=
| Text (s : QString)
| Hole (k : nat).

Definition hole (k : nat) : QString := [percent; N.of_nat (48 + k)].

Fixpoint render (ps : list Piece) : QString :=
  match ps with
  | [] => []
  | Text s :: ps' => s ++ render ps'
  | Hole k :: ps' => hole k ++ render ps'
  end.

(** The marker [m] filled with [a]. *)
Definition fillPiece (m : nat) (a : QString) (p : Piece) : Piece :=
  match p with
  | Text s => Text s
  | Hole k => if Nat.eqb k m then Text a else Hole k
  end.

Definition noPercent (s : QString) : bool := negb (existsb (N.eqb percent) s).

(** What follows a marker is no digit. *)
Definition startsPlain (ps : list Piece) : bool :=
  match ps with
  | [] => true
  | Hole _ :: _ => true
  | Text (c :: _) :: _ =>
      match digitValue c with None => true | Some _ => false end
  | Text [] :: _ => false
  end.

(** The cut shows every marker: the literal text holds no percent sign,
    and no marker is followed by a digit that would be read as part of
    it. *)
Fixpoint wellCut (ps : list Piece) : bool :=
  match ps with
  | [] => true
  | Text s :: ps' => noPercent s && wellCut ps'
  | Hole k :: ps' => (k <=? 9)%nat && startsPlain ps' && wellCut ps'
  end.

Fixpoint lowestHole (ps : list Piece) : option nat :=
  match ps with
  | [] => None
  | Text _ :: ps' => lowestHole ps'
  | Hole k :: ps' =>
      match lowestHole ps' with
      | Some m => Some (Nat.min k m)
      | None => Some k
      end
  end.

(** The tokens [QString::arg] reads the template as. *)
Fixpoint tokensOf (ps : list Piece) : list ArgToken :=
  match ps with
  | [] => []
  | Text s :: ps' => map Lit s ++ tokensOf ps'
  | Hole k :: ps' => Marker k (hole k) :: tokensOf ps'
  end.

(** The three templates, cut. *)
Definition projectFilePieces : list Piece :=
  [Text (QS "name: "); Hole 1;
   Text ([LF] ++ line "projectCMakeDir: build" ++ line "buildDir: build" ++
         QS "buildTarget: "); Hole 2;
   Text ([LF] ++ line "runDir: build" ++ QS "runCmd: ./"); Hole 2;
   Text [LF]].

Definition cmakeListsPieces : list Piece :=
  [Text (line "cmake_minimum_required(VERSION 3.0)" ++ line "" ++
         QS "project("); Hole 1;
   Text (line ")" ++ line "" ++ line "# To set a C++ standard:" ++
         line "# set(CMAKE_CXX_STANDARD 11)" ++ line "" ++
         QS "add_executable("); Hole 2;
   Text ([LF] ++ QS "  src/"); Hole 3;
   Text (line "/main.cc" ++ line ")" ++ QS "target_compile_options("); Hole 2;
   Text (line " PUBLIC" ++
         QS "  " ++ quoted "$<$<COMPILE_LANGUAGE:CXX>:-Wall>" ++ [LF] ++
         QS "  " ++ quoted ";$<$<COMPILE_LANGUAGE:CXX>:-Wextra>" ++ [LF] ++
         QS "  " ++ quoted ";$<$<COMPILE_LANGUAGE:CXX>:-O2>" ++ [LF] ++
         QS "  " ++ quoted ";$<$<COMPILE_LANGUAGE:CXX>:-msse2>" ++ [LF] ++
         QS "  " ++ quoted ";$<$<COMPILE_LANGUAGE:CXX>:-msse3>" ++ [LF] ++
         line ")")].

Definition existingProjectFilePieces : list Piece :=
  [Text (QS "name: "); Hole 1;
   Text ([LF] ++ QS "projectCMakeDir: "); Hole 3;
   Text ([LF] ++ QS "buildDir: "); Hole 3;
   Text ([LF] ++ QS "runDir: "); Hole 3;
   Text ([LF] ++ QS "runCmd: ./"); Hole 2;
   Text [LF]].

End ArgNotions.

Import ArgNotions.

(** ** Facts about the Qt string functions *)

Module QtFacts.

Lemma size_nonneg (s : QString) : 0 <= size s.
Proof. unfold size. lia. Qed.

Lemma size_app (a b : QString) : size (a ++ b) = size a + size b.
Proof. unfold size. rewrite length_app. lia. Qed.

Lemma startsWith_length cs (n s : QString) :
  startsWith cs n s = true -> (length n <= length s)%nat.
Proof.
  revert s. induction n as [|x n IH]; intros [|c s] H; simpl in *;
    try lia; try discriminate.
  apply andb_prop in H as [_ H]. apply IH in H. lia.
Qed.

Lemma skipn_skipn_add {A} (i j : nat) (l : list A) :
  skipn i (skipn j l) = skipn (j + i) l.
Proof.
  revert l. induction j as [|j IH]; intros l; simpl.
  - reflexivity.
  - destruct l as [|x l]; simpl.
    + now rewrite skipn_nil.
    + apply IH.
Qed.

(** What [indexOf_go] returns for a needle that is not empty: [-1] when no
    suffix of [s] starts with the needle, and otherwise [pos] plus the
    number of units before the first suffix that does. *)
Lemma indexOf_go_spec cs (n s : QString) (pos : Z) :
  n <> [] ->
  (indexOf_go cs n s pos = -1 /\
   forall j, startsWith cs n (skipn j s) = false)
  \/
  (exists j, indexOf_go cs n s pos = pos + Z.of_nat j /\
     startsWith cs n (skipn j s) = true /\
     forall i, (i < j)%nat -> startsWith cs n (skipn i s) = false).
Proof.
  intros Hn. revert pos. induction s as [|c s IH]; intros pos.
  - left. simpl. destruct n as [|x n]; [congruence|]. split; [reflexivity|].
    intros j. rewrite skipn_nil. reflexivity.
  - cbn [indexOf_go]. destruct (startsWith cs n (c :: s)) eqn:E.
    + right. exists 0%nat. split; [lia|]. split; [exact E|]. intros i Hi; lia.
    + destruct (IH (pos + 1)) as [[H1 H2] | [j [H1 [H2 H3]]]].
      * left. split; [exact H1|]. intros [|j]; [exact E | apply H2].
      * right. exists (S j). split; [rewrite H1; lia|]. split; [exact H2|].
        intros [|i] Hi; [exact E | apply H3; lia].
Qed.

Lemma indexOf_from (s n : QString) (from : Z) cs :
  0 <= from <= size s ->
  indexOf s n from cs = indexOf_go cs n (skipn (Z.to_nat from) s) from.
Proof.
  intros H. unfold indexOf.
  destruct (from <? 0) eqn:E1; [apply Z.ltb_lt in E1; lia|].
  destruct (size s <? from) eqn:E2; [apply Z.ltb_lt in E2; lia|].
  reflexivity.
Qed.

Lemma indexOf_past (s n : QString) (from : Z) cs :
  size s < from -> indexOf s n from cs = -1.
Proof.
  intros H. unfold indexOf. pose proof (size_nonneg s).
  destruct (from <? 0) eqn:E1; [apply Z.ltb_lt in E1; lia|].
  destruct (size s <? from) eqn:E2; [reflexivity|].
  apply Z.ltb_ge in E2. lia.
Qed.

(** [indexOf] from a position that is not negative: either [-1], and then
    the needle starts at no position from [from] on, or the first position
    from [from] on at which it starts. *)
Lemma indexOf_spec (s n : QString) (from : Z) cs :
  n <> [] -> 0 <= from ->
  (indexOf s n from cs = -1 /\
   forall k, from <= k -> startsWith cs n (skipn (Z.to_nat k) s) = false)
  \/
  (exists r, indexOf s n from cs = r /\ from <= r /\
     r + Z.of_nat (length n) <= size s /\
     startsWith cs n (skipn (Z.to_nat r) s) = true /\
     forall k, from <= k < r -> startsWith cs n (skipn (Z.to_nat k) s) = false).
Proof.
  intros Hn Hf.
  assert (Hnil : forall t, length t = 0%nat -> startsWith cs n t = false).
  { intros [|] Ht; [|discriminate]. destruct n; [congruence | reflexivity]. }
  destruct (Z_lt_le_dec (size s) from) as [Hp | Hp].
  - left. split; [now apply indexOf_past|].
    intros k Hk. apply Hnil. rewrite length_skipn. unfold size in Hp. lia.
  - rewrite indexOf_from by lia.
    destruct (indexOf_go_spec cs n (skipn (Z.to_nat from) s) from Hn)
      as [[H1 H2] | [j [H1 [H2 H3]]]].
    + left. split; [exact H1|]. intros k Hk.
      specialize (H2 (Z.to_nat k - Z.to_nat from)%nat).
      rewrite skipn_skipn_add in H2.
      replace (Z.to_nat from + (Z.to_nat k - Z.to_nat from))%nat
        with (Z.to_nat k) in H2 by lia.
      exact H2.
    + right. exists (from + Z.of_nat j). split; [exact H1|].
      rewrite skipn_skipn_add in H2.
      replace (Z.to_nat (from + Z.of_nat j)) with (Z.to_nat from + j)%nat by lia.
      split; [lia|]. split.
      * apply startsWith_length in H2. rewrite length_skipn in H2.
        unfold size. destruct n; [congruence|]. simpl in *. lia.
      * split; [exact H2|]. intros k Hk.
        specialize (H3 (Z.to_nat k - Z.to_nat from)%nat).
        rewrite skipn_skipn_add in H3.
        replace (Z.to_nat from + (Z.to_nat k - Z.to_nat from))%nat
          with (Z.to_nat k) in H3 by lia.
        apply H3. lia.
Qed.

End QtFacts.

(** ** Facts about the scan *)

Module ScanFacts.

Import QtFacts.

Lemma skipSpaces_go_fst (s : QString) (pos : Z) (rd : list Z) :
  fst (skipSpaces_go s pos rd) = fst (skipSpaces_go s pos []).
Proof.
  revert pos rd. induction s as [|c s IH]; intros pos rd; simpl.
  - reflexivity.
  - destruct (isSpace c); [|reflexivity].
    rewrite IH. symmetry. apply IH.
Qed.

Lemma skipSpaces_go_bounds (s : QString) (pos : Z) (rd : list Z) :
  pos <= fst (skipSpaces_go s pos rd) <= pos + size s.
Proof.
  revert pos rd. induction s as [|c s IH]; intros pos rd; simpl.
  - unfold size; simpl. lia.
  - destruct (isSpace c); simpl.
    + specialize (IH (pos + 1) (rd ++ [pos])). unfold size in *. simpl length. lia.
    + unfold size. simpl length. lia.
Qed.

Lemma leftBracket_bounds (text : QString) (m : Z) :
  0 <= m -> m + 7 <= size text ->
  m + 7 <= leftBracket text m <= size text.
Proof.
  intros H0 H7. unfold leftBracket, skipSpaces.
  pose proof (skipSpaces_go_bounds (skipn (Z.to_nat (m + 7)) text) (m + 7) []) as B.
  unfold size in *. rewrite length_skipn in B. lia.
Qed.

(** One iteration of the loop, in terms of [nameAt]. *)
Lemma scan_unfold (fuel : nat) (text : QString) (cursor : Z) (rd : list Z) :
  scan (S fuel) text cursor rd =
  let m := indexOf text needle cursor CaseInsensitive in
  if m <? 0 then Some {| found := None; reads := rd |}
  else
    let rd' := snd (skipSpaces text (m + 7) rd) ++ [leftBracket text m] in
    match nameAt text m with
    | Some n => Some {| found := Some n; reads := rd' |}
    | None => scan fuel text (m + 7) rd'
    end.
Proof.
  cbn [scan]. fold needle. cbv zeta.
  destruct (indexOf text needle cursor CaseInsensitive <? 0); [reflexivity|].
  set (m := indexOf text needle cursor CaseInsensitive).
  unfold nameAt, leftBracket, skipSpaces.
  rewrite <- (skipSpaces_go_fst _ _ rd).
  destruct (skipSpaces_go (skipn (Z.to_nat (m + 7)) text) (m + 7) rd)
    as [lb rd1]. cbn [fst snd].
  destruct (N.eqb (at_ text lb) lparen); [|reflexivity].
  destruct (0 <=? indexOfChar text rparen (lb + 1)); reflexivity.
Qed.

Lemma needle_not_nil : needle <> [].
Proof. discriminate. Qed.

Lemma occursAt_fits (text : QString) (m : Z) :
  occursAt text m = true -> 0 <= m /\ m + 7 <= size text.
Proof.
  unfold occursAt. intros H. apply andb_prop in H as [H0 H].
  apply Z.leb_le in H0. apply startsWith_length in H.
  rewrite length_skipn in H. unfold size.
  change (length needle) with 7%nat in H. lia.
Qed.

(** The letters of the token are all different from its first: no two
    occurrences overlap. *)
Lemma occursAt_apart (text : QString) (m k : Z) :
  occursAt text m = true -> m < k < m + 7 -> occursAt text k = false.
Proof.
  intros H Hk. pose proof (occursAt_fits _ _ H) as [H0 _].
  unfold occursAt in *. apply andb_prop in H as [_ H].
  replace (skipn (Z.to_nat k) text)
    with (skipn (Z.to_nat (k - m)) (skipn (Z.to_nat m) text))
    by (rewrite skipn_skipn_add; f_equal; lia).
  change needle with [112; 114; 111; 106; 101; 99; 116]%N in *.
  destruct (skipn (Z.to_nat m) text)
    as [|c0 [|c1 [|c2 [|c3 [|c4 [|c5 [|c6 rest]]]]]]];
    cbn [startsWith sameChar] in H;
    repeat match type of H with
           | (_ && _)%bool = true => apply andb_prop in H as [? H]
           end;
    try discriminate H.
  repeat match goal with
         | E : N.eqb (foldCase ?a) (foldCase _) = true |- _ =>
             apply N.eqb_eq in E;
             let v := eval vm_compute in (foldCase a) in
             change (foldCase a) with v in E
         end.
  replace (0 <=? k) with true by (symmetry; apply Z.leb_le; lia).
  assert (C : Z.to_nat (k - m) = 1%nat \/ Z.to_nat (k - m) = 2%nat \/
              Z.to_nat (k - m) = 3%nat \/ Z.to_nat (k - m) = 4%nat \/
              Z.to_nat (k - m) = 5%nat \/ Z.to_nat (k - m) = 6%nat) by lia.
  destruct C as [C|[C|[C|[C|[C|C]]]]]; rewrite C;
    cbn [skipn startsWith sameChar andb];
    repeat match goal with
           | E : _ = foldCase _ |- _ => rewrite <- ?E; clear E
           end;
    reflexivity.
Qed.

(** The fuel [scanText] gives is enough: the loop ends by itself. *)
Lemma scan_ends (text : QString) (fuel : nat) (cursor : Z) (rd : list Z) :
  0 <= cursor <= size text -> size text - cursor < Z.of_nat fuel ->
  scan fuel text cursor rd <> None.
Proof.
  revert cursor rd. induction fuel as [|fuel IH]; intros cursor rd Hc Hf.
  - lia.
  - rewrite scan_unfold. cbv zeta.
    destruct (indexOf_spec text needle cursor CaseInsensitive needle_not_nil)
      as [[E _] | [r [E [Hr [Hfit _]]]]]; [lia | | ]; rewrite E.
    + discriminate.
    + change (Z.of_nat (length needle)) with 7 in Hfit.
      destruct (r <? 0) eqn:Er; [discriminate|].
      destruct (nameAt text r); [discriminate|].
      apply IH; lia.
Qed.

(** The loop returns the name of the first token that yields one. *)
Lemma scan_first (text : QString) (k : Z) (n : QString) :
  occursAt text k = true -> nameAt text k = Some n ->
  forall (fuel : nat) (cursor : Z) (rd : list Z),
  0 <= cursor <= k -> k - cursor < Z.of_nat fuel ->
  (forall m, cursor <= m < k -> occursAt text m = true -> nameAt text m = None) ->
  exists rd', scan fuel text cursor rd = Some {| found := Some n; reads := rd' |}.
Proof.
  intros Hk Hn. pose proof (occursAt_fits _ _ Hk) as [Hk0 Hk7].
  induction fuel as [|fuel IH]; intros cursor rd Hc Hf Hbefore.
  - lia.
  - rewrite scan_unfold. cbv zeta.
    destruct (indexOf_spec text needle cursor CaseInsensitive needle_not_nil)
      as [[E Hno] | [r [E [Hr [Hfit [Hocc Hmin]]]]]]; [lia | | ].
    + exfalso. specialize (Hno k (proj2 Hc)).
      unfold occursAt in Hk. apply andb_prop in Hk as [_ Hk]. congruence.
    + rewrite E.
      destruct (r <? 0) eqn:Er; [apply Z.ltb_lt in Er; lia|].
      assert (Hrk : r <= k).
      { destruct (Z_le_gt_dec r k) as [|G]; [assumption|]. exfalso.
        assert (Hx : cursor <= k < r) by lia. specialize (Hmin k Hx).
        unfold occursAt in Hk. apply andb_prop in Hk as [_ Hk]. congruence. }
      assert (Hor : occursAt text r = true).
      { unfold occursAt. rewrite Hocc.
        replace (0 <=? r) with true by (symmetry; apply Z.leb_le; lia).
        reflexivity. }
      destruct (Z.eq_dec r k) as [->|Hne].
      * rewrite Hn. eexists. reflexivity.
      * rewrite (Hbefore r) by (assumption || lia).
        assert (r + 7 <= k).
        { destruct (Z_le_gt_dec (r + 7) k) as [|G]; [assumption|]. exfalso.
          rewrite (occursAt_apart text r k Hor) in Hk by lia. discriminate. }
        apply IH; [lia | lia |].
        intros m Hm. apply Hbefore. lia.
Qed.

(** The loop leaves without a name when no token yields one. *)
Lemma scan_none (text : QString) :
  forall (fuel : nat) (cursor : Z) (rd : list Z),
  0 <= cursor <= size text -> size text - cursor < Z.of_nat fuel ->
  (forall m, cursor <= m -> occursAt text m = true -> nameAt text m = None) ->
  exists rd', scan fuel text cursor rd = Some {| found := None; reads := rd' |}.
Proof.
  induction fuel as [|fuel IH]; intros cursor rd Hc Hf Hall.
  - lia.
  - rewrite scan_unfold. cbv zeta.
    destruct (indexOf_spec text needle cursor CaseInsensitive needle_not_nil)
      as [[E _] | [r [E [Hr [Hfit [Hocc _]]]]]]; [lia | | ]; rewrite E.
    + eexists. reflexivity.
    + change (Z.of_nat (length needle)) with 7 in Hfit.
      destruct (r <? 0) eqn:Er; [eexists; reflexivity|].
      rewrite (Hall r); [| lia |].
      * apply IH; [lia | lia |]. intros m Hm. apply Hall. lia.
      * unfold occursAt. rewrite Hocc.
        replace (0 <=? r) with true by (symmetry; apply Z.leb_le; lia).
        reflexivity.
Qed.

End ScanFacts.

(** ** The name guesser on a readable file *)

Module GuessFacts.

Import QtFacts ScanFacts.

Lemma scanText_ends (text : QString) : scanText text <> None.
Proof.
  unfold scanText. apply scan_ends.
  - pose proof (size_nonneg text). lia.
  - unfold size. lia.
Qed.

Lemma scanText_first (text : QString) (k : Z) (n : QString) :
  occursAt text k = true -> nameAt text k = Some n ->
  (forall m, 0 <= m < k -> occursAt text m = true -> nameAt text m = None) ->
  exists rd, scanText text = Some {| found := Some n; reads := rd |}.
Proof.
  intros Hk Hn Hb. pose proof (occursAt_fits _ _ Hk) as [H0 H7].
  unfold scanText. apply (scan_first text k n Hk Hn); [lia | | exact Hb].
  unfold size in H7. lia.
Qed.

Lemma scanText_none (text : QString) :
  (forall m, 0 <= m -> occursAt text m = true -> nameAt text m = None) ->
  exists rd, scanText text = Some {| found := None; reads := rd |}.
Proof.
  intros H. unfold scanText. apply scan_none.
  - pose proof (size_nonneg text). lia.
  - unfold size. lia.
  - exact H.
Qed.

Section WithPlatform.

Variable pf : Platform.

(** The function on a file that opens: the name the scan found, the
    folder name when it found none. *)
Lemma TryGuessProjectName_readable (d : Dialog) (w : World) (text : QString) :
  isEmpty (existingCMakeFilePath d) = false ->
  configText pf d w = Some text ->
  fst (TryGuessProjectName pf d w) =
  match scanText text with
  | Some {| found := Some n |} => n
  | _ => folderName pf d
  end.
Proof.
  intros Hp Ht. unfold TryGuessProjectName, configText in *. rewrite Hp.
  unfold bind, QFile_open_read, getFs. cbn -[scanText absolutePath].
  rewrite Ht. cbn -[scanText absolutePath].
  destruct (scanText text) as [[[n|] rd]|]; reflexivity.
Qed.

Lemma TryGuessProjectName_found (d : Dialog) (w : World) (text : QString)
  (k : Z) (n : QString) :
  isEmpty (existingCMakeFilePath d) = false ->
  configText pf d w = Some text ->
  occursAt text k = true -> nameAt text k = Some n ->
  (forall m, 0 <= m < k -> occursAt text m = true -> nameAt text m = None) ->
  fst (TryGuessProjectName pf d w) = n.
Proof.
  intros Hp Ht Hk Hn Hb.
  rewrite (TryGuessProjectName_readable d w text Hp Ht).
  destruct (scanText_first text k n Hk Hn Hb) as [rd ->]. reflexivity.
Qed.

Lemma TryGuessProjectName_fallback (d : Dialog) (w : World) (text : QString) :
  isEmpty (existingCMakeFilePath d) = false ->
  configText pf d w = Some text ->
  (forall m, 0 <= m -> occursAt text m = true -> nameAt text m = None) ->
  fst (TryGuessProjectName pf d w) = folderName pf d.
Proof.
  intros Hp Ht Hall.
  rewrite (TryGuessProjectName_readable d w text Hp Ht).
  destruct (scanText_none text Hall) as [rd ->]. reflexivity.
Qed.

End WithPlatform.

(** *** Positions in a text given in pieces *)

Lemma skipn_at (text a b : QString) (i : Z) :
  text = a ++ b -> i = size a -> skipn (Z.to_nat i) text = b.
Proof.
  intros -> ->. unfold size. rewrite Nat2Z.id.
  rewrite skipn_app, skipn_all, Nat.sub_diag. reflexivity.
Qed.

Lemma at_skipn (text : QString) (i : Z) :
  0 <= i -> at_ text i = hd 0%N (skipn (Z.to_nat i) text).
Proof.
  intros Hi. unfold at_.
  replace (0 <=? i) with true by (symmetry; apply Z.leb_le; lia). cbn [andb].
  destruct (i <? size text) eqn:E.
  - apply Z.ltb_lt in E. unfold size in E.
    assert (Hn : (Z.to_nat i < length text)%nat) by lia.
    clear E Hi. revert Hn. generalize (Z.to_nat i) as n.
    induction text as [|c t IH]; intros [|n] Hn; simpl in *;
      try lia; try reflexivity.
    apply IH. lia.
  - apply Z.ltb_ge in E. unfold size in E.
    rewrite skipn_all2 by lia. reflexivity.
Qed.

Lemma mid_inside (s : QString) (p n : Z) :
  0 <= p -> 0 <= n -> p + n <= size s ->
  mid s p n = firstn (Z.to_nat n) (skipn (Z.to_nat p) s).
Proof.
  intros Hp Hn Hs. unfold mid.
  destruct (size s <? p) eqn:E1; [apply Z.ltb_lt in E1; lia|].
  destruct (p <? 0) eqn:E2; [apply Z.ltb_lt in E2; lia|].
  rewrite Z.max_l by lia.
  destruct (n <? 0) eqn:E3; [apply Z.ltb_lt in E3; lia|].
  destruct (size s - p <? n) eqn:E4; [apply Z.ltb_lt in E4; lia|].
  reflexivity.
Qed.

Lemma startsWith_app cs (n a b : QString) :
  startsWith cs n a = true -> startsWith cs n (a ++ b) = true.
Proof.
  revert a. induction n as [|x n IH]; intros [|c a] H; simpl in *;
    try reflexivity; try discriminate.
  apply andb_prop in H as [H1 H2]. rewrite H1, (IH _ H2). reflexivity.
Qed.

(** [indexOfChar] answers a position of the unit it looks for. *)
Lemma indexOfChar_hit (s : QString) (c : QChar) (from : Z) :
  0 <= from -> 0 <= indexOfChar s c from ->
  from <= indexOfChar s c from /\ at_ s (indexOfChar s c from) = c.
Proof.
  intros Hf Hr. unfold indexOfChar in *.
  destruct (indexOf_spec s [c] from CaseSensitive ltac:(discriminate) Hf)
    as [[E _] | [r [E [Hfr [_ [Hocc _]]]]]].
  - lia.
  - rewrite E. split; [exact Hfr|]. rewrite at_skipn by lia.
    destruct (skipn (Z.to_nat r) s) as [|x t]; [discriminate|].
    cbn in Hocc. apply andb_prop in Hocc as [Hx _].
    apply N.eqb_eq in Hx. cbn. congruence.
Qed.

End GuessFacts.

(** ** Texts that agree up to a position *)

Module PrefixFacts.

Import QtFacts ScanFacts GuessFacts.

Section Agree.

Variables (a b : QString) (n : nat).
Hypothesis agree : firstn n a = firstn n b.

Lemma agree_skipn (i m : nat) :
  (i + m <= n)%nat -> firstn m (skipn i a) = firstn m (skipn i b).
Proof.
  intros H. rewrite !firstn_skipn_comm.
  replace (firstn (i + m) a) with (firstn (i + m) (firstn n a))
    by (rewrite firstn_firstn; f_equal; lia).
  replace (firstn (i + m) b) with (firstn (i + m) (firstn n b))
    by (rewrite firstn_firstn; f_equal; lia).
  now rewrite agree.
Qed.

Lemma startsWith_firstn cs (x s : QString) :
  startsWith cs x s = startsWith cs x (firstn (length x) s).
Proof.
  revert s. induction x as [|c x IH]; intros [|d s]; cbn; try reflexivity.
  now rewrite <- IH.
Qed.

Lemma agree_startsWith cs (x : QString) (i : nat) :
  (i + length x <= n)%nat ->
  startsWith cs x (skipn i a) = startsWith cs x (skipn i b).
Proof.
  intros H. rewrite (startsWith_firstn cs x (skipn i a)).
  rewrite (startsWith_firstn cs x (skipn i b)).
  now rewrite (agree_skipn i (length x) H).
Qed.

Lemma agree_occursAt (m : Z) :
  m + 7 <= Z.of_nat n -> occursAt a m = occursAt b m.
Proof.
  intros H. unfold occursAt. destruct (0 <=? m) eqn:E; [|reflexivity].
  apply Z.leb_le in E. cbn [andb]. apply agree_startsWith.
  change (length needle) with 7%nat. lia.
Qed.

Lemma agree_at (i : Z) :
  0 <= i < Z.of_nat n -> at_ a i = at_ b i.
Proof.
  intros H. rewrite !at_skipn by lia.
  assert (E : firstn 1 (skipn (Z.to_nat i) a) = firstn 1 (skipn (Z.to_nat i) b))
    by (apply agree_skipn; lia).
  destruct (skipn (Z.to_nat i) a), (skipn (Z.to_nat i) b); cbn in *;
    congruence.
Qed.

Lemma agree_size (i : Z) :
  0 <= i <= Z.of_nat n -> i <= size a -> i <= size b.
Proof.
  intros Hi Ha. unfold size in *.
  assert (E : length (firstn n a) = length (firstn n b)) by now rewrite agree.
  rewrite !length_firstn in E. lia.
Qed.

Lemma agree_mid (p len : Z) :
  0 <= p -> 0 <= len -> p + len <= Z.of_nat n -> p + len <= size a ->
  mid a p len = mid b p len.
Proof.
  intros Hp Hl Hn Ha.
  rewrite (mid_inside a) by assumption.
  rewrite (mid_inside b) by (try assumption; apply agree_size; lia).
  apply agree_skipn. lia.
Qed.

End Agree.

Lemma agree_sym (a b : QString) (n : nat) :
  firstn n a = firstn n b -> firstn n b = firstn n a.
Proof. intros H. now symmetry. Qed.

(** The inner loop stops at the first unit that is no white space. *)
Lemma skipSpaces_go_stop (s : QString) (pos : Z) (j : nat) (c : QChar) :
  nth_error s j = Some c -> isSpace c = false ->
  fst (skipSpaces_go s pos []) <= pos + Z.of_nat j.
Proof.
  revert pos j. induction s as [|x s IH]; intros pos j Hj Hc.
  - destruct j; discriminate.
  - cbn [skipSpaces_go]. destruct j as [|j].
    + cbn in Hj. injection Hj as ->. rewrite Hc. cbn. lia.
    + destruct (isSpace x); [|cbn; lia].
      rewrite skipSpaces_go_fst. cbn [nth_error] in Hj.
      specialize (IH (pos + 1) j Hj Hc). lia.
Qed.

(** Where it stops depends only on the text up to that position. *)
Lemma skipSpaces_go_agree (s s' : QString) (pos : Z) (j : nat) :
  firstn j s = firstn j s' ->
  fst (skipSpaces_go s pos []) < pos + Z.of_nat j ->
  fst (skipSpaces_go s' pos []) = fst (skipSpaces_go s pos []).
Proof.
  revert s' pos j. induction s as [|x s IH]; intros s' pos j E H.
  - cbn in H. destruct j as [|j]; [lia|].
    destruct s'; [reflexivity | discriminate].
  - destruct j as [|j].
    + pose proof (skipSpaces_go_bounds (x :: s) pos []). lia.
    + destruct s' as [|y s']; [discriminate|].
      cbn [firstn] in E. injection E as -> E.
      cbn [skipSpaces_go] in *. destruct (isSpace y); [|reflexivity].
      rewrite (skipSpaces_go_fst s' (pos + 1)).
      rewrite (skipSpaces_go_fst s (pos + 1)) in *.
      apply (IH s' (pos + 1) j E). lia.
Qed.

Lemma leftBracket_agree (a b : QString) (n : nat) (m : Z) :
  firstn n a = firstn n b -> 0 <= m ->
  leftBracket a m < Z.of_nat n ->
  leftBracket b m = leftBracket a m.
Proof.
  intros E Hm H. unfold leftBracket, skipSpaces in *.
  pose proof (skipSpaces_go_bounds (skipn (Z.to_nat (m + 7)) a) (m + 7) []).
  apply (skipSpaces_go_agree _ _ (m + 7) (n - Z.to_nat (m + 7))); [|lia].
  apply agree_skipn with (n := n); [exact E | lia].
Qed.

(** The first letter of the token is no white space. *)
Lemma occursAt_not_space (text : QString) (k : Z) :
  occursAt text k = true ->
  exists c, nth_error text (Z.to_nat k) = Some c /\ isSpace c = false.
Proof.
  intros H. unfold occursAt in H. apply andb_prop in H as [_ H].
  assert (Hn : forall i, nth_error (skipn i text) 0 = nth_error text i).
  { intros i. rewrite nth_error_skipn. f_equal. lia. }
  rewrite <- Hn.
  destruct (skipn (Z.to_nat k) text) as [|c rest]; [discriminate|].
  exists c. split; [reflexivity|].
  change needle with [112; 114; 111; 106; 101; 99; 116]%N in H.
  cbn [startsWith sameChar] in H. apply andb_prop in H as [H _].
  apply N.eqb_eq in H. change (foldCase 112%N) with 112%N in H.
  unfold foldCase in H. revert H.
  destruct (N.leb 65 c && N.leb c 90)%bool eqn:E1.
  - intros H. assert (c = 80%N) by lia. subst c. reflexivity.
  - destruct (N.eqb c 8490); [discriminate|].
    destruct (N.eqb c 383); [discriminate|]. intros <-. reflexivity.
Qed.

(** There is no such unit from [from] on when [indexOfChar] answers no. *)
Lemma indexOfChar_miss (s : QString) (c : QChar) (from i : Z) :
  0 <= from -> indexOfChar s c from < 0 -> c <> 0%N ->
  from <= i -> at_ s i <> c.
Proof.
  intros Hf Hr Hc Hi Hat. unfold indexOfChar in Hr.
  destruct (indexOf_spec s [c] from CaseSensitive ltac:(discriminate) Hf)
    as [[_ Hno] | [r [E [Hfr _]]]]; [|lia].
  specialize (Hno i Hi). rewrite at_skipn in Hat by lia.
  destruct (skipn (Z.to_nat i) s) as [|x t]; cbn in *; [congruence|].
  subst x. rewrite N.eqb_refl in Hno. discriminate.
Qed.

(** The closing bracket [indexOfChar] finds is the same on a text that
    agrees up to and including it. *)
Lemma indexOfChar_agree (a b : QString) (n : nat) (c : QChar) (from : Z) :
  firstn n a = firstn n b -> c <> 0%N -> 0 <= from ->
  0 <= indexOfChar a c from < Z.of_nat n ->
  indexOfChar b c from = indexOfChar a c from.
Proof.
  intros E Hc Hf Hr.
  destruct (indexOfChar_hit a c from Hf (proj1 Hr)) as [Hge Hat].
  unfold indexOfChar in *.
  destruct (indexOf_spec a [c] from CaseSensitive ltac:(discriminate) Hf)
    as [[Ea _] | [ra [Ea [_ [_ [Hoa Hmina]]]]]]; [lia|].
  destruct (indexOf_spec b [c] from CaseSensitive ltac:(discriminate) Hf)
    as [[Eb Hnob] | [rb [Eb [Hfb [_ [Hob Hminb]]]]]].
  - exfalso. specialize (Hnob ra ltac:(lia)).
    rewrite <- (agree_startsWith a b n E CaseSensitive [c] (Z.to_nat ra)) in Hnob
      by (cbn; lia).
    congruence.
  - rewrite Ea, Eb. destruct (Z.lt_trichotomy rb ra) as [L | [L | L]].
    + exfalso. specialize (Hmina rb ltac:(lia)).
      rewrite (agree_startsWith a b n E CaseSensitive [c] (Z.to_nat rb)) in Hmina
        by (cbn; lia).
      congruence.
    + exact L.
    + exfalso. specialize (Hminb ra ltac:(lia)).
      rewrite <- (agree_startsWith a b n E CaseSensitive [c] (Z.to_nat ra)) in Hminb
        by (cbn; lia).
      congruence.
Qed.

Lemma at_inside (s : QString) (i : Z) (c : QChar) :
  at_ s i = c -> c <> 0%N -> 0 <= i < size s.
Proof.
  unfold at_. intros H Hc.
  destruct ((0 <=? i) && (i <? size s))%bool eqn:E; [|congruence].
  apply andb_prop in E as [E1 E2]. apply Z.leb_le in E1. apply Z.ltb_lt in E2.
  lia.
Qed.

(** What [nameAt] says when it answers a name. *)
Lemma nameAt_Some (text : QString) (k : Z) (name : QString) :
  nameAt text k = Some name ->
  let lb := leftBracket text k in
  let closing := indexOfChar text rparen (lb + 1) in
  at_ text lb = lparen /\ 0 <= closing /\
  name = parseArguments (trimmed (mid text (lb + 1) (closing - lb - 1)))
           0 false [].
Proof.
  unfold nameAt. cbv zeta.
  destruct (N.eqb (at_ text (leftBracket text k)) lparen) eqn:E1;
    [|discriminate].
  destruct (0 <=? indexOfChar text rparen (leftBracket text k + 1)) eqn:E2;
    [|discriminate].
  intros H. injection H as <-. apply N.eqb_eq in E1. apply Z.leb_le in E2.
  repeat split; assumption.
Qed.

(** The first token that yields a name, and the name, are the same on
    every text that agrees up to the closing bracket of that token. *)
Lemma first_name_agree (text text' : QString) (k : Z) (name : QString) :
  occursAt text k = true -> nameAt text k = Some name ->
  (forall m, 0 <= m < k -> occursAt text m = true -> nameAt text m = None) ->
  let closing := indexOfChar text rparen (leftBracket text k + 1) in
  firstn (Z.to_nat (closing + 1)) text' = firstn (Z.to_nat (closing + 1)) text ->
  occursAt text' k = true /\ nameAt text' k = Some name /\
  (forall m, 0 <= m < k -> occursAt text' m = true -> nameAt text' m = None).
Proof.
  intros Hk Hn Hb closing E.
  pose proof (occursAt_fits _ _ Hk) as [Hk0 Hk7].
  pose proof (leftBracket_bounds text k Hk0 Hk7) as Hlb.
  destruct (nameAt_Some text k name Hn) as (Hlp & Hc0 & Hname).
  fold closing in Hc0, Hname.
  assert (Hpos : 0 <= leftBracket text k + 1) by lia.
  destruct (indexOfChar_hit text rparen (leftBracket text k + 1) Hpos Hc0)
    as [Hcl Hrp]. fold closing in Hcl, Hrp.
  assert (Hin : 0 <= closing < size text)
    by (apply (at_inside _ _ _ Hrp); discriminate).
  set (n := Z.to_nat (closing + 1)) in *.
  assert (Hn' : Z.of_nat n = closing + 1) by (unfold n; lia).
  assert (Hlb' : leftBracket text' k = leftBracket text k)
    by (apply (leftBracket_agree text text' n); [now symmetry | lia | lia]).
  assert (Hcl' : indexOfChar text' rparen (leftBracket text k + 1) = closing).
  { apply (indexOfChar_agree text text' n); [now symmetry | discriminate | lia |].
    fold closing. lia. }
  split; [|split].
  - rewrite (agree_occursAt text' text n E) by lia. exact Hk.
  - unfold nameAt. cbv zeta. rewrite Hlb'.
    rewrite (agree_at text' text n E) by lia. rewrite Hlp.
    change (N.eqb lparen lparen) with true. cbv iota. rewrite Hcl'.
    replace (0 <=? closing) with true by (symmetry; apply Z.leb_le; lia).
    rewrite Hname. do 3 f_equal.
    symmetry. apply (agree_mid text text' n); [now symmetry | lia | lia | lia | lia].
  - intros m Hm Hocc'.
    assert (Hocc : occursAt text m = true).
    { rewrite <- (agree_occursAt text' text n E) by lia. exact Hocc'. }
    pose proof (Hb m Hm Hocc) as Hnone.
    pose proof (occursAt_fits _ _ Hocc) as [Hm0 Hm7].
    assert (Hapart : m + 7 <= k).
    { destruct (Z_le_gt_dec (m + 7) k) as [|G]; [assumption|]. exfalso.
      rewrite (occursAt_apart text m k Hocc) in Hk by lia. discriminate. }
    assert (Hstop : leftBracket text m <= k).
    { destruct (occursAt_not_space text k Hk) as (c & Hc & Hsp).
      unfold leftBracket, skipSpaces.
      pose proof (skipSpaces_go_stop (skipn (Z.to_nat (m + 7)) text) (m + 7)
                    (Z.to_nat k - Z.to_nat (m + 7)) c) as Hs.
      rewrite nth_error_skipn in Hs.
      replace (Z.to_nat (m + 7) + (Z.to_nat k - Z.to_nat (m + 7)))%nat
        with (Z.to_nat k) in Hs by lia.
      specialize (Hs Hc Hsp). lia. }
    pose proof (leftBracket_bounds text m Hm0 Hm7) as Hlbm.
    assert (Hlbm' : leftBracket text' m = leftBracket text m)
      by (apply (leftBracket_agree text text' n); [now symmetry | lia | lia]).
    unfold nameAt in *. cbv zeta in *. rewrite Hlbm'.
    rewrite (agree_at text' text n E) by lia.
    destruct (N.eqb (at_ text (leftBracket text m)) lparen); [|reflexivity].
    exfalso.
    destruct (0 <=? indexOfChar text rparen (leftBracket text m + 1)) eqn:E2;
      [discriminate|].
    apply Z.leb_gt in E2.
    apply (indexOfChar_miss text rparen (leftBracket text m + 1) closing);
      [lia | exact E2 | discriminate | lia | exact Hrp].
Qed.

End PrefixFacts.

(** ** The positions the scan reads *)

Module ReadsFacts.

Import QtFacts ScanFacts GuessFacts.

Lemma skipSpaces_go_snd (s : QString) (pos : Z) (rd : list Z) :
  snd (skipSpaces_go s pos rd) = rd ++ snd (skipSpaces_go s pos []).
Proof.
  revert pos rd. induction s as [|c s IH]; intros pos rd; cbn [skipSpaces_go].
  - cbn. now rewrite app_nil_r.
  - destruct (isSpace c); [|reflexivity].
    rewrite (IH (pos + 1) (rd ++ [pos])), (IH (pos + 1) ([] ++ [pos])).
    now rewrite <- app_assoc.
Qed.

(** The loop only adds to the list of positions read. *)
Lemma scan_reads_grow (text : QString) (fuel : nat) (cursor : Z)
  (rd : list Z) (s : Scan) :
  scan fuel text cursor rd = Some s -> exists more, reads s = rd ++ more.
Proof.
  revert cursor rd. induction fuel as [|fuel IH]; intros cursor rd H.
  - discriminate.
  - rewrite scan_unfold in H. cbv zeta in H.
    destruct (indexOf text needle cursor CaseInsensitive <? 0).
    + injection H as <-. exists []. cbn. now rewrite app_nil_r.
    + unfold skipSpaces in H. rewrite skipSpaces_go_snd in H.
      rewrite <- app_assoc in H.
      destruct (nameAt text _).
      * injection H as <-. eexists. reflexivity.
      * apply IH in H as [more ->]. rewrite <- app_assoc. eexists. reflexivity.
Qed.

(** Over white space to the end of the text, the inner loop stops at the
    size of the text. *)
Lemma skipSpaces_go_all (ws : QString) (pos : Z) :
  forallb isSpace ws = true ->
  fst (skipSpaces_go ws pos []) = pos + size ws.
Proof.
  revert pos. induction ws as [|c ws IH]; intros pos H.
  - cbn. unfold size. cbn. lia.
  - cbn [forallb] in H. apply andb_prop in H as [Hc H].
    cbn [skipSpaces_go]. rewrite Hc, skipSpaces_go_fst, (IH _ H).
    unfold size. cbn [length]. lia.
Qed.

Lemma at_end (s : QString) : at_ s (size s) = 0%N.
Proof.
  unfold at_. rewrite Z.ltb_irrefl, andb_false_r. reflexivity.
Qed.

End ReadsFacts.

(** ** The loop over the arguments *)

Module ArgumentFacts.

(** Past the first position, units that are neither white space nor a
    quote are added to the name. *)
Lemma parseArguments_run (a rest : QString) (i : Z) (haveString : bool)
  (acc : QString) :
  0 < i ->
  forallb (fun x => negb (isSpace x) && negb (N.eqb x dquote)) a = true ->
  parseArguments (a ++ rest) i haveString acc =
  parseArguments rest (i + size a) haveString (acc ++ a).
Proof.
  revert i acc. induction a as [|x a IH]; intros i acc Hi H.
  - cbn. unfold size. cbn. now rewrite Z.add_0_r, app_nil_r.
  - cbn [forallb] in H. apply andb_prop in H as [Hx H].
    apply andb_prop in Hx as [Hs Hq].
    apply negb_true_iff in Hs. apply negb_true_iff in Hq.
    cbn [app parseArguments].
    replace (i =? 0) with false by (symmetry; apply Z.eqb_neq; lia).
    rewrite Hq, Hs. cbn [andb]. rewrite andb_false_r.
    rewrite IH by (assumption || lia).
    unfold size. cbn [length]. rewrite <- app_assoc. cbn [app].
    replace (i + 1 + Z.of_nat (length a)) with (i + Z.of_nat (S (length a)))
      by lia.
    reflexivity.
Qed.

(** Inside quotes too, the first white space ends the name: of an
    argument string that opens with a quote the loop returns what stands
    between the quote and the first white space. *)
Lemma parseArguments_quoted_space (a rest : QString) (c : QChar) :
  forallb (fun x => negb (isSpace x) && negb (N.eqb x dquote)) a = true ->
  isSpace c = true ->
  parseArguments (dquote :: a ++ c :: rest) 0 false [] = a.
Proof.
  intros Ha Hc. cbn [parseArguments]. cbn [Z.eqb N.eqb dquote Pos.eqb andb].
  rewrite parseArguments_run by (assumption || lia).
  cbn [parseArguments app].
  replace (0 + 1 + size a =? 0) with false
    by (symmetry; apply Z.eqb_neq; pose proof (QtFacts.size_nonneg a); lia).
  cbn [andb].
  destruct (N.eqb c dquote); [reflexivity|]. cbn [andb]. rewrite Hc. reflexivity.
Qed.

End ArgumentFacts.

(** ** The claims about the name guesser *)

Import QtFacts ScanFacts GuessFacts ArgumentFacts.

Lemma occursAt_nil (m : Z) : occursAt [] m = false.
Proof.
  unfold occursAt. rewrite skipn_nil. cbn. apply andb_false_r.
Qed.

(** A token that opens no closed declaration yields no name. *)
Lemma noneClosed_nameAt (text : QString) :
  noneClosed text = true ->
  forall m, 0 <= m -> occursAt text m = true -> nameAt text m = None.
Proof.
  intros H m Hm Hocc. unfold noneClosed in H. rewrite forallb_forall in H.
  destruct (occursAt_fits text m Hocc) as [_ Hfit].
  assert (Hin : In (Z.to_nat m) (seq 0 (length text))).
  { apply in_seq. unfold size in Hfit. lia. }
  specialize (H _ Hin). rewrite Z2Nat.id in H by exact Hm.
  unfold closedAt in H. rewrite Hocc in H. cbn [andb] in H.
  unfold nameAt. cbv zeta.
  destruct (N.eqb (at_ text (leftBracket text m)) lparen); [|reflexivity].
  destruct (0 <=? indexOfChar text rparen (leftBracket text m + 1));
    [discriminate | reflexivity].
Qed.

(** C7, as amended.  The guesser answers the name of the folder of the
    configuration file, and no part of a name, whenever the text of the
    file is empty and whenever none of the declarations it holds is closed:
    no token [project] that is followed, after white space or at once, by
    an open bracket has a closing bracket anywhere after that bracket.
    The texts [project(B] and [project x) project(B] are of this kind;
    [project(A) project(B] is not, and yields [A]. *)
Theorem C7_fallback_when_no_declaration_is_closed
  (pf : Platform) (d : Dialog) (w : World) (text : QString) :
  isEmpty (existingCMakeFilePath d) = false ->
  configText pf d w = Some text ->
  (text = [] \/ noneClosed text = true) ->
  fst (TryGuessProjectName pf d w) =
  dirName (QFileInfo_dir pf (existingCMakeFilePath d)).
Proof.
  intros Hp Ht Hcase.
  apply (TryGuessProjectName_fallback pf d w text Hp Ht).
  destruct Hcase as [-> | Hnone].
  - intros m _ Hocc. rewrite occursAt_nil in Hocc. discriminate.
  - exact (noneClosed_nameAt text Hnone).
Qed.

(** The theorem at a file that is empty, at a file that holds [project(B],
    also after a line with a closing bracket and a line with the token,
    and at [project x) project(B]; the folder is [proj]. *)
Lemma C7_fallback_witness :
  fst (TryGuessProjectName Unix opening (diskWith [])) = QS "proj" /\
  fst (TryGuessProjectName Unix opening
         (diskWith (line "if()" ++ line "# project x" ++ QS "project(B")))
  = QS "proj" /\
  fst (TryGuessProjectName Unix opening
         (diskWith (QS "project x) project(B")))
  = QS "proj".
Proof.
  split; [|split].
  - apply (C7_fallback_when_no_declaration_is_closed Unix opening
             (diskWith []) []);
      [reflexivity | reflexivity | left; reflexivity].
  - apply (C7_fallback_when_no_declaration_is_closed Unix opening
             (diskWith (line "if()" ++ line "# project x" ++ QS "project(B"))
             (line "if()" ++ line "# project x" ++ QS "project(B"));
      [reflexivity | reflexivity | right; reflexivity].
  - apply (C7_fallback_when_no_declaration_is_closed Unix opening
             (diskWith (QS "project x) project(B"))
             (QS "project x) project(B"));
      [reflexivity | reflexivity | right; reflexivity].
Defined.

(** C7 as stated fails: the text [project(A) project(B] holds [project(]
    with no closing bracket anywhere after it, and the guesser answers
    [A], the name of the declaration before it, not the folder [proj]. *)
Lemma C7_counterexample :
  QS "project(A) project(B" = QS "project(A) " ++ QS "project(" ++ QS "B" /\
  existsb (N.eqb rparen) (QS "B") = false /\
  fst (TryGuessProjectName Unix opening (diskWith (QS "project(A) project(B")))
  = QS "A" /\
  QS "A" <> dirName (QFileInfo_dir Unix (existingCMakeFilePath opening)).
Proof.
  split; [reflexivity|]. split; [reflexivity|]. split; [reflexivity|].
  discriminate.
Qed.

(** The token followed at once by [(A)]: the loop body returns [A]. *)
Lemma nameAt_paren_A (head tok post : QString) :
  length tok = 7%nat ->
  nameAt (head ++ tok ++ QS "(A)" ++ post) (size head) = Some (QS "A").
Proof.
  intros Htok.
  assert (Htz : size tok = 7) by (unfold size; rewrite Htok; reflexivity).
  set (text := head ++ tok ++ QS "(A)" ++ post).
  assert (Hsize : size text = size head + 10 + size post).
  { unfold text. rewrite !size_app, Htz.
    change (size (QS "(A)")) with 3. lia. }
  pose proof (size_nonneg head) as Hh. pose proof (size_nonneg post) as Hp.
  assert (S7 : skipn (Z.to_nat (size head + 7)) text = QS "(A)" ++ post).
  { apply (skipn_at text (head ++ tok)).
    - unfold text. now rewrite <- app_assoc.
    - rewrite size_app, Htz. reflexivity. }
  assert (S8 : skipn (Z.to_nat (size head + 7 + 1)) text = QS "A)" ++ post).
  { apply (skipn_at text (head ++ tok ++ QS "(")).
    - unfold text. now rewrite <- !app_assoc.
    - rewrite !size_app, Htz. change (size (QS "(")) with 1. lia. }
  assert (Hlb : leftBracket text (size head) = size head + 7).
  { unfold leftBracket, skipSpaces. rewrite S7. reflexivity. }
  unfold nameAt. cbv zeta. rewrite Hlb.
  rewrite at_skipn by lia. rewrite S7. cbn [QS app hd].
  change (N.eqb (hd 0%N (map ch (list_ascii_of_string "(A)") ++ post)) lparen)
    with true. cbv iota.
  assert (Hrb : indexOfChar text rparen (size head + 7 + 1) = size head + 9).
  { unfold indexOfChar. rewrite indexOf_from by lia. rewrite S8.
    cbn. lia. }
  rewrite Hrb.
  replace (0 <=? size head + 9) with true by (symmetry; apply Z.leb_le; lia).
  rewrite mid_inside by lia. rewrite S8.
  replace (size head + 9 - (size head + 7) - 1) with 1 by lia.
  reflexivity.
Qed.

(** C8. The token is found by a search for the seven letters in any
    case, and what stands before them plays no part: for every text that
    holds the token, in whatever capitals, followed by [(A)], and holds it
    nowhere earlier, the guesser answers [A] -- whatever the text before
    it ends with, a letter such as the [x] of [xproject(A)] included. *)
Theorem C8_substring_match_any_case
  (pf : Platform) (d : Dialog) (w : World) (pre tok post : QString) :
  isEmpty (existingCMakeFilePath d) = false ->
  configText pf d w = Some (pre ++ tok ++ QS "(A)" ++ post) ->
  length tok = 7%nat ->
  startsWith CaseInsensitive (QS "project") tok = true ->
  indexOf (pre ++ tok ++ QS "(A)" ++ post) (QS "project") 0 CaseInsensitive
  = size pre ->
  fst (TryGuessProjectName pf d w) = QS "A".
Proof.
  intros Hp Ht Hlen Htok Hfirst.
  apply (TryGuessProjectName_found pf d w _ (size pre) (QS "A") Hp Ht).
  - unfold occursAt. pose proof (size_nonneg pre).
    replace (0 <=? size pre) with true by (symmetry; apply Z.leb_le; lia).
    rewrite (skipn_at _ pre (tok ++ QS "(A)" ++ post)) by reflexivity.
    apply startsWith_app. exact Htok.
  - apply nameAt_paren_A. exact Hlen.
  - intros m Hm Hocc. exfalso.
    destruct (indexOf_spec (pre ++ tok ++ QS "(A)" ++ post) needle 0
                CaseInsensitive needle_not_nil (Z.le_refl 0))
      as [[E _] | [r [E [_ [_ [_ Hmin]]]]]]; fold needle in Hfirst.
    + pose proof (size_nonneg pre). lia.
    + unfold occursAt in Hocc. rewrite Hmin in Hocc by lia.
      rewrite andb_false_r in Hocc. discriminate.
Qed.

(** The theorem at the texts [xproject(A)] and [PROJECT(A)]. *)
Lemma C8_substring_match_witness :
  fst (TryGuessProjectName Unix opening (diskWith (QS "xproject(A)"))) = QS "A"
  /\
  fst (TryGuessProjectName Unix opening (diskWith (QS "PROJECT(A)"))) = QS "A".
Proof.
  split.
  - apply (C8_substring_match_any_case Unix opening
             (diskWith (QS "xproject(A)")) (QS "x") (QS "project") []);
      reflexivity.
  - apply (C8_substring_match_any_case Unix opening
             (diskWith (QS "PROJECT(A)")) [] (QS "PROJECT") []);
      reflexivity.
Defined.

(** C6. The guesser answers the name taken from the first token, left to
    right, that is followed by an open bracket and, somewhere after it, a
    closing one.  Tokens before it that are not so followed are passed
    over.  Nothing behind that closing bracket is looked at: the answer is
    the same whatever follows it, also when the name taken is empty and a
    later declaration holds a name. *)
Theorem C6_first_valid_match_wins
  (pf : Platform) (d : Dialog) (w : World) (text : QString) (k : Z)
  (name : QString) :
  isEmpty (existingCMakeFilePath d) = false ->
  configText pf d w = Some text ->
  occursAt text k = true ->
  nameAt text k = Some name ->
  (forall m, 0 <= m < k -> occursAt text m = true -> nameAt text m = None) ->
  fst (TryGuessProjectName pf d w) = name /\
  let closing := indexOfChar text rparen (leftBracket text k + 1) in
  forall (rest : QString) (w' : World),
    configText pf d w' = Some (firstn (Z.to_nat (closing + 1)) text ++ rest) ->
    fst (TryGuessProjectName pf d w') = name.
Proof.
  intros Hp Ht Hk Hn Hb. split.
  - apply (TryGuessProjectName_found pf d w text k name); assumption.
  - intros closing rest w' Ht'.
    destruct (PrefixFacts.first_name_agree text
                (firstn (Z.to_nat (closing + 1)) text ++ rest) k name Hk Hn Hb)
      as (Hk' & Hn' & Hb').
    + fold closing.
      rewrite firstn_app, firstn_firstn, Nat.min_id.
      replace (Z.to_nat (closing + 1)
               - length (firstn (Z.to_nat (closing + 1)) text))%nat with 0%nat.
      * cbn [firstn]. apply app_nil_r.
      * destruct (PrefixFacts.nameAt_Some text k name Hn) as (_ & Hc0 & _).
        fold closing in Hc0.
        pose proof (occursAt_fits _ _ Hk) as [Hk0 Hk7].
        pose proof (leftBracket_bounds text k Hk0 Hk7) as Hlb.
        assert (Hpos : 0 <= leftBracket text k + 1) by lia.
        destruct (indexOfChar_hit text rparen _ Hpos Hc0) as [_ Hrp].
        fold closing in Hrp.
        assert (Hin : 0 <= closing < size text)
          by (apply (PrefixFacts.at_inside _ _ _ Hrp); discriminate).
        rewrite length_firstn. unfold size in Hin. lia.
    + apply (TryGuessProjectName_found pf d w'
               (firstn (Z.to_nat (closing + 1)) text ++ rest) k name);
        assumption.
Qed.

(** The theorem at [project() project(Foo)]: the answer is the empty name
    of the first declaration, as for every text that starts with
    [project()]. *)
Lemma C6_first_valid_match_witness :
  fst (TryGuessProjectName Unix opening
         (diskWith (QS "project() project(Foo)"))) = [] /\
  forall (rest : QString) (w' : World),
    configText Unix opening w' = Some (QS "project()" ++ rest) ->
    fst (TryGuessProjectName Unix opening w') = [].
Proof.
  apply (C6_first_valid_match_wins Unix opening
           (diskWith (QS "project() project(Foo)"))
           (QS "project() project(Foo)") 0 []);
    [reflexivity | reflexivity | reflexivity | reflexivity | intros m Hm; lia].
Defined.

(** C1 (the code differs).  On [project("Foo Bar")] the guesser answers
    [Foo]: inside the quotes the loop over the arguments still returns at
    the first white space ([parseArguments_quoted_space]). *)
Theorem C1_quoted_name_ends_at_space :
  fst (TryGuessProjectName Unix opening
         (diskWith (QS "project(" ++ quoted "Foo Bar" ++ QS ")")))
  = QS "Foo"
  /\ QS "Foo" <> QS "Foo Bar".
Proof.
  split; [reflexivity | discriminate].
Qed.

(** C9 (the code differs).  On every text in which the first token is
    followed by white space only, up to the end of the text (or ends the
    text), the test for the open bracket evaluates [text[...]] at the size
    of the text, one position past its last unit. *)
Theorem C9_bracket_test_reads_past_end (pre tok ws : QString) :
  length tok = 7%nat ->
  startsWith CaseInsensitive (QS "project") tok = true ->
  forallb isSpace ws = true ->
  indexOf (pre ++ tok ++ ws) (QS "project") 0 CaseInsensitive = size pre ->
  exists rd,
    scanText (pre ++ tok ++ ws) = Some {| found := None; reads := rd |} /\
    In (size (pre ++ tok ++ ws)) rd.
Proof.
  intros Htok Hci Hws Hfirst. fold needle in Hfirst.
  set (text := pre ++ tok ++ ws) in *.
  assert (Htz : size tok = 7) by (unfold size; rewrite Htok; reflexivity).
  pose proof (size_nonneg pre) as Hp0. pose proof (size_nonneg ws) as Hw0.
  assert (Hsize : size text = size pre + 7 + size ws)
    by (unfold text; rewrite !size_app, Htz; lia).
  assert (Hlb : leftBracket text (size pre) = size text).
  { unfold leftBracket, skipSpaces.
    rewrite (skipn_at text (pre ++ tok) ws (size pre + 7)).
    - rewrite ReadsFacts.skipSpaces_go_all by assumption. lia.
    - unfold text. now rewrite <- app_assoc.
    - now rewrite size_app, Htz. }
  assert (Hnone : nameAt text (size pre) = None).
  { unfold nameAt. cbv zeta. rewrite Hlb, ReadsFacts.at_end. reflexivity. }
  unfold scanText. rewrite scan_unfold. cbv zeta. rewrite Hfirst.
  replace (size pre <? 0) with false by (symmetry; apply Z.ltb_ge; lia).
  rewrite Hnone, Hlb.
  destruct (scan_none text (length text) (size pre + 7)
              (snd (skipSpaces text (size pre + 7) []) ++ [size text]))
    as [rd Hrd].
  - lia.
  - unfold size in *. lia.
  - intros m Hm Hocc. exfalso.
    destruct (PrefixFacts.occursAt_not_space text m Hocc) as (c & Hc & Hsp).
    unfold text in Hc. rewrite app_assoc in Hc.
    rewrite nth_error_app2 in Hc
      by (rewrite length_app; unfold size in *; lia).
    apply nth_error_In in Hc.
    rewrite forallb_forall in Hws. rewrite (Hws c Hc) in Hsp. discriminate.
  - exists rd. split; [exact Hrd|].
    destruct (ReadsFacts.scan_reads_grow _ _ _ _ _ Hrd) as [more Hmore].
    cbn [reads] in Hmore. rewrite Hmore.
    apply in_or_app. left. apply in_or_app. right. left. reflexivity.
Qed.

(** The theorem at the text [project] and at the text [project] followed
    by two blanks. *)
Lemma C9_bracket_test_witness :
  (exists rd,
     scanText (QS "project") = Some {| found := None; reads := rd |} /\
     In 7 rd) /\
  (exists rd,
     scanText (QS "# x" ++ [LF] ++ QS "Project  ")
     = Some {| found := None; reads := rd |} /\
     In 13 rd).
Proof.
  split.
  - apply (C9_bracket_test_reads_past_end [] (QS "project") []); reflexivity.
  - apply (C9_bracket_test_reads_past_end (QS "# x" ++ [LF]) (QS "Project")
             (QS "  ")); reflexivity.
Defined.

(** C10. When the file cannot be opened, the guesser shows no message and
    scans nothing: it answers the name of the folder, as it does for every
    file that opens and holds no closed declaration -- no token [project]
    followed by an open bracket and a later closing one. *)
Theorem C10_unreadable_file_gives_folder_name
  (pf : Platform) (d : Dialog) (w w2 : World) (text : QString) :
  isEmpty (existingCMakeFilePath d) = false ->
  configText pf d w = None ->
  configText pf d w2 = Some text ->
  noneClosed text = true ->
  TryGuessProjectName pf d w =
    (dirName (QFileInfo_dir pf (existingCMakeFilePath d)),
     {| fs := fs w;
        trace := trace w ++
          [OpenRead (absolutePath pf (cwd (fs w)) (existingCMakeFilePath d))
                    false];
        shortWrites := shortWrites w |})
  /\ fst (TryGuessProjectName pf d w2) = fst (TryGuessProjectName pf d w).
Proof.
  intros Hp Hnone Ht Hno.
  assert (E : TryGuessProjectName pf d w =
    (dirName (QFileInfo_dir pf (existingCMakeFilePath d)),
     {| fs := fs w;
        trace := trace w ++
          [OpenRead (absolutePath pf (cwd (fs w)) (existingCMakeFilePath d))
                    false];
        shortWrites := shortWrites w |})).
  { unfold TryGuessProjectName, configText in *. rewrite Hp.
    unfold bind, QFile_open_read, getFs. cbn -[absolutePath].
    rewrite Hnone. reflexivity. }
  split; [exact E|]. rewrite E. cbn [fst].
  apply (TryGuessProjectName_fallback pf d w2 text Hp Ht).
  exact (noneClosed_nameAt text Hno).
Qed.

(** The theorem at a disk without the file, beside a disk whose file
    holds the token in a comment and no declaration. *)
Lemma C10_unreadable_file_witness :
  TryGuessProjectName Unix opening diskWithout =
    (QS "proj",
     {| fs := fs diskWithout; trace := [OpenRead cmakeLists false];
        shortWrites := [] |})
  /\ fst (TryGuessProjectName Unix opening
            (diskWith (line "# project notes" ++ QS "add_executable(a a.c)")))
     = fst (TryGuessProjectName Unix opening diskWithout).
Proof.
  apply (C10_unreadable_file_gives_folder_name Unix opening diskWithout
           (diskWith (line "# project notes" ++ QS "add_executable(a a.c)"))
           (line "# project notes" ++ QS "add_executable(a a.c)"));
    reflexivity.
Defined.

(** ** The newline format *)

Module NewlineFacts.

Lemma replace_LF (s : QString) :
  replace s [LF] [CR; LF] = flat_map crlf s.
Proof.
  unfold replace. induction s as [|c s IH]; [reflexivity|].
  cbn [replace_go startsWith sameChar length Nat.sub flat_map].
  rewrite andb_true_r, IH.
  change (crlf c) with (if N.eqb c LF then [CR; LF] else [c]).
  rewrite (N.eqb_sym LF c). destruct (N.eqb c LF); reflexivity.
Qed.

Lemma guardedLF_flat_map (s : QString) (prev : QChar) :
  guardedLF prev (flat_map crlf s) = true.
Proof.
  revert prev. induction s as [|c s IH]; intros prev; [reflexivity|].
  cbn [flat_map]. unfold crlf at 1. destruct (N.eqb c LF) eqn:E.
  - cbn [app guardedLF]. rewrite IH. reflexivity.
  - cbn [app guardedLF]. rewrite E, IH. reflexivity.
Qed.

Lemma guardedLF_sound (s : QString) (prev : QChar) :
  guardedLF prev s = true ->
  forall i, nth_error s i = Some LF ->
  (i = 0%nat /\ prev = CR) \/ (exists j, i = S j /\ nth_error s j = Some CR).
Proof.
  revert prev. induction s as [|c s IH]; intros prev H i Hi.
  - destruct i; discriminate.
  - cbn [guardedLF] in H. apply andb_prop in H as [H1 H2].
    destruct i as [|i].
    + left. split; [reflexivity|]. cbn in Hi. injection Hi as ->.
      cbn in H1. apply N.eqb_eq in H1. exact H1.
    + right. exists i. split; [reflexivity|]. cbn [nth_error] in Hi.
      destruct (IH c H2 i Hi) as [[-> ->] | [j [-> Hj]]].
      * reflexivity.
      * exact Hj.
Qed.

Lemma replace_LF_noBareLF (s : QString) : noBareLF (replace s [LF] [CR; LF]).
Proof.
  rewrite replace_LF. intros i Hi.
  destruct (guardedLF_sound _ 0%N (guardedLF_flat_map s 0%N) i Hi)
    as [[_ H] | H]; [discriminate | exact H].
Qed.

Lemma applyNewlineFormat_CrLf (d : Dialog) (s : QString) :
  defaultNewlineFormat d = CrLf -> noBareLF (applyNewlineFormat d s).
Proof.
  intros H. unfold applyNewlineFormat. rewrite H. apply replace_LF_noBareLF.
Qed.

End NewlineFacts.

(** ** What a run adds to the trace *)

Module TraceFacts.

Section Rules.

Variable P : QString -> Prop.

Lemma writes_snoc (t : list Event) (e : Event) :
  writes P t ->
  (forall p text, e = Write p text -> P text) ->
  writes P (t ++ [e]).
Proof.
  intros Ht He p text Hin. apply in_app_or in Hin as [Hin | [Hin | []]].
  - exact (Ht p text Hin).
  - exact (He p text Hin).
Qed.

Lemma writesOnly_ret {A} (a : A) : writesOnly P (ret a).
Proof. intros w H. exact H. Qed.

Lemma writesOnly_bind {A B} (m : IO A) (k : A -> IO B) :
  writesOnly P m -> (forall a, writesOnly P (k a)) -> writesOnly P (bind m k).
Proof.
  intros Hm Hk w H. unfold bind. specialize (Hm w H).
  destruct (m w) as [a w1]. exact (Hk a w1 Hm).
Qed.

Lemma writesOnly_emit (e : Event) :
  (forall p text, e = Write p text -> P text) -> writesOnly P (emit e).
Proof. intros He w H. cbn. apply writes_snoc; assumption. Qed.

Lemma writesOnly_getFs : writesOnly P getFs.
Proof. intros w H. exact H. Qed.

Lemma writesOnly_takeWrite (text : QString) : writesOnly P (takeWrite text).
Proof. intros w H. exact H. Qed.

Lemma writesOnly_setFs (f : FileSystem) : writesOnly P (setFs f).
Proof. intros w H. exact H. Qed.

Lemma writesOnly_if {A} (b : bool) (m1 m2 : IO A) :
  writesOnly P m1 -> writesOnly P m2 -> writesOnly P (if b then m1 else m2).
Proof. destruct b; auto. Qed.

End Rules.

Create HintDb io discriminated.

#[export] Hint Resolve writesOnly_ret writesOnly_getFs writesOnly_setFs
  writesOnly_if : io.
#[export] Hint Extern 1 (writesOnly _ (bind _ _)) =>
  apply writesOnly_bind; [ | intro ] : io.
#[export] Hint Extern 1 (writesOnly _ (emit _)) =>
  apply writesOnly_emit; intros ? ? ?; discriminate : io.
#[export] Hint Extern 1 (writesOnly _ (QMessageBox_warning _ _)) =>
  apply writesOnly_emit; intros ? ? ?; discriminate : io.

Section Calls.

Variable pf : Platform.
Variable P : QString -> Prop.

Lemma writesOnly_mkpath (dir p : QString) : writesOnly P (QDir_mkpath pf dir p).
Proof.
  unfold QDir_mkpath. apply writesOnly_bind; [auto with io | intro f].
  destruct (createAll pf f _) as [ok f']. auto 10 with io.
Qed.

Lemma writesOnly_mkdir (dir p : QString) : writesOnly P (QDir_mkdir pf dir p).
Proof.
  unfold QDir_mkdir. apply writesOnly_bind; [auto with io | intro f].
  destruct (createDir pf f _); auto 10 with io.
Qed.

Lemma writesOnly_cd (dir p : QString) : writesOnly P (QDir_cd pf dir p).
Proof.
  unfold QDir_cd. apply writesOnly_if; [auto with io|].
  apply writesOnly_bind; [auto with io | intro f]. cbv zeta.
  apply writesOnly_if; auto 10 with io.
Qed.

Lemma writesOnly_open_write (name : QString) :
  writesOnly P (QFile_open_write pf name).
Proof.
  unfold QFile_open_write. apply writesOnly_bind; [auto with io | intro f].
  cbv zeta. apply writesOnly_if; auto 10 with io.
Qed.

Lemma writesOnly_write (name text : QString) :
  P text -> writesOnly P (QFile_write pf name text).
Proof.
  intros HP. unfold QFile_write.
  apply writesOnly_bind; [auto with io | intro f]. cbv zeta.
  apply writesOnly_bind; [apply writesOnly_takeWrite | intro received].
  apply writesOnly_bind; [auto with io | intros _].
  apply writesOnly_emit. intros p t E. injection E as _ <-. exact HP.
Qed.

End Calls.

#[export] Hint Resolve writesOnly_mkpath writesOnly_mkdir writesOnly_cd
  writesOnly_open_write : io.

End TraceFacts.

(** ** The claims about the scaffolding *)

Import NewlineFacts TraceFacts.

Ltac io_rules :=
  repeat first
    [ progress cbv zeta
    | apply writesOnly_ret
    | apply writesOnly_getFs
    | apply writesOnly_mkpath
    | apply writesOnly_mkdir
    | apply writesOnly_cd
    | apply writesOnly_open_write
    | apply writesOnly_write
    | apply writesOnly_emit; intros ? ? ?; discriminate
    | apply writesOnly_if
    | apply writesOnly_bind; [ | intro ] ].

Lemma CreateNewProject_writes (pf : Platform) (d : Dialog) (P : QString -> Prop) :
  (forall s, P (applyNewlineFormat d s)) ->
  writesOnly P (CreateNewProject pf d).
Proof.
  intros HP. unfold CreateNewProject, QMessageBox_warning. io_rules; apply HP.
Qed.

Lemma CreateProjectForExisting_writes (pf : Platform) (d : Dialog)
  (P : QString -> Prop) :
  (forall s, P (applyNewlineFormat d s)) ->
  writesOnly P (CreateProjectForExistingCMakeListsTxtFile pf d).
Proof.
  intros HP. unfold CreateProjectForExistingCMakeListsTxtFile,
    QMessageBox_warning. io_rules; apply HP.
Qed.

(** C5. With the newline format [CrLf], in either mode, every text the
    scaffolding writes to a file has a [CR] right before each [LF]. *)
Theorem C5_crlf_leaves_no_bare_lf
  (pf : Platform) (d : Dialog) (f : FileSystem)
  (sw : list (option QString)) (p text : QString) :
  defaultNewlineFormat d = CrLf ->
  In (Write p text)
     (trace (snd (CreateProject pf d
                    {| fs := f; trace := []; shortWrites := sw |}))) ->
  forall i, nth_error text i = Some LF ->
  exists j, i = S j /\ nth_error text j = Some CR.
Proof.
  intros Hnl Hin.
  assert (W : writesOnly noBareLF (CreateProject pf d)).
  { unfold CreateProject. apply writesOnly_if.
    - apply CreateNewProject_writes. intros s.
      now apply applyNewlineFormat_CrLf.
    - apply CreateProjectForExisting_writes. intros s.
      now apply applyNewlineFormat_CrLf. }
  refine (W {| fs := f; trace := []; shortWrites := sw |} _ p text Hin).
  intros q t [].
Qed.

(** The theorem at the descriptor of the new project [Demo]: its first
    [LF], at position 11, has a [CR] at position 10. *)
Lemma C5_crlf_witness :
  exists j, 11%nat = S j /\
    nth_error (replace (line "name: Demo" ++ line "projectCMakeDir: build"
                        ++ line "buildDir: build" ++ line "buildTarget: Demo"
                        ++ line "runDir: build" ++ line "runCmd: ./Demo")
                 [LF] [CR; LF]) j = Some CR.
Proof.
  apply (C5_crlf_leaves_no_bare_lf Unix (newDemo CrLf) (fs freshDisk) []
           (QS "/tmp/x/Demo.cide")
           (replace (line "name: Demo" ++ line "projectCMakeDir: build"
                     ++ line "buildDir: build" ++ line "buildTarget: Demo"
                     ++ line "runDir: build" ++ line "runCmd: ./Demo")
              [LF] [CR; LF])).
  - reflexivity.
  - vm_compute. right. right. left. reflexivity.
  - reflexivity.
Defined.

(** C4. For the new project [Demo] in [/tmp/x], on a disk that holds
    [/tmp] only, the run succeeds without a message and leaves the disk as
    the plan of the specification does: the directories [/tmp/x],
    [/tmp/x/src/Demo] (with [src], the directory it lies in) and
    [/tmp/x/build], and the files [/tmp/x/Demo.cide], [/tmp/x/CMakeLists.txt]
    and [/tmp/x/src/Demo/main.cc]; the descriptor holds the six fields
    [name: Demo], [projectCMakeDir: build], [buildDir: build],
    [buildTarget: Demo], [runDir: build], [runCmd: ./Demo] in this order. *)
Theorem C4_new_project_Demo (nl : NewlineFormat) :
  let r := CreateProject Unix (newDemo nl) freshDisk in
  fst r = true /\
  existsb isWarning (trace (snd r)) = false /\
  Some (fs (snd r)) = executePlan Unix (demoPlan nl) (fs freshDisk) /\
  dirs (fs (snd r)) =
    [QS "/"; QS "/tmp"; QS "/tmp/x"; QS "/tmp/x/src"; QS "/tmp/x/src/Demo";
     QS "/tmp/x/build"] /\
  map fst (files (fs (snd r))) =
    [QS "/tmp/x/Demo.cide"; QS "/tmp/x/CMakeLists.txt";
     QS "/tmp/x/src/Demo/main.cc"] /\
  lookupFile (files (fs (snd r))) (QS "/tmp/x/Demo.cide") =
    Some (newlines nl
            (line "name: Demo" ++
             line "projectCMakeDir: build" ++
             line "buildDir: build" ++
             line "buildTarget: Demo" ++
             line "runDir: build" ++
             line "runCmd: ./Demo")).
Proof.
  destruct nl; vm_compute; repeat split; reflexivity.
Qed.

(** C2 (the code differs).  Two runs in which the creation of a directory
    fails, nothing is reported and the run answers success.  With the
    existing file: the build folder cannot be created because a regular
    file has its name; the result of [mkpath] is dropped.  For a new
    project: [build] cannot be created for the same reason; the result of
    [mkdir] is dropped. *)
Theorem C2_failed_directory_creation_goes_unreported :
  (let r := CreateProject Unix attachFoo projectWithFileNamedBuild in
   fst r = true /\
   trace (snd r) =
     [Mkpath (QS "/home/u/proj/build") false;
      OpenWrite (QS "/home/u/proj/Foo.cide") true;
      Write (QS "/home/u/proj/Foo.cide")
        (line "name: Foo" ++ line "projectCMakeDir: build" ++
         line "buildDir: build" ++ line "runDir: build" ++
         line "runCmd: ./Foo")] /\
   isDir (fs (snd r)) (QS "/home/u/proj/build") = false)
  /\
  (let r := CreateProject Unix (newDemo Lf) diskWithFileNamedBuild in
   fst r = true /\
   In (Mkdir (QS "/tmp/x/build") false) (trace (snd r)) /\
   existsb isWarning (trace (snd r)) = false /\
   isDir (fs (snd r)) (QS "/tmp/x/build") = false).
Proof.
  split.
  - vm_compute. repeat split; reflexivity.
  - vm_compute. repeat split; try reflexivity.
    do 11 right. left. reflexivity.
Qed.

Lemma createAll_cwd (pf : Platform) (ps : list QString) (f : FileSystem) :
  cwd (snd (createAll pf f ps)) = cwd f.
Proof.
  revert f. induction ps as [|p ps IH]; intros f; cbn [createAll].
  - reflexivity.
  - destruct (isDir f p); [apply IH|].
    unfold createDir.
    destruct (isDir f p || isFile f p || negb (isDir f (parentDir pf p)))%bool;
      [reflexivity|].
    rewrite IH. reflexivity.
Qed.

(** The calls, as equations on the world they are made in. *)
Lemma QDir_mkpath_run (pf : Platform) (dir p : QString) (w : World) :
  exists made f1,
    cwd f1 = cwd (fs w) /\
    made = fst (createAll pf (fs w)
                  (ancestors pf (absolutePath pf (cwd (fs w))
                                   (filePath pf dir p)))) /\
    QDir_mkpath pf dir p w =
    (made, {| fs := f1;
              trace := trace w ++
                [Mkpath (absolutePath pf (cwd (fs w)) (filePath pf dir p))
                        made];
              shortWrites := shortWrites w |}).
Proof.
  unfold QDir_mkpath, bind, getFs, setFs, emit, ret.
  pose proof (createAll_cwd pf
    (ancestors pf (absolutePath pf (cwd (fs w)) (filePath pf dir p))) (fs w))
    as Hcwd.
  destruct (createAll pf (fs w) _) as [made f1]. cbn [snd] in Hcwd.
  exists made, f1. split; [exact Hcwd | split; reflexivity].
Qed.

Lemma QFile_open_write_run (pf : Platform) (name : QString) (w : World) :
  let p := absolutePath pf (cwd (fs w)) name in
  QFile_open_write pf name w =
  if (isDir (fs w) p || negb (isDir (fs w) (parentDir pf p)))%bool
  then (false, {| fs := fs w; trace := trace w ++ [OpenWrite p false];
                  shortWrites := shortWrites w |})
  else (true, {| fs := putFile (fs w) p [];
                 trace := trace w ++ [OpenWrite p true];
                 shortWrites := shortWrites w |}).
Proof.
  cbv zeta. unfold QFile_open_write, bind, getFs, setFs, emit, ret.
  destruct (isDir (fs w) _ || negb (isDir (fs w) _))%bool; reflexivity.
Qed.

(** The run beside an existing file, step by step: the build folder is
    created or not, the descriptor is opened, and then either written or
    reported as not created. *)
Lemma CreateProjectForExisting_trace (pf : Platform) (d : Dialog) (w : World) :
  let r := CreateProjectForExistingCMakeListsTxtFile pf d w in
  let file :=
    filePath pf (QFileInfo_dir pf (existingCMakeFilePath d))
      (nameEdit d ++ QS ".cide") in
  let target := absolutePath pf (cwd (fs w)) file in
  let build :=
    absolutePath pf (cwd (fs w))
      (filePath pf (QDir pf (folderEdit d)) (QS ".")) in
  let made := fst (QDir_mkpath pf (QDir pf (folderEdit d)) (QS ".") w) in
  (fst r = true /\
   trace (snd r) =
     trace w ++ [Mkpath build made; OpenWrite target true;
                 Write target (existingDescriptor pf d w)])
  \/
  (fst r = false /\
   trace (snd r) =
     trace w ++ [Mkpath build made; OpenWrite target false;
                 Warning (QS "New project")
                   (QS "Failed to create project file (" ++ file ++ QS ").")]).
Proof.
  cbv zeta. unfold CreateProjectForExistingCMakeListsTxtFile.
  destruct (QDir_mkpath_run pf (QDir pf (folderEdit d)) (QS ".") w)
    as (made & f1 & Hcwd & _ & E).
  unfold bind. rewrite E. cbn [fst].
  rewrite QFile_open_write_run. cbv zeta. cbn [fs trace]. rewrite Hcwd.
  destruct (isDir f1 _ || negb (isDir f1 _))%bool.
  - right. cbn [negb fst snd trace QMessageBox_warning emit ret tr].
    rewrite <- !app_assoc. split; reflexivity.
  - left. cbn [negb fst snd trace fs cwd putFile getFs ret].
    unfold QFile_write, bind, getFs, takeWrite, setFs, emit.
    cbn [negb fst snd trace fs cwd putFile getFs ret].
    rewrite <- !app_assoc, Hcwd. split; reflexivity.
Qed.

(** The sibling call: at the head of [CreateNewProject] the result of
    [mkpath] is tested, and a project folder that cannot be created is
    reported before anything else is done. *)
Lemma CreateNewProject_reports_failed_mkpath (pf : Platform) (d : Dialog)
  (w : World) :
  let dir := QDir pf (folderEdit d) in
  let p := absolutePath pf (cwd (fs w)) (filePath pf dir (QS ".")) in
  fst (createAll pf (fs w) (ancestors pf p)) = false ->
  fst (CreateNewProject pf d w) = false /\
  trace (snd (CreateNewProject pf d w)) =
    trace w ++
    [Mkpath p false;
     Warning (QS "New project")
       (arg (QS "Failed to create project directory (%1).") dir)].
Proof.
  cbv zeta. intros Hfail. unfold CreateNewProject.
  destruct (QDir_mkpath_run pf (QDir pf (folderEdit d)) (QS ".") w)
    as (made & f1 & _ & Hmade & E).
  rewrite Hfail in Hmade. subst made.
  unfold bind. rewrite E. cbn [negb].
  unfold QMessageBox_warning, emit, ret, tr. cbn [fst snd trace].
  rewrite <- app_assoc. split; reflexivity.
Qed.

(** For a build folder on another root [QDir::relativeFilePath] answers
    the build folder itself, cleaned. *)
Lemma relativeBuildDir_on_another_root (pf : Platform) (d : Dialog)
  (w : World) :
  onAnotherRoot pf d w = true ->
  relativeBuildDir pf d w = cleanPath pf (folderEdit d) /\
  isRelativePath pf (relativeBuildDir pf d w) = false.
Proof.
  unfold onAnotherRoot, relativeBuildDir, relativeFilePath.
  destruct pf; [discriminate|]. cbv beta zeta. intros H.
  apply andb_prop in H as [H Hroot]. apply andb_prop in H as [Hf Hd].
  apply negb_true_iff in Hf, Hd. rewrite Hf, Hd. cbn [orb].
  apply orb_prop in Hroot as [Hdrive | Hshare].
  - apply andb_prop in Hdrive as [He Hne].
    apply negb_true_iff in He. rewrite He, Hne. cbn [orb].
    split; [reflexivity | exact Hf].
  - rewrite Hshare, orb_true_r. split; [reflexivity | exact Hf].
Qed.

(** C3, as amended.  Beside an existing file, a build folder on another
    root than the folder of the file is no error of the input.  No test of
    the two paths is made: when the build folder has been created, the run
    opens the descriptor, and unless that fails -- which it reports as it
    does for any build folder -- it writes the descriptor and answers
    success.  The three folders of the descriptor are then what
    [QDir::relativeFilePath] answers, which for such a build folder is the
    build folder itself, cleaned, and no relative path.  What the run does
    when the build folder cannot be created is not part of this
    statement. *)
Theorem C3_build_dir_on_another_root_is_written_as_it_is
  (pf : Platform) (d : Dialog) (w : World) :
  isEmpty (existingCMakeFilePath d) = false ->
  onAnotherRoot pf d w = true ->
  fst (QDir_mkpath pf (QDir pf (folderEdit d)) (QS ".") w) = true ->
  let r := CreateProject pf d w in
  let file :=
    filePath pf (QFileInfo_dir pf (existingCMakeFilePath d))
      (nameEdit d ++ QS ".cide") in
  let target := absolutePath pf (cwd (fs w)) file in
  let build :=
    absolutePath pf (cwd (fs w))
      (filePath pf (QDir pf (folderEdit d)) (QS ".")) in
  relativeBuildDir pf d w = cleanPath pf (folderEdit d) /\
  isRelativePath pf (relativeBuildDir pf d w) = false /\
  ((fst r = true /\
    trace (snd r) =
      trace w ++ [Mkpath build true; OpenWrite target true;
                  Write target (existingDescriptor pf d w)])
   \/
   (fst r = false /\
    trace (snd r) =
      trace w ++ [Mkpath build true; OpenWrite target false;
                  Warning (QS "New project")
                    (QS "Failed to create project file (" ++ file
                     ++ QS ").")])).
Proof.
  intros Hp Hroot Hmade. cbv zeta.
  destruct (relativeBuildDir_on_another_root pf d w Hroot) as [E1 E2].
  split; [exact E1|]. split; [exact E2|].
  unfold CreateProject. rewrite Hp.
  pose proof (CreateProjectForExisting_trace pf d w) as T. cbv zeta in T.
  rewrite Hmade in T. exact T.
Qed.

(** The theorem at the project on [C:] with its build folder on [D:], and
    with its build folder on the share [//server/share]: the run succeeds
    and the descriptor names [D:/build], or [//server/share/build]. *)
Lemma C3_build_dir_witness :
  (relativeBuildDir Windows attachAcrossDrives twoDrives = QS "D:/build" /\
   fst (CreateProject Windows attachAcrossDrives twoDrives) = true /\
   trace (snd (CreateProject Windows attachAcrossDrives twoDrives)) =
     [Mkpath (QS "D:/build") true;
      OpenWrite (QS "C:/proj/Foo.cide") true;
      Write (QS "C:/proj/Foo.cide")
        (line "name: Foo" ++ line "projectCMakeDir: D:/build" ++
         line "buildDir: D:/build" ++ line "runDir: D:/build" ++
         line "runCmd: ./Foo")]) /\
  (relativeBuildDir Windows attachOnShare driveAndShare
   = QS "//server/share/build" /\
   fst (CreateProject Windows attachOnShare driveAndShare) = true /\
   trace (snd (CreateProject Windows attachOnShare driveAndShare)) =
     [Mkpath (QS "//server/share/build") true;
      OpenWrite (QS "C:/proj/Foo.cide") true;
      Write (QS "C:/proj/Foo.cide")
        (line "name: Foo" ++ line "projectCMakeDir: //server/share/build" ++
         line "buildDir: //server/share/build" ++
         line "runDir: //server/share/build" ++
         line "runCmd: ./Foo")]).
Proof.
  split.
  - destruct (C3_build_dir_on_another_root_is_written_as_it_is Windows
                attachAcrossDrives twoDrives eq_refl eq_refl eq_refl)
      as (E & _ & [[Hr Ht] | [Hr Ht]]).
    + split; [exact E|]. split; [exact Hr | exact Ht].
    + vm_compute in Hr. discriminate Hr.
  - destruct (C3_build_dir_on_another_root_is_written_as_it_is Windows
                attachOnShare driveAndShare eq_refl eq_refl eq_refl)
      as (E & _ & [[Hr Ht] | [Hr Ht]]).
    + split; [exact E|]. split; [exact Hr | exact Ht].
    + vm_compute in Hr. discriminate Hr.
Defined.

(** C3 as stated fails: the build folder on [D:] lies on another root
    than the project on [C:] and cannot be made relative to it, and the
    run reports nothing; it creates the folder, writes the descriptor and
    answers success. *)
Lemma C3_counterexample :
  onAnotherRoot Windows attachAcrossDrives twoDrives = true /\
  cannotBeMadeRelative Windows attachAcrossDrives twoDrives /\
  ~ refusedBeforeAnyIO twoDrives
      (CreateProject Windows attachAcrossDrives twoDrives).
Proof.
  split; [reflexivity|]. split.
  - reflexivity.
  - intros [H _]. vm_compute in H. discriminate.
Qed.

(** ** More about the scan *)

Module ScanMore.

Import QtFacts ScanFacts GuessFacts.

(** A seventh of the size of the text, and one more, bounds the number of
    iterations; with that much fuel or more the outcome is the same. *)
Lemma scan_fuel (text : QString) (f1 : nat) :
  forall (f2 : nat) (cursor : Z) (rd : list Z),
  0 <= cursor <= size text ->
  size text - cursor < 7 * Z.of_nat f1 ->
  size text - cursor < 7 * Z.of_nat f2 ->
  scan f1 text cursor rd = scan f2 text cursor rd /\
  scan f1 text cursor rd <> None.
Proof.
  induction f1 as [|f1 IH]; intros f2 cursor rd Hc H1 H2; [lia|].
  destruct f2 as [|f2]; [lia|].
  rewrite !scan_unfold. cbv zeta.
  destruct (indexOf_spec text needle cursor CaseInsensitive needle_not_nil)
    as [[E _] | [r [E [Hr [Hfit _]]]]]; [lia | | ]; rewrite E.
  - split; [reflexivity | discriminate].
  - change (Z.of_nat (length needle)) with 7 in Hfit.
    destruct (r <? 0); [split; [reflexivity | discriminate]|].
    destruct (nameAt text r); [split; [reflexivity | discriminate]|].
    apply IH; lia.
Qed.

Lemma skipn_cons (text : QString) (j : nat) :
  (j < length text)%nat ->
  exists c, skipn j text = c :: skipn (S j) text.
Proof.
  revert j. induction text as [|x t IH]; intros j H; [cbn in H; lia|].
  destruct j as [|j].
  - exists x. reflexivity.
  - cbn [length] in H. destruct (IH j ltac:(lia)) as [c Hc].
    exists c. cbn [skipn]. exact Hc.
Qed.

(** What the search from left to right finds. *)
Lemma firstNameFrom_spec (text : QString) (n : nat) :
  forall j, (length text - j = n)%nat ->
  match firstNameFrom text (skipn j text) (Z.of_nat j) with
  | Some name =>
      exists k, Z.of_nat j <= k /\ occursAt text k = true /\
        nameAt text k = Some name /\
        forall m, Z.of_nat j <= m < k -> occursAt text m = true ->
                  nameAt text m = None
  | None =>
      forall m, Z.of_nat j <= m -> occursAt text m = true ->
                nameAt text m = None
  end.
Proof.
  induction n as [|n IH]; intros j Hj.
  - rewrite skipn_all2 by lia. cbn. intros m Hm Hocc.
    apply occursAt_fits in Hocc. unfold size in Hocc. lia.
  - destruct (skipn_cons text j ltac:(lia)) as [c Hc].
    assert (Hocc_j : occursAt text (Z.of_nat j)
                     = startsWith CaseInsensitive needle (skipn j text)).
    { unfold occursAt. rewrite Nat2Z.id.
      replace (0 <=? Z.of_nat j) with true by (symmetry; apply Z.leb_le; lia).
      reflexivity. }
    specialize (IH (S j) ltac:(lia)).
    replace (Z.of_nat (S j)) with (Z.of_nat j + 1) in IH by lia.
    rewrite Hc. cbn [firstNameFrom]. rewrite <- Hc, <- Hocc_j.
    destruct (occursAt text (Z.of_nat j)) eqn:Eo.
    + destruct (nameAt text (Z.of_nat j)) as [name|] eqn:En.
      * exists (Z.of_nat j).
        split; [lia|]. split; [exact Eo|]. split; [exact En|].
        intros m Hm. lia.
      * destruct (firstNameFrom text (skipn (S j) text) (Z.of_nat j + 1)).
        -- destruct IH as (k & Hk & Ho & Hn & Hb). exists k.
           split; [lia|]. split; [exact Ho|]. split; [exact Hn|].
           intros m Hm Hom. destruct (Z.eq_dec m (Z.of_nat j)) as [->|Hne];
             [exact En | apply Hb; [lia | exact Hom]].
        -- intros m Hm Hom. destruct (Z.eq_dec m (Z.of_nat j)) as [->|Hne];
             [exact En | apply IH; [lia | exact Hom]].
    + destruct (firstNameFrom text (skipn (S j) text) (Z.of_nat j + 1)).
      * destruct IH as (k & Hk & Ho & Hn & Hb). exists k.
        split; [lia|]. split; [exact Ho|]. split; [exact Hn|].
        intros m Hm Hom. destruct (Z.eq_dec m (Z.of_nat j)) as [->|Hne];
          [congruence | apply Hb; [lia | exact Hom]].
      * intros m Hm Hom. destruct (Z.eq_dec m (Z.of_nat j)) as [->|Hne];
          [congruence | apply IH; [lia | exact Hom]].
Qed.

(** The loop, with its jumps of seven, finds what the search at every
    position finds. *)
Lemma scanText_firstName (text : QString) :
  exists rd, scanText text = Some {| found := firstName text; reads := rd |}.
Proof.
  pose proof (firstNameFrom_spec text (length text) 0 ltac:(lia)) as H.
  cbn [skipn Z.of_nat] in H. fold (firstName text) in H.
  destruct (firstName text) as [name|].
  - destruct H as (k & Hk & Ho & Hn & Hb).
    apply (scanText_first text k name Ho Hn Hb).
  - apply scanText_none. exact H.
Qed.

(** The positions the inner loop reads lie between its start and the end
    of the text. *)
Lemma skipSpaces_go_reads (s : QString) (lo hi : Z) :
  forall (pos : Z) (rd : list Z),
  Forall (fun i => lo <= i <= hi) rd ->
  lo <= pos -> pos + size s <= hi ->
  Forall (fun i => lo <= i <= hi) (snd (skipSpaces_go s pos rd)).
Proof.
  induction s as [|c s IH]; intros pos rd Hrd Hlo Hhi; cbn [skipSpaces_go].
  - exact Hrd.
  - unfold size in *. cbn [length] in Hhi.
    assert (Hnew : Forall (fun i => lo <= i <= hi) (rd ++ [pos])).
    { apply Forall_app. split; [exact Hrd|]. constructor; [lia | constructor]. }
    destruct (isSpace c); [|exact Hnew].
    apply IH; [exact Hnew | lia | lia].
Qed.

Lemma scan_reads_in_range (text : QString) (fuel : nat) :
  forall (cursor : Z) (rd : list Z) (s : Scan),
  0 <= cursor ->
  Forall (fun i => 0 <= i <= size text) rd ->
  scan fuel text cursor rd = Some s ->
  Forall (fun i => 0 <= i <= size text) (reads s).
Proof.
  induction fuel as [|fuel IH]; intros cursor rd s Hc Hrd H; [discriminate|].
  rewrite scan_unfold in H. cbv zeta in H.
  destruct (indexOf_spec text needle cursor CaseInsensitive needle_not_nil Hc)
    as [[E _] | [r [E [Hr [Hfit _]]]]]; rewrite E in H.
  - cbn in H. injection H as <-. exact Hrd.
  - change (Z.of_nat (length needle)) with 7 in Hfit.
    destruct (r <? 0); [injection H as <-; exact Hrd|].
    assert (Hnew : Forall (fun i => 0 <= i <= size text)
                     (snd (skipSpaces text (r + 7) rd) ++ [leftBracket text r])).
    { apply Forall_app. split.
      - unfold skipSpaces. apply skipSpaces_go_reads; [exact Hrd | lia |].
        unfold size in *. rewrite length_skipn. lia.
      - constructor; [|constructor].
        pose proof (leftBracket_bounds text r ltac:(lia) Hfit). lia. }
    destruct (nameAt text r).
    + injection H as <-. exact Hnew.
    + exact (IH (r + 7) _ s ltac:(lia) Hnew H).
Qed.

(** A name the loop returns is the name of some token. *)
Lemma scan_found_nameAt (text : QString) (fuel : nat) :
  forall (cursor : Z) (rd : list Z) (s : Scan) (name : QString),
  0 <= cursor ->
  scan fuel text cursor rd = Some s -> found s = Some name ->
  exists m, 0 <= m /\ occursAt text m = true /\ nameAt text m = Some name.
Proof.
  induction fuel as [|fuel IH]; intros cursor rd s name Hc H Hf; [discriminate|].
  rewrite scan_unfold in H. cbv zeta in H.
  destruct (indexOf_spec text needle cursor CaseInsensitive needle_not_nil Hc)
    as [[E _] | [r [E [Hr [Hfit [Hocc _]]]]]]; rewrite E in H.
  - cbn in H. injection H as <-. discriminate.
  - destruct (r <? 0); [injection H as <-; discriminate|].
    destruct (nameAt text r) as [n|] eqn:En.
    + injection H as <-. cbn in Hf. injection Hf as ->.
      exists r. repeat split; [lia | | exact En].
      unfold occursAt. rewrite Hocc.
      replace (0 <=? r) with true by (symmetry; apply Z.leb_le; lia).
      reflexivity.
    + exact (IH (r + 7) _ s name ltac:(lia) H Hf).
Qed.

End ScanMore.

(** ** The units of a name *)

Module NameFacts.

Import QtFacts ScanFacts GuessFacts.

(** The loop over the arguments returns units of the argument string that
    are no white space, after those it was started with. *)
Lemma parseArguments_units (args : QString) :
  forall (i : Z) (haveString : bool) (acc : QString) (c : QChar),
  In c (parseArguments args i haveString acc) ->
  In c acc \/ (In c args /\ isSpace c = false).
Proof.
  induction args as [|x args IH]; intros i hs acc c H; cbn [parseArguments] in H.
  - left. exact H.
  - destruct ((i =? 0) && N.eqb x dquote)%bool.
    + destruct (IH _ _ _ _ H) as [Ha | [Ha Hs]]; [left; exact Ha|].
      right. split; [right; exact Ha | exact Hs].
    + destruct (hs && N.eqb x dquote)%bool; [left; exact H|].
      destruct (isSpace x) eqn:Ex; [left; exact H|].
      destruct (IH _ _ _ _ H) as [Ha | [Ha Hs]].
      * apply in_app_or in Ha as [Ha | [<- | []]]; [left; exact Ha|].
        right. split; [left; reflexivity | exact Ex].
      * right. split; [right; exact Ha | exact Hs].
Qed.

Lemma dropSpaces_incl (s : QString) (c : QChar) :
  In c (dropSpaces s) -> In c s.
Proof.
  induction s as [|x s IH]; cbn [dropSpaces]; [tauto|].
  destruct (isSpace x); [|tauto]. intros H. right. exact (IH H).
Qed.

Lemma trimmed_incl (s : QString) (c : QChar) : In c (trimmed s) -> In c s.
Proof.
  unfold trimmed. intros H. apply in_rev in H. apply dropSpaces_incl in H.
  apply in_rev in H. apply dropSpaces_incl in H. exact H.
Qed.

Lemma at_nth_error (s : QString) (i : nat) (c : QChar) :
  nth_error s i = Some c -> at_ s (Z.of_nat i) = c.
Proof.
  intros H. unfold at_, size.
  assert (Hi : (i < length s)%nat) by (apply nth_error_Some; congruence).
  replace (0 <=? Z.of_nat i) with true by (symmetry; apply Z.leb_le; lia).
  replace (Z.of_nat i <? Z.of_nat (length s)) with true
    by (symmetry; apply Z.ltb_lt; lia).
  cbn [andb]. rewrite Nat2Z.id. apply nth_error_nth. exact H.
Qed.

(** A unit of [mid] stands in the text at one of the positions taken. *)
Lemma mid_units (s : QString) (p n : Z) (c : QChar) :
  0 <= p -> 0 <= n -> p + n <= size s ->
  In c (mid s p n) -> exists i, p <= i < p + n /\ at_ s i = c.
Proof.
  intros Hp Hn Hs H. rewrite mid_inside in H by assumption.
  apply In_nth_error in H as [j Hj].
  assert (Hjn : (j < Z.to_nat n)%nat).
  { assert (L : (j < length (firstn (Z.to_nat n) (skipn (Z.to_nat p) s)))%nat)
      by (apply nth_error_Some; congruence).
    rewrite length_firstn in L. lia. }
  rewrite nth_error_firstn in Hj.
  replace (j <? Z.to_nat n)%nat with true in Hj
    by (symmetry; apply Nat.ltb_lt; exact Hjn).
  rewrite nth_error_skipn in Hj.
  exists (p + Z.of_nat j). split; [lia|].
  replace (p + Z.of_nat j) with (Z.of_nat (Z.to_nat p + j)) by lia.
  apply at_nth_error. exact Hj.
Qed.

(** Before the position [indexOfChar] answers there is no such unit. *)
Lemma indexOfChar_first (s : QString) (c : QChar) (from i : Z) :
  0 <= from -> c <> 0%N -> from <= i < indexOfChar s c from ->
  at_ s i <> c.
Proof.
  intros Hf Hc Hi Hat. unfold indexOfChar in Hi.
  destruct (indexOf_spec s [c] from CaseSensitive ltac:(discriminate) Hf)
    as [[E _] | [r [E [_ [_ [_ Hmin]]]]]]; [lia|].
  rewrite E in Hi. specialize (Hmin i Hi).
  rewrite at_skipn in Hat by lia.
  destruct (skipn (Z.to_nat i) s) as [|x t]; cbn in *; [congruence|].
  subst x. rewrite N.eqb_refl in Hmin. discriminate.
Qed.

(** The name of a token holds no white space and no closing bracket. *)
Lemma nameAt_units (text : QString) (m : Z) (name : QString) (c : QChar) :
  0 <= m -> occursAt text m = true -> nameAt text m = Some name ->
  In c name -> isSpace c = false /\ c <> rparen.
Proof.
  intros Hm Hocc Hn Hin.
  pose proof (occursAt_fits _ _ Hocc) as [_ Hfit].
  pose proof (leftBracket_bounds text m Hm Hfit) as Hlb.
  destruct (PrefixFacts.nameAt_Some text m name Hn) as (_ & Hc0 & Hname).
  set (lb := leftBracket text m) in *.
  set (closing := indexOfChar text rparen (lb + 1)) in *.
  assert (Hpos : 0 <= lb + 1) by lia.
  destruct (indexOfChar_hit text rparen (lb + 1) Hpos Hc0) as [Hcl Hrp].
  fold closing in Hcl, Hrp.
  assert (Hinside : 0 <= closing < size text)
    by (apply (PrefixFacts.at_inside _ _ _ Hrp); discriminate).
  rewrite Hname in Hin.
  apply parseArguments_units in Hin as [[] | [Hin Hsp]].
  split; [exact Hsp|]. apply trimmed_incl in Hin.
  apply mid_units in Hin as (i & Hi & Hat); [| lia | lia | lia].
  intros ->.
  apply (indexOfChar_first text rparen (lb + 1) i Hpos); [discriminate | | exact Hat].
  fold closing. lia.
Qed.

(** *** Names between brackets *)

Lemma skipSpaces_go_over (ws rest : QString) (c : QChar) (pos : Z) :
  forallb isSpace ws = true -> isSpace c = false ->
  fst (skipSpaces_go (ws ++ c :: rest) pos []) = pos + size ws.
Proof.
  revert pos. induction ws as [|x ws IH]; intros pos Hws Hc.
  - cbn [app skipSpaces_go]. rewrite Hc. unfold size. cbn. lia.
  - cbn [forallb] in Hws. apply andb_prop in Hws as [Hx Hws].
    cbn [app skipSpaces_go]. rewrite Hx, skipSpaces_go_fst, (IH _ Hws Hc).
    unfold size. cbn [length]. lia.
Qed.

Lemma indexOf_go_char (a rest : QString) (c : QChar) (pos : Z) :
  existsb (N.eqb c) a = false ->
  indexOf_go CaseSensitive [c] (a ++ c :: rest) pos = pos + size a.
Proof.
  revert pos. induction a as [|x a IH]; intros pos H.
  - cbn. rewrite N.eqb_refl. unfold size. cbn. lia.
  - cbn [existsb] in H. apply orb_false_elim in H as [Hx H].
    cbn [app indexOf_go startsWith sameChar]. rewrite Hx. cbn [andb].
    rewrite (IH _ H). unfold size. cbn [length]. lia.
Qed.

Lemma spaces_no_rparen (ws : QString) :
  forallb isSpace ws = true -> existsb (N.eqb rparen) ws = false.
Proof.
  induction ws as [|x ws IH]; [reflexivity|]. cbn [forallb existsb].
  intros H. apply andb_prop in H as [Hx H]. rewrite (IH H), orb_false_r.
  destruct (N.eqb rparen x) eqn:E; [|reflexivity].
  apply N.eqb_eq in E. subst x. discriminate.
Qed.

(** The token, white space, and a bracket pair around [inner]: the loop
    body parses the trimmed [inner]. *)
Lemma nameAt_between (head tok ws inner post : QString) :
  length tok = 7%nat ->
  forallb isSpace ws = true ->
  existsb (N.eqb rparen) inner = false ->
  nameAt (head ++ tok ++ ws ++ [lparen] ++ inner ++ [rparen] ++ post)
         (size head)
  = Some (parseArguments (trimmed inner) 0 false []).
Proof.
  intros Htok Hws Hinner.
  assert (Htz : size tok = 7) by (unfold size; rewrite Htok; reflexivity).
  set (text := head ++ tok ++ ws ++ [lparen] ++ inner ++ [rparen] ++ post).
  pose proof (size_nonneg head) as Hh. pose proof (size_nonneg ws) as Hw.
  pose proof (size_nonneg inner) as Hi. pose proof (size_nonneg post) as Hp.
  assert (Hsize : size text
                  = size head + 7 + size ws + 1 + size inner + 1 + size post).
  { unfold text. rewrite !size_app, Htz.
    change (size [lparen]) with 1. change (size [rparen]) with 1. lia. }
  assert (S7 : skipn (Z.to_nat (size head + 7)) text
               = ws ++ lparen :: inner ++ [rparen] ++ post).
  { apply (skipn_at text (head ++ tok)).
    - unfold text. now rewrite <- app_assoc.
    - now rewrite size_app, Htz. }
  assert (Hlb : leftBracket text (size head) = size head + 7 + size ws).
  { unfold leftBracket, skipSpaces. rewrite S7.
    apply skipSpaces_go_over; [exact Hws | reflexivity]. }
  assert (SL : skipn (Z.to_nat (size head + 7 + size ws)) text
               = lparen :: inner ++ [rparen] ++ post).
  { apply (skipn_at text (head ++ tok ++ ws)).
    - unfold text. now rewrite <- !app_assoc.
    - rewrite !size_app, Htz. lia. }
  assert (SI : skipn (Z.to_nat (size head + 7 + size ws + 1)) text
               = inner ++ rparen :: post).
  { apply (skipn_at text (head ++ tok ++ ws ++ [lparen])).
    - unfold text. now rewrite <- !app_assoc.
    - rewrite !size_app, Htz. change (size [lparen]) with 1. lia. }
  unfold nameAt. cbv zeta. rewrite Hlb.
  rewrite at_skipn by lia. rewrite SL. cbn [hd].
  rewrite N.eqb_refl.
  assert (Hrb : indexOfChar text rparen (size head + 7 + size ws + 1)
                = size head + 7 + size ws + 1 + size inner).
  { unfold indexOfChar. rewrite indexOf_from by lia. rewrite SI.
    apply indexOf_go_char. exact Hinner. }
  rewrite Hrb.
  replace (0 <=? size head + 7 + size ws + 1 + size inner) with true
    by (symmetry; apply Z.leb_le; lia).
  rewrite mid_inside by lia. rewrite SI.
  replace (size head + 7 + size ws + 1 + size inner
           - (size head + 7 + size ws) - 1) with (size inner) by lia.
  replace (Z.to_nat (size inner)) with (length inner) by (unfold size; lia).
  rewrite firstn_app, firstn_all, Nat.sub_diag.
  cbn [firstn]. rewrite app_nil_r. reflexivity.
Qed.

Lemma dropSpaces_spaces (ws s : QString) :
  forallb isSpace ws = true -> dropSpaces (ws ++ s) = dropSpaces s.
Proof.
  induction ws as [|x ws IH]; [reflexivity|]. cbn [forallb]. intros H.
  apply andb_prop in H as [Hx H]. cbn [app dropSpaces]. rewrite Hx.
  exact (IH H).
Qed.

Lemma dropSpaces_app_kept (a b : QString) :
  dropSpaces a <> [] -> dropSpaces (a ++ b) = dropSpaces a ++ b.
Proof.
  induction a as [|x a IH]; cbn [dropSpaces app]; [congruence|].
  destruct (isSpace x); [exact IH | reflexivity].
Qed.

Lemma dropSpaces_all (a : QString) :
  dropSpaces a = [] -> forallb isSpace a = true.
Proof.
  induction a as [|x a IH]; [reflexivity|]. cbn [dropSpaces forallb].
  destruct (isSpace x); [exact IH | discriminate].
Qed.

(** White space is trimmed off the end behind a unit that is none. *)
Lemma trimmedRight_app (a b : QString) (c : QChar) :
  isSpace c = false ->
  trimmedRight ((a ++ [c]) ++ b) = (a ++ [c]) ++ trimmedRight b.
Proof.
  intros Hc. unfold trimmedRight. rewrite !rev_app_distr. cbn [rev app].
  destruct (dropSpaces (rev b)) as [|y t] eqn:E.
  - rewrite dropSpaces_spaces by (apply dropSpaces_all; exact E).
    cbn [dropSpaces]. rewrite Hc. cbn [rev]. rewrite rev_involutive.
    now rewrite app_nil_r.
  - rewrite dropSpaces_app_kept by congruence. rewrite E.
    rewrite rev_app_distr. cbn [rev app]. rewrite rev_involutive.
    reflexivity.
Qed.

(** What is trimmed off the end leaves a head part of the text. *)
Lemma trimmedRight_head (b : QString) :
  exists sp, b = trimmedRight b ++ sp.
Proof.
  unfold trimmedRight.
  assert (H : forall s, exists sp, s = sp ++ dropSpaces s).
  { induction s as [|x s [sp IH]]; [exists []; reflexivity|].
    cbn [dropSpaces]. destruct (isSpace x).
    - exists (x :: sp). cbn. now rewrite <- IH.
    - exists []. reflexivity. }
  destruct (H (rev b)) as [sp Hsp]. exists (rev sp).
  rewrite <- rev_app_distr, <- Hsp. now rewrite rev_involutive.
Qed.

Lemma trimmed_spaces_first (ws a b : QString) (x c : QChar) :
  forallb isSpace ws = true -> isSpace x = false -> isSpace c = false ->
  trimmed (ws ++ (x :: a ++ [c]) ++ b) = (x :: a ++ [c]) ++ trimmedRight b.
Proof.
  intros Hws Hx Hc. unfold trimmed. rewrite dropSpaces_spaces by exact Hws.
  cbn [app dropSpaces]. rewrite Hx.
  change (rev (dropSpaces (rev (x :: (a ++ [c]) ++ b))))
    with (trimmedRight (((x :: a) ++ [c]) ++ b)).
  apply (trimmedRight_app (x :: a) b c Hc).
Qed.

(** Without an opening quote, units that are no white space are added to
    the name. *)
Lemma parseArguments_plain (a rest : QString) (i : Z) (acc : QString) :
  0 < i ->
  forallb (fun x => negb (isSpace x)) a = true ->
  parseArguments (a ++ rest) i false acc =
  parseArguments rest (i + size a) false (acc ++ a).
Proof.
  revert i acc. induction a as [|x a IH]; intros i acc Hi H.
  - cbn. unfold size. cbn. now rewrite Z.add_0_r, app_nil_r.
  - cbn [forallb] in H. apply andb_prop in H as [Hx H].
    apply negb_true_iff in Hx.
    cbn [app parseArguments].
    replace (i =? 0) with false by (symmetry; apply Z.eqb_neq; lia).
    rewrite Hx. cbn [andb].
    rewrite IH by (assumption || lia).
    unfold size. cbn [length]. rewrite <- app_assoc. cbn [app].
    replace (i + 1 + Z.of_nat (length a)) with (i + Z.of_nat (S (length a)))
      by lia.
    reflexivity.
Qed.

End NameFacts.

(** ** Further properties of the name guesser *)

Import ScanMore NameFacts.

(** The scan on a readable file whose first token is followed by white
    space and a bracket pair: the name is parsed from the trimmed text
    between the brackets. *)
Lemma TryGuessProjectName_between (pf : Platform) (d : Dialog) (w : World)
  (pre tok ws inner post : QString) :
  isEmpty (existingCMakeFilePath d) = false ->
  configText pf d w
  = Some (pre ++ tok ++ ws ++ [lparen] ++ inner ++ [rparen] ++ post) ->
  length tok = 7%nat ->
  startsWith CaseInsensitive needle tok = true ->
  indexOf (pre ++ tok ++ ws ++ [lparen] ++ inner ++ [rparen] ++ post)
    needle 0 CaseInsensitive = size pre ->
  forallb isSpace ws = true ->
  existsb (N.eqb rparen) inner = false ->
  fst (TryGuessProjectName pf d w) = parseArguments (trimmed inner) 0 false [].
Proof.
  intros Hp Ht Hlen Htok Hfirst Hws Hinner.
  apply (TryGuessProjectName_found pf d w _ (size pre) _ Hp Ht).
  - unfold occursAt. pose proof (size_nonneg pre).
    replace (0 <=? size pre) with true by (symmetry; apply Z.leb_le; lia).
    rewrite (skipn_at _ pre (tok ++ ws ++ [lparen] ++ inner ++ [rparen] ++ post))
      by reflexivity.
    apply startsWith_app. exact Htok.
  - apply nameAt_between; assumption.
  - intros m Hm Hocc. exfalso.
    destruct (indexOf_spec
                (pre ++ tok ++ ws ++ [lparen] ++ inner ++ [rparen] ++ post)
                needle 0 CaseInsensitive needle_not_nil (Z.le_refl 0))
      as [[E _] | [r [E [_ [_ [_ Hmin]]]]]].
    + pose proof (size_nonneg pre). lia.
    + unfold occursAt in Hocc. rewrite Hmin in Hocc by lia.
      rewrite andb_false_r in Hocc. discriminate.
Qed.

Lemma trimmed_around (ws name b : QString) :
  forallb isSpace ws = true -> name <> [] ->
  forallb (fun x => negb (isSpace x)) name = true ->
  trimmed (ws ++ name ++ b) = name ++ trimmedRight b.
Proof.
  intros Hws Hne Hname.
  destruct name as [|x rest]; [congruence|].
  assert (Hx : isSpace x = false).
  { cbn [forallb] in Hname. apply andb_prop in Hname as [Hx _].
    now apply negb_true_iff in Hx. }
  unfold trimmed. rewrite dropSpaces_spaces by exact Hws.
  cbn [app dropSpaces]. rewrite Hx.
  pose (nm := x :: rest).
  change (trimmedRight (nm ++ b) = nm ++ trimmedRight b).
  assert (E : nm = removelast nm ++ [last nm 0%N])
    by (apply app_removelast_last; discriminate).
  rewrite E. apply trimmedRight_app.
  rewrite forallb_forall in Hname.
  apply negb_true_iff. apply Hname.
  destruct (exists_last Hne) as (a & c & Hac). unfold nm. rewrite Hac.
  rewrite last_last. apply in_or_app. right. left. reflexivity.
Qed.

(** X1.  The while loop of the scan always ends: it makes at most one
    iteration for every seven units of the text, and one more; given that
    many iterations or more, the outcome is the one [scanText] has. *)
Theorem scan_ends_within_a_seventh_of_the_text (text : QString) (fuel : nat) :
  size text < 7 * Z.of_nat fuel ->
  scan fuel text 0 [] = scanText text /\ scanText text <> None.
Proof.
  intros H. pose proof (size_nonneg text) as H0.
  destruct (scan_fuel text fuel (S (length text)) 0 []) as [E N];
    [lia | lia | unfold size; lia |].
  unfold scanText. rewrite <- E. split; [reflexivity | exact N].
Qed.

(** The theorem at a text of 21 units and four iterations. *)
Lemma scan_ends_witness :
  scan 4 (QS "project(A) project(B)") 0 []
  = scanText (QS "project(A) project(B)")
  /\ scanText (QS "project(A) project(B)") <> None.
Proof.
  apply (scan_ends_within_a_seventh_of_the_text
           (QS "project(A) project(B)") 4).
  reflexivity.
Defined.

(** X2.  On a file that opens, the guesser answers what a search at every
    position, from left to right, for the first token that yields a name
    finds: the jumps of seven positions the loop makes pass over no token.
    When no token yields a name, it answers the name of the folder. *)
Theorem TryGuessProjectName_takes_leftmost_name
  (pf : Platform) (d : Dialog) (w : World) (text : QString) :
  isEmpty (existingCMakeFilePath d) = false ->
  configText pf d w = Some text ->
  fst (TryGuessProjectName pf d w) =
  match firstName text with
  | Some name => name
  | None => dirName (QFileInfo_dir pf (existingCMakeFilePath d))
  end.
Proof.
  intros Hp Ht. rewrite (TryGuessProjectName_readable pf d w text Hp Ht).
  destruct (scanText_firstName text) as [rd ->].
  destruct (firstName text); reflexivity.
Qed.

(** The theorem at a text whose first token is no declaration. *)
Lemma TryGuessProjectName_leftmost_witness :
  fst (TryGuessProjectName Unix opening
         (diskWith (line "# my project" ++ line "project(Foo)")))
  = QS "Foo".
Proof.
  apply (TryGuessProjectName_takes_leftmost_name Unix opening
           (diskWith (line "# my project" ++ line "project(Foo)"))
           (line "# my project" ++ line "project(Foo)"));
    reflexivity.
Defined.

(** X3.  On every text the scan evaluates [text[...]] at positions from 0 to
    the size of the text only: never at a negative position and never
    further than one position past the last unit. *)
Theorem scan_reads_stay_in_range (text : QString) :
  exists s, scanText text = Some s /\
    Forall (fun i => 0 <= i <= size text) (reads s).
Proof.
  destruct (scanText text) as [s|] eqn:E.
  - exists s. split; [reflexivity|].
    apply (scan_reads_in_range text (S (length text)) 0 [] s (Z.le_refl 0));
      [constructor | exact E].
  - exfalso. exact (scanText_ends text E).
Qed.

(** X4.  A name the scan takes from the text holds no white space and no
    closing bracket. *)
Theorem scanned_name_has_no_space_and_no_rparen
  (text : QString) (s : Scan) (name : QString) :
  scanText text = Some s -> found s = Some name ->
  forall c, In c name -> isSpace c = false /\ c <> rparen.
Proof.
  intros Hs Hf c Hin.
  destruct (scan_found_nameAt text (S (length text)) 0 [] s name
              (Z.le_refl 0) Hs Hf)
    as (m & Hm & Hocc & Hn).
  exact (nameAt_units text m name c Hm Hocc Hn Hin).
Qed.

(** The theorem at [project(Foo Bar)]: the name is [Foo], and its first
    unit is neither white space nor a closing bracket. *)
Lemma scanned_name_witness :
  isSpace (ch "F") = false /\ ch "F" <> rparen.
Proof.
  apply (scanned_name_has_no_space_and_no_rparen (QS "project(Foo Bar)")
           {| found := Some (QS "Foo"); reads := [7; 7] |} (QS "Foo")).
  - reflexivity.
  - reflexivity.
  - left. reflexivity.
Defined.

(** X5.  A name without quotes is taken whole: when the first token of the
    text is followed by white space or nothing, an open bracket, white
    space or nothing, a name that holds no white space and no closing
    bracket and does not start with a quote, then either the closing
    bracket or white space and further arguments up to the closing
    bracket, the guesser answers that name. *)
Theorem unquoted_name_is_extracted
  (pf : Platform) (d : Dialog) (w : World)
  (pre tok ws1 ws2 name tail post : QString) :
  isEmpty (existingCMakeFilePath d) = false ->
  configText pf d w
  = Some (pre ++ tok ++ ws1 ++ [lparen] ++ (ws2 ++ name ++ tail)
          ++ [rparen] ++ post) ->
  length tok = 7%nat ->
  startsWith CaseInsensitive (QS "project") tok = true ->
  indexOf (pre ++ tok ++ ws1 ++ [lparen] ++ (ws2 ++ name ++ tail)
           ++ [rparen] ++ post) (QS "project") 0 CaseInsensitive = size pre ->
  forallb isSpace ws1 = true ->
  forallb isSpace ws2 = true ->
  isEmpty name = false ->
  forallb (fun c => negb (isSpace c) && negb (N.eqb rparen c)) name = true ->
  N.eqb (hd 0%N name) dquote = false ->
  forallb isSpace (firstn 1 tail) = true ->
  existsb (N.eqb rparen) tail = false ->
  fst (TryGuessProjectName pf d w) = name.
Proof.
  intros Hp Ht Hlen Htok Hfirst Hws1 Hws2 Hne Hname Hq Htail Hnor.
  assert (Hplain : forallb (fun x => negb (isSpace x)) name = true).
  { rewrite forallb_forall in *. intros x Hx. specialize (Hname x Hx).
    now apply andb_prop in Hname as [Hname _]. }
  assert (Hnorn : existsb (N.eqb rparen) name = false).
  { destruct (existsb (N.eqb rparen) name) eqn:E; [|reflexivity].
    apply existsb_exists in E as (x & Hx & Ex).
    rewrite forallb_forall in Hname. specialize (Hname x Hx).
    apply andb_prop in Hname as [_ Hname]. rewrite Ex in Hname. discriminate. }
  rewrite (TryGuessProjectName_between pf d w pre tok ws1
             (ws2 ++ name ++ tail) post Hp Ht Hlen Htok Hfirst Hws1).
  - rewrite trimmed_around; [| exact Hws2 | now destruct name | exact Hplain].
    destruct name as [|x rest]; [discriminate|]. cbn [hd] in Hq.
    cbn [forallb] in Hplain. apply andb_prop in Hplain as [Hx Hrest].
    apply negb_true_iff in Hx.
    cbn [app parseArguments Z.eqb]. rewrite Hq, Hx. cbn [andb].
    rewrite parseArguments_plain by (assumption || lia). cbn [app].
    destruct (trimmedRight_head tail) as [sp Hsp].
    destruct (trimmedRight tail) as [|y t]; [reflexivity|].
    rewrite Hsp in Htail. cbn [app firstn forallb] in Htail.
    apply andb_prop in Htail as [Hy _].
    cbn [parseArguments].
    replace (0 + 1 + size rest =? 0) with false
      by (symmetry; apply Z.eqb_neq; pose proof (size_nonneg rest); lia).
    cbn [andb]. rewrite Hy. reflexivity.
  - rewrite !existsb_app.
    apply orb_false_intro; [exact (spaces_no_rparen ws2 Hws2)|].
    apply orb_false_intro; [exact Hnorn | exact Hnor].
Qed.

(** The theorem at a declaration with a version after the name. *)
Lemma unquoted_name_witness :
  fst (TryGuessProjectName Unix opening
         (diskWith (line "cmake_minimum_required(VERSION 3.0)"
                    ++ QS "Project" ++ QS "  " ++ [lparen]
                    ++ (QS " " ++ QS "Foo" ++ QS " VERSION 1.0 ")
                    ++ [rparen] ++ [LF])))
  = QS "Foo".
Proof.
  apply (unquoted_name_is_extracted Unix opening _
           (line "cmake_minimum_required(VERSION 3.0)") (QS "Project")
           (QS "  ") (QS " ") (QS "Foo") (QS " VERSION 1.0 ") [LF]);
    reflexivity.
Defined.

(** X6.  A quoted name without white space is taken without its quotes: when
    the first token of the text is followed by white space or nothing, an
    open bracket, white space or nothing, and a name between two quotes
    that holds no white space, no quote and no closing bracket, the
    guesser answers that name, whatever stands between the second quote
    and the closing bracket. *)
Theorem quoted_name_without_space_is_extracted
  (pf : Platform) (d : Dialog) (w : World)
  (pre tok ws1 ws2 name tail post : QString) :
  isEmpty (existingCMakeFilePath d) = false ->
  configText pf d w
  = Some (pre ++ tok ++ ws1 ++ [lparen]
          ++ (ws2 ++ (dquote :: name ++ [dquote]) ++ tail)
          ++ [rparen] ++ post) ->
  length tok = 7%nat ->
  startsWith CaseInsensitive (QS "project") tok = true ->
  indexOf (pre ++ tok ++ ws1 ++ [lparen]
           ++ (ws2 ++ (dquote :: name ++ [dquote]) ++ tail)
           ++ [rparen] ++ post) (QS "project") 0 CaseInsensitive = size pre ->
  forallb isSpace ws1 = true ->
  forallb isSpace ws2 = true ->
  forallb (fun c => negb (isSpace c) && negb (N.eqb c dquote)) name = true ->
  existsb (N.eqb rparen) name = false ->
  existsb (N.eqb rparen) tail = false ->
  fst (TryGuessProjectName pf d w) = name.
Proof.
  intros Hp Ht Hlen Htok Hfirst Hws1 Hws2 Hname Hnorn Hnor.
  rewrite (TryGuessProjectName_between pf d w pre tok ws1
             (ws2 ++ (dquote :: name ++ [dquote]) ++ tail) post
             Hp Ht Hlen Htok Hfirst Hws1).
  - rewrite trimmed_spaces_first by (assumption || reflexivity).
    cbn [app parseArguments Z.eqb]. rewrite N.eqb_refl. cbn [andb].
    rewrite <- app_assoc.
    rewrite ArgumentFacts.parseArguments_run by (assumption || lia).
    cbn [app parseArguments].
    replace (0 + 1 + size name =? 0) with false
      by (symmetry; apply Z.eqb_neq; pose proof (size_nonneg name); lia).
    rewrite N.eqb_refl. reflexivity.
  - rewrite !existsb_app.
    apply orb_false_intro; [exact (spaces_no_rparen ws2 Hws2)|].
    apply orb_false_intro; [|exact Hnor].
    cbn [existsb]. rewrite existsb_app.
    apply orb_false_intro; [reflexivity|].
    apply orb_false_intro; [exact Hnorn | reflexivity].
Qed.

(** The theorem at [project( "Foo" C CXX)]. *)
Lemma quoted_name_witness :
  fst (TryGuessProjectName Unix opening
         (diskWith ([] ++ QS "project" ++ [] ++ [lparen]
                    ++ (QS " " ++ (dquote :: QS "Foo" ++ [dquote])
                        ++ QS " C CXX")
                    ++ [rparen] ++ [])))
  = QS "Foo".
Proof.
  apply (quoted_name_without_space_is_extracted Unix opening _
           [] (QS "project") [] (QS " ") (QS "Foo") (QS " C CXX") []);
    reflexivity.
Defined.

(** ** The calls, one by one *)

Module CallFacts.

Lemma extends_refl (w : World) : extends w w [].
Proof.
  unfold extends. rewrite app_nil_r. repeat split; auto.
Qed.

Lemma extends_trans (w w1 w2 : World) (e1 e2 : list Event) :
  extends w w1 e1 -> extends w1 w2 e2 -> extends w w2 (e1 ++ e2).
Proof.
  intros (T1 & C1 & D1 & F1) (T2 & C2 & D2 & F2). unfold extends.
  rewrite T2, T1, C2, C1, app_assoc. repeat split; auto.
Qed.

Lemma extendsQuietly_refl (w : World) : extendsQuietly w w [].
Proof. split; [apply extends_refl | reflexivity]. Qed.

Lemma extendsQuietly_trans (w w1 w2 : World) (e1 e2 : list Event) :
  extendsQuietly w w1 e1 -> extendsQuietly w1 w2 e2 ->
  extendsQuietly w w2 (e1 ++ e2).
Proof.
  intros [X1 Q1] [X2 Q2]. split; [exact (extends_trans _ _ _ _ _ X1 X2)|].
  rewrite existsb_app, Q1, Q2. reflexivity.
Qed.

Lemma eqb_refl (p : QString) : eqb p p = true.
Proof.
  induction p as [|x p IH]; [reflexivity|]. cbn. now rewrite N.eqb_refl, IH.
Qed.

Lemma eqb_eq (p q : QString) : eqb p q = true -> p = q.
Proof.
  revert q. induction p as [|x p IH]; intros [|y q] H; cbn in H;
    try discriminate; [reflexivity|].
  apply andb_prop in H as [H1 H2]. apply N.eqb_eq in H1.
  now rewrite H1, (IH q H2).
Qed.

Lemma lookupFile_setFile_same (l : list (QString * QString)) (p t : QString) :
  lookupFile (setFile l p t) p = Some t.
Proof.
  induction l as [|[q old] l IH]; cbn.
  - now rewrite eqb_refl.
  - destruct (eqb p q) eqn:E; cbn; rewrite E; [reflexivity | exact IH].
Qed.

Lemma lookupFile_setFile_kept (l : list (QString * QString))
  (p t q : QString) :
  lookupFile l q <> None -> lookupFile (setFile l p t) q <> None.
Proof.
  induction l as [|[r old] l IH]; cbn; [congruence|].
  destruct (eqb p r) eqn:E; cbn.
  - destruct (eqb q r); [discriminate | auto].
  - destruct (eqb q r); [discriminate | exact IH].
Qed.

Lemma isFile_putFile_same (f : FileSystem) (p t : QString) :
  isFile (putFile f p t) p = true.
Proof.
  unfold isFile, putFile. cbn. now rewrite lookupFile_setFile_same.
Qed.

Lemma isFile_putFile_kept (f : FileSystem) (p t q : QString) :
  isFile f q = true -> isFile (putFile f p t) q = true.
Proof.
  unfold isFile, putFile. cbn. intros H.
  pose proof (lookupFile_setFile_kept (files f) p t q) as K.
  destruct (lookupFile (files f) q); [|discriminate].
  destruct (lookupFile (setFile (files f) p t) q); [reflexivity|].
  exfalso. apply K; [discriminate | reflexivity].
Qed.

Lemma isDir_addDir_kept (f : FileSystem) (p q : QString) :
  isDir f q = true -> isDir (addDir f p) q = true.
Proof.
  unfold isDir, addDir. cbn. intros H. rewrite existsb_app, H. reflexivity.
Qed.

Lemma holds_refl (f : FileSystem) : holds f f.
Proof. repeat split; auto. Qed.

Lemma holds_trans (f f1 f2 : FileSystem) :
  holds f f1 -> holds f1 f2 -> holds f f2.
Proof.
  intros (C1 & D1 & F1) (C2 & D2 & F2). unfold holds. rewrite C2, C1.
  repeat split; auto.
Qed.

Lemma holds_addDir (f : FileSystem) (p : QString) : holds f (addDir f p).
Proof.
  repeat split; [apply isDir_addDir_kept | auto].
Qed.

Lemma holds_putFile (f : FileSystem) (p t : QString) : holds f (putFile f p t).
Proof.
  repeat split; [auto | apply isFile_putFile_kept].
Qed.

Lemma holds_createDir (pf : Platform) (f f' : FileSystem) (p : QString) :
  createDir pf f p = Some f' -> holds f f'.
Proof.
  unfold createDir.
  destruct (isDir f p || isFile f p || negb (isDir f (parentDir pf p)))%bool;
    [discriminate|].
  intros H. injection H as <-. apply holds_addDir.
Qed.

Lemma holds_createAll (pf : Platform) (ps : list QString) (f : FileSystem) :
  holds f (snd (createAll pf f ps)).
Proof.
  revert f. induction ps as [|p ps IH]; intros f; cbn [createAll].
  - apply holds_refl.
  - destruct (isDir f p); [apply IH|].
    destruct (createDir pf f p) as [f'|] eqn:E; [|apply holds_refl].
    exact (holds_trans _ _ _ (holds_createDir pf f f' p E) (IH f')).
Qed.

Lemma extends_of_holds (w : World) (f' : FileSystem) (evs : list Event) :
  holds (fs w) f' ->
  forall sw,
  extends w {| fs := f'; trace := trace w ++ evs; shortWrites := sw |} evs.
Proof.
  intros (C & D & F). repeat split; assumption.
Qed.

Section WithPlatform.

Variable pf : Platform.

Lemma QDir_mkpath_step (dir p : QString) (w : World) :
  let r := QDir_mkpath pf dir p w in
  extendsQuietly w (snd r)
    [Mkpath (absolutePath pf (cwd (fs w)) (filePath pf dir p)) (fst r)].
Proof.
  cbv zeta. unfold QDir_mkpath, bind, getFs, setFs, emit, ret.
  pose proof (holds_createAll pf
    (ancestors pf (absolutePath pf (cwd (fs w)) (filePath pf dir p))) (fs w))
    as H.
  destruct (createAll pf (fs w) _) as [ok f']. cbn [fst snd fs trace] in *.
  split; [apply extends_of_holds; exact H | reflexivity].
Qed.

Lemma QDir_mkdir_step (dir p : QString) (w : World) :
  let r := QDir_mkdir pf dir p w in
  extendsQuietly w (snd r)
    [Mkdir (absolutePath pf (cwd (fs w)) (filePath pf dir p)) (fst r)].
Proof.
  cbv zeta. unfold QDir_mkdir, bind, getFs, setFs, emit, ret.
  destruct (createDir pf (fs w) _) as [f'|] eqn:E; cbn [fst snd fs trace].
  - split; [|reflexivity]. apply extends_of_holds.
    exact (holds_createDir pf _ _ _ E).
  - split; [|reflexivity]. apply (extends_of_holds w (fs w)). apply holds_refl.
Qed.

Lemma QDir_cd_step (dir p : QString) (w : World) :
  exists evs, extendsQuietly w (snd (QDir_cd pf dir p w)) evs.
Proof.
  unfold QDir_cd.
  destruct (isEmpty p || eqb p (QS "."))%bool.
  - exists []. apply extendsQuietly_refl.
  - unfold bind, getFs, emit, ret. cbv zeta.
    match goal with |- context [if isDir (fs w) ?q then _ else _] =>
      destruct (isDir (fs w) q); cbn [fst snd fs trace] end.
    + eexists. split;
        [apply (extends_of_holds w (fs w)); apply holds_refl | reflexivity].
    + eexists. split;
        [apply (extends_of_holds w (fs w)); apply holds_refl | reflexivity].
Qed.

Lemma QFile_open_write_step (name : QString) (w : World) :
  let r := QFile_open_write pf name w in
  let p := absolutePath pf (cwd (fs w)) name in
  extendsQuietly w (snd r) [OpenWrite p (fst r)] /\
  (fst r = true -> isFile (fs (snd r)) p = true).
Proof.
  cbv zeta. rewrite QFile_open_write_run. cbv zeta.
  destruct (isDir (fs w) _ || negb (isDir (fs w) _))%bool; cbn [fst snd fs].
  - split; [|discriminate]. split; [|reflexivity].
    apply (extends_of_holds w (fs w)). apply holds_refl.
  - split; [|intros _; apply isFile_putFile_same]. split; [|reflexivity].
    apply extends_of_holds. apply holds_putFile.
Qed.

Lemma QFile_write_step (name text : QString) (w : World) :
  extendsQuietly w (snd (QFile_write pf name text w))
    [Write (absolutePath pf (cwd (fs w)) name) text].
Proof.
  unfold QFile_write, bind, getFs, takeWrite, setFs, emit.
  cbn [fst snd fs trace].
  split; [|reflexivity]. apply extends_of_holds. apply holds_putFile.
Qed.

Lemma QFile_open_read_step (name : QString) (w : World) :
  let r := QFile_open_read pf name w in
  fs (snd r) = fs w /\
  exists ok, trace (snd r)
             = trace w ++ [OpenRead (absolutePath pf (cwd (fs w)) name) ok].
Proof.
  cbv zeta. unfold QFile_open_read, bind, getFs, emit, ret.
  destruct (lookupFile _ _); cbn; split; try reflexivity; eexists; reflexivity.
Qed.

Lemma warning_step (title text : QString) (w : World) :
  extends w (snd (QMessageBox_warning title text w)) [Warning title text].
Proof.
  unfold QMessageBox_warning, emit. cbn [snd].
  apply (extends_of_holds w (fs w)). apply holds_refl.
Qed.

End WithPlatform.

End CallFacts.


(** ** Files a call leaves as they are *)

Module FrameFacts.

Import CallFacts.

Lemma eqb_sym (p q : QString) : eqb p q = eqb q p.
Proof.
  revert q. induction p as [|x p IH]; intros [|y q]; cbn; try reflexivity.
  now rewrite N.eqb_sym, IH.
Qed.

Lemma lookupFile_setFile_other (l : list (QString * QString))
  (p t q : QString) :
  eqb p q = false -> lookupFile (setFile l p t) q = lookupFile l q.
Proof.
  intros H. induction l as [|[r old] l IH]; cbn.
  - now rewrite eqb_sym, H.
  - destruct (eqb p r) eqn:E; cbn.
    + apply eqb_eq in E. subst r. now rewrite eqb_sym, H.
    + destruct (eqb q r); [reflexivity | exact IH].
Qed.

Lemma spares_same (w w' : World) (evs : list Event) :
  files (fs w') = files (fs w) -> spares w w' evs.
Proof. intros H q _. now rewrite H. Qed.

Lemma spares_trans (w w1 w2 : World) (e1 e2 : list Event) :
  spares w w1 e1 -> spares w1 w2 e2 -> spares w w2 (e1 ++ e2).
Proof.
  intros S1 S2 q H. rewrite existsb_app in H.
  apply orb_false_elim in H as [H1 H2].
  now rewrite (S2 q H2), (S1 q H1).
Qed.

Lemma spares_putFile (w : World) (p t : QString) (e : Event)
  (evs : list Event) :
  touches p e = true -> evs = [e] ->
  forall sw,
  spares w {| fs := putFile (fs w) p t; trace := trace w ++ evs;
              shortWrites := sw |} evs.
Proof.
  intros He -> sw q H. cbn in H. rewrite orb_false_r in H.
  cbn [fs files putFile]. apply lookupFile_setFile_other.
  destruct e as [x ok|x ok|x ok|x ok|x ok|x y|x y]; try destruct ok;
    cbn in He, H; try discriminate;
    apply eqb_eq in He; subst x; exact H.
Qed.

Lemma files_createAll (pf : Platform) (ps : list QString) (f : FileSystem) :
  files (snd (createAll pf f ps)) = files f.
Proof.
  revert f. induction ps as [|p ps IH]; intros f; cbn [createAll];
    [reflexivity|].
  destruct (isDir f p); [apply IH|].
  unfold createDir.
  destruct (isDir f p || isFile f p || negb (isDir f (parentDir pf p)))%bool;
    [reflexivity|].
  now rewrite IH.
Qed.

Section WithPlatform.

Variable pf : Platform.

Lemma QDir_mkpath_files (dir p : QString) (w : World) :
  files (fs (snd (QDir_mkpath pf dir p w))) = files (fs w).
Proof.
  unfold QDir_mkpath, bind, getFs, setFs, emit, ret.
  pose proof (files_createAll pf
    (ancestors pf (absolutePath pf (cwd (fs w)) (filePath pf dir p))) (fs w))
    as H.
  destruct (createAll pf (fs w) _) as [ok f']. exact H.
Qed.

Lemma QDir_mkdir_files (dir p : QString) (w : World) :
  files (fs (snd (QDir_mkdir pf dir p w))) = files (fs w).
Proof.
  unfold QDir_mkdir, bind, getFs, setFs, emit, ret, createDir.
  destruct (_ || _ || _)%bool; reflexivity.
Qed.

Lemma QDir_cd_files (dir p : QString) (w : World) :
  files (fs (snd (QDir_cd pf dir p w))) = files (fs w).
Proof.
  unfold QDir_cd.
  destruct (isEmpty p || eqb p (QS "."))%bool; [reflexivity|].
  unfold bind, getFs, emit, ret. cbv zeta.
  match goal with |- context [if isDir (fs w) ?q then _ else _] =>
    destruct (isDir (fs w) q); reflexivity end.
Qed.

Lemma QFile_open_write_spares (name : QString) (w : World) :
  let r := QFile_open_write pf name w in
  spares w (snd r) [OpenWrite (absolutePath pf (cwd (fs w)) name) (fst r)].
Proof.
  cbv zeta. rewrite QFile_open_write_run. cbv zeta.
  destruct (isDir (fs w) _ || negb (isDir (fs w) _))%bool; cbn [fst snd].
  - apply spares_same. reflexivity.
  - apply (spares_putFile w _ []
             (OpenWrite (absolutePath pf (cwd (fs w)) name) true));
      [|reflexivity].
    cbn. apply eqb_refl.
Qed.

Lemma QFile_write_spares (name text : QString) (w : World) :
  spares w (snd (QFile_write pf name text w))
    [Write (absolutePath pf (cwd (fs w)) name) text].
Proof.
  unfold QFile_write, bind, getFs, setFs, emit. cbn [fst snd fs trace].
  apply (spares_putFile w _ _
           (Write (absolutePath pf (cwd (fs w)) name) text)); [|reflexivity].
  cbn. apply eqb_refl.
Qed.

End WithPlatform.

End FrameFacts.

(** ** A run of [CreateNewProject], call by call *)

Module NewProjectFacts.

Import CallFacts FrameFacts.

Lemma files_kept (w w' : World) (evs : list Event) (p : QString) :
  extendsQuietly w w' evs -> isFile (fs w) p = true ->
  isFile (fs w') p = true.
Proof. intros [(_ & _ & _ & F) _]. apply F. Qed.

Lemma cwd_kept (w w' : World) (evs : list Event) :
  extendsQuietly w w' evs -> cwd (fs w') = cwd (fs w).
Proof. intros [(_ & C & _) _]. exact C. Qed.

(** One call of the run in [E] is made: its outcome is named, and what it
    did is added to [Acc] and to [Spa]. *)
Ltac after_call S T :=
  match type of S with
  | extendsQuietly ?wi ?wj _ =>
      repeat match goal with
             | F : isFile (fs wi) _ = true |- _ =>
                 apply (files_kept wi wj _ _ S) in F
             end
  end;
  match goal with
  | Acc : extendsQuietly _ _ _, Spa : spares _ _ _ |- _ =>
      let A := fresh "Acc" in
      let B := fresh "Spa" in
      pose proof (extendsQuietly_trans _ _ _ _ _ Acc S) as A;
      pose proof (spares_trans _ _ _ _ _ Spa T) as B;
      clear Acc S Spa T
  end.

Ltac call E :=
  unfold bind at 1 in E;
  let S := fresh "S" in
  let T := fresh "T" in
  let a := fresh "a" in
  let wj := fresh "w" in
  match goal with
  | Acc : extendsQuietly _ ?wi _ |- _ =>
      match type of E with
      | context [QDir_mkpath ?pf ?d ?p wi] =>
          pose proof (QDir_mkpath_step pf d p wi) as S; cbv zeta in S;
          pose proof (spares_same wi _
                        [Mkpath (absolutePath pf (cwd (fs wi)) (filePath pf d p))
                                (fst (QDir_mkpath pf d p wi))]
                        (QDir_mkpath_files pf d p wi)) as T;
          destruct (QDir_mkpath pf d p wi) as [a wj]; cbn [fst snd] in S, T;
          try rewrite (cwd_kept _ _ _ Acc) in S;
          try rewrite (cwd_kept _ _ _ Acc) in T; after_call S T
      | context [QDir_mkdir ?pf ?d ?p wi] =>
          pose proof (QDir_mkdir_step pf d p wi) as S; cbv zeta in S;
          pose proof (spares_same wi _
                        [Mkdir (absolutePath pf (cwd (fs wi)) (filePath pf d p))
                               (fst (QDir_mkdir pf d p wi))]
                        (QDir_mkdir_files pf d p wi)) as T;
          destruct (QDir_mkdir pf d p wi) as [a wj]; cbn [fst snd] in S, T;
          try rewrite (cwd_kept _ _ _ Acc) in S;
          try rewrite (cwd_kept _ _ _ Acc) in T; after_call S T
      | context [QDir_cd ?pf ?d ?p wi] =>
          let ev := fresh "ev" in
          destruct (QDir_cd_step pf d p wi) as [ev S];
          pose proof (spares_same wi _ ev (QDir_cd_files pf d p wi)) as T;
          destruct (QDir_cd pf d p wi) as [a wj]; cbn [fst snd] in S, T;
          after_call S T
      | context [QFile_write ?pf ?n ?t wi] =>
          pose proof (QFile_write_step pf n t wi) as S;
          pose proof (QFile_write_spares pf n t wi) as T;
          destruct (QFile_write pf n t wi) as [a wj]; cbn [fst snd] in S, T;
          try rewrite (cwd_kept _ _ _ Acc) in S;
          try rewrite (cwd_kept _ _ _ Acc) in T; after_call S T
      | context [QFile_open_write ?pf ?n wi] =>
          let F := fresh "F" in
          pose proof (QFile_open_write_step pf n wi) as S; cbv zeta in S;
          pose proof (QFile_open_write_spares pf n wi) as T; cbv zeta in T;
          destruct (QFile_open_write pf n wi) as [a wj];
          cbn [fst snd] in S, T;
          destruct S as [S F];
          try rewrite (cwd_kept _ _ _ Acc) in S;
          try rewrite (cwd_kept _ _ _ Acc) in T;
          try rewrite (cwd_kept _ _ _ Acc) in F; after_call S T;
          destruct a; cbn [negb] in E; [specialize (F eq_refl)|clear F]
      end
  end.

(** The run stops with a message. *)
Ltac stops E :=
  unfold bind, ret in E;
  let SW := fresh "SW" in
  let TW := fresh "TW" in
  let u := fresh "u" in
  let wj := fresh "w" in
  match goal with
  | Acc : extendsQuietly _ ?wi _, Spa : spares _ ?wi _ |- _ =>
      match type of E with
      | context [QMessageBox_warning ?t ?x wi] =>
          pose proof (warning_step t x wi) as SW;
          pose proof (spares_same wi (snd (QMessageBox_warning t x wi))
                        [Warning t x] eq_refl) as TW;
          destruct (QMessageBox_warning t x wi) as [u wj];
          cbn [snd] in SW, TW;
          injection E as <- <-;
          eexists; split;
          [ exact (extends_trans _ _ _ _ _ (proj1 Acc) SW)
          | split;
            [ exact (spares_trans _ _ _ _ _ Spa TW)
            | right; split;
              [ reflexivity
              | eexists _, _; split; [reflexivity | exact (proj2 Acc)] ] ] ]
      end
  end.

(** The run ends well. *)
Ltac ends :=
  match goal with
  | Acc : extendsQuietly _ _ _, Spa : spares _ _ _ |- _ =>
      eexists; split; [exact (proj1 Acc)|]; split; [exact Spa|]; left;
      split; [reflexivity|]; split; [exact (proj2 Acc)|]
  end.

(** An event of a trace put together call by call. *)
Ltac in_trace :=
  first [ apply in_or_app; right; left; reflexivity
        | apply in_or_app; left; in_trace ].

Section WithPlatform.

Variable pf : Platform.

(** What a run of [CreateNewProject] does, in full. *)
Lemma CreateNewProject_run (d : Dialog) (w : World) :
  let r := CreateNewProject pf d w in
  let dir := QDir pf (folderEdit d) in
  let p1 :=
    absolutePath pf (cwd (fs w)) (filePath pf dir (nameEdit d ++ QS ".cide")) in
  let p2 :=
    absolutePath pf (cwd (fs w)) (filePath pf dir (QS "CMakeLists.txt")) in
  exists evs, extends w (snd r) evs /\ spares w (snd r) evs /\
    ((fst r = true /\ existsb isWarning evs = false /\
      In (Write p1 (newDescriptor d)) evs /\
      In (Write p2 (newCMakeLists d)) evs /\
      (exists p3, In (Write p3 (newMain d)) evs /\
                  isFile (fs (snd r)) p3 = true) /\
      isFile (fs (snd r)) p1 = true /\ isFile (fs (snd r)) p2 = true)
     \/
     (fst r = false /\
      exists evs0 text,
        evs = evs0 ++ [Warning (QS "New project") text] /\
        existsb isWarning evs0 = false)).
Proof.
  cbv zeta. destruct (CreateNewProject pf d w) as [r wf] eqn:E.
  cbn [fst snd]. unfold CreateNewProject in E.
  pose proof (extendsQuietly_refl w) as Acc.
  pose proof (spares_same w w [] eq_refl) as Spa.
  (* the project folder *)
  call E. destruct a; cbn [negb] in E; [|stops E].
  (* the descriptor *)
  call E; [|stops E]. call E.
  (* CMakeLists.txt *)
  call E; [|stops E]. call E.
  (* src/<name> *)
  call E. call E. call E. call E.
  (* main.cc *)
  call E; [|stops E]. call E.
  (* build *)
  call E.
  unfold ret in E. injection E as <- <-.
  ends.
  split; [in_trace|]. split; [in_trace|].
  split; [eexists; split; [in_trace | eassumption]|].
  split; assumption.
Qed.

(** The same for the run beside an existing file; here the descriptor is
    the only file opened, and it holds the text written and nothing
    else. *)
Lemma CreateProjectForExisting_run (d : Dialog) (w : World) :
  let r := CreateProjectForExistingCMakeListsTxtFile pf d w in
  let p :=
    absolutePath pf (cwd (fs w))
      (filePath pf (QFileInfo_dir pf (existingCMakeFilePath d))
         (nameEdit d ++ QS ".cide")) in
  exists evs, extends w (snd r) evs /\ spares w (snd r) evs /\
    ((fst r = true /\ existsb isWarning evs = false /\
      In (Write p (existingDescriptor pf d w)) evs /\
      isFile (fs (snd r)) p = true)
     \/
     (fst r = false /\
      exists evs0 text,
        evs = evs0 ++ [Warning (QS "New project") text] /\
        existsb isWarning evs0 = false)).
Proof.
  cbv zeta.
  destruct (CreateProjectForExistingCMakeListsTxtFile pf d w) as [r wf] eqn:E.
  cbn [fst snd]. unfold CreateProjectForExistingCMakeListsTxtFile in E.
  pose proof (extendsQuietly_refl w) as Acc.
  pose proof (spares_same w w [] eq_refl) as Spa.
  call E. call E; [|stops E].
  unfold bind at 1 in E. unfold getFs at 1 in E.
  rewrite (cwd_kept _ _ _ Acc) in E.
  call E.
  unfold ret in E. injection E as <- <-.
  ends.
  split; [in_trace | assumption].
Qed.

End WithPlatform.

End NewProjectFacts.


(** ** What a run of [CreateProject] leaves behind *)

Import CallFacts FrameFacts NewProjectFacts.

(** Either way of creating the project, under one statement. *)
Lemma CreateProject_run (pf : Platform) (d : Dialog) (w : World) :
  let r := CreateProject pf d w in
  let p := absolutePath pf (cwd (fs w)) (GetProjectFilePath pf d) in
  exists evs, extends w (snd r) evs /\ spares w (snd r) evs /\
    ((fst r = true /\ existsb isWarning evs = false /\
      In (Write p (descriptorText pf d w)) evs /\
      isFile (fs (snd r)) p = true)
     \/
     (fst r = false /\
      exists evs0 text,
        evs = evs0 ++ [Warning (QS "New project") text] /\
        existsb isWarning evs0 = false)).
Proof.
  cbv zeta. unfold CreateProject, GetProjectFilePath, descriptorText.
  destruct (isEmpty (existingCMakeFilePath d)).
  - destruct (CreateNewProject_run pf d w) as (evs & He & Hs & H).
    exists evs. split; [exact He|]. split; [exact Hs|].
    destruct H as [(Hr & Hq & H1 & _ & _ & F1 & _) | H]; [left | right; exact H].
    repeat split; assumption.
  - exact (CreateProjectForExisting_run pf d w).
Qed.

(** The file beside an existing [CMakeLists.txt] holds, after a run that
    answers success, what the write let through and nothing else. *)
Lemma CreateProjectForExisting_content (pf : Platform) (d : Dialog)
  (w : World) :
  let r := CreateProjectForExistingCMakeListsTxtFile pf d w in
  let p :=
    absolutePath pf (cwd (fs w))
      (filePath pf (QFileInfo_dir pf (existingCMakeFilePath d))
         (nameEdit d ++ QS ".cide")) in
  fst r = true ->
  lookupFile (files (fs (snd r))) p
  = Some (match shortWrites w with
          | Some part :: _ => part
          | _ => existingDescriptor pf d w
          end).
Proof.
  cbv zeta. unfold CreateProjectForExistingCMakeListsTxtFile.
  destruct (QDir_mkpath_run pf (QDir pf (folderEdit d)) (QS ".") w)
    as (made & f1 & Hcwd & _ & E).
  unfold bind. rewrite E.
  rewrite QFile_open_write_run. cbv zeta. cbn [fs trace]. rewrite Hcwd.
  destruct (isDir f1 _ || negb (isDir f1 _))%bool.
  - cbn [negb fst snd QMessageBox_warning emit ret]. discriminate.
  - intros _. cbn [negb fst snd trace fs cwd putFile getFs ret].
    unfold QFile_write, bind, getFs, takeWrite, setFs, emit.
    cbn [negb fst snd trace fs cwd files putFile getFs ret shortWrites].
    rewrite Hcwd, !lookupFile_setFile_same. reflexivity.
Qed.

(** X7.  [CreateProject] only adds to the disk: whatever it answers, the
    working directory is the one it started in, every directory and every
    file that existed before the call still exists after it, and the
    record of calls has only grown. *)
Theorem CreateProject_only_adds_to_the_disk (pf : Platform) (d : Dialog)
  (w : World) :
  exists evs, extends w (snd (CreateProject pf d w)) evs.
Proof.
  destruct (CreateProject_run pf d w) as (evs & He & _).
  exists evs. exact He.
Qed.

(** X8.  On Unix, where two names that differ in any unit name two
    files, [CreateProject] changes no file but those it opens for writing
    or writes: a file named by no successful opening and by no write of
    the run holds afterwards what it held before, and a path that names no
    file before and is not opened names none afterwards. *)
Theorem CreateProject_spares_the_files_it_does_not_open (d : Dialog)
  (w : World) :
  exists evs,
    trace (snd (CreateProject Unix d w)) = trace w ++ evs /\
    spares w (snd (CreateProject Unix d w)) evs.
Proof.
  destruct (CreateProject_run Unix d w) as (evs & He & Hs & _).
  exists evs. split; [exact (proj1 He) | exact Hs].
Qed.

(** X9.  [CreateProject] answers failure exactly when it has shown a
    message: a run that answers success shows none, and a run that answers
    failure shows one, titled [New project], as the last thing it does. *)
Theorem CreateProject_fails_exactly_with_a_message (pf : Platform)
  (d : Dialog) (w : World) :
  let r := CreateProject pf d w in
  exists evs,
    trace (snd r) = trace w ++ evs /\
    ((fst r = true /\ existsb isWarning evs = false)
     \/
     (fst r = false /\
      exists evs0 text,
        evs = evs0 ++ [Warning (QS "New project") text] /\
        existsb isWarning evs0 = false)).
Proof.
  cbv zeta. destruct (CreateProject_run pf d w) as (evs & He & _ & H).
  exists evs. split; [exact (proj1 He)|].
  destruct H as [(Hr & Hq & _) | H]; [left; split; assumption | right; exact H].
Qed.

(** X10.  After a run of [CreateProject] that answers success, the path
    [GetProjectFilePath] gives names a file, and the run has written the
    descriptor of its mode to that file. *)
Theorem CreateProject_leaves_the_descriptor_at_GetProjectFilePath
  (pf : Platform) (d : Dialog) (w : World) :
  let r := CreateProject pf d w in
  let p := absolutePath pf (cwd (fs w)) (GetProjectFilePath pf d) in
  fst r = true ->
  isFile (fs (snd r)) p = true /\
  In (Write p (descriptorText pf d w)) (trace (snd r)).
Proof.
  cbv zeta. intros Hr.
  destruct (CreateProject_run pf d w) as (evs & He & _ & H).
  destruct H as [(_ & _ & Hin & Hf) | (Hfalse & _)]; [|congruence].
  split; [exact Hf|]. rewrite (proj1 He). apply in_or_app. right. exact Hin.
Qed.

(** The theorem at the new project [Demo] in [/tmp/x]. *)
Lemma CreateProject_descriptor_witness :
  isFile (fs (snd (CreateProject Unix (newDemo Lf) freshDisk)))
    (absolutePath Unix (cwd (fs freshDisk))
       (GetProjectFilePath Unix (newDemo Lf))) = true /\
  In (Write (absolutePath Unix (cwd (fs freshDisk))
               (GetProjectFilePath Unix (newDemo Lf)))
            (descriptorText Unix (newDemo Lf) freshDisk))
     (trace (snd (CreateProject Unix (newDemo Lf) freshDisk))).
Proof.
  apply (CreateProject_leaves_the_descriptor_at_GetProjectFilePath
           Unix (newDemo Lf) freshDisk).
  vm_compute. reflexivity.
Defined.

(** X11.  Beside an existing [CMakeLists.txt] a run that answers success
    has emptied the descriptor before it wrote to it: the file holds what
    this run's write let through, the whole descriptor unless the write
    fell short, and nothing of what a file of that name held before.  The
    result of the write is not looked at: the run answers success also
    when the write fell short. *)
Theorem existing_descriptor_is_replaced (pf : Platform) (d : Dialog)
  (w : World) :
  let r := CreateProject pf d w in
  isEmpty (existingCMakeFilePath d) = false ->
  fst r = true ->
  lookupFile (files (fs (snd r)))
    (absolutePath pf (cwd (fs w)) (GetProjectFilePath pf d))
  = Some (match shortWrites w with
          | Some part :: _ => part
          | _ => existingDescriptor pf d w
          end).
Proof.
  cbv zeta. unfold CreateProject, GetProjectFilePath. intros ->.
  apply CreateProjectForExisting_content.
Qed.

(** The theorem at a project that has a descriptor [Foo.cide] already,
    and at the same project on a disk that lets only [name: F] through. *)
Lemma existing_descriptor_witness :
  lookupFile (files (fs (snd (CreateProject Unix attachFoo diskWithDescriptor))))
    (QS "/home/u/proj/Foo.cide")
  = Some (existingDescriptor Unix attachFoo diskWithDescriptor) /\
  lookupFile (files (fs (snd (CreateProject Unix attachFoo diskThatFillsUp))))
    (QS "/home/u/proj/Foo.cide")
  = Some (QS "name: F").
Proof.
  split.
  - apply (existing_descriptor_is_replaced Unix attachFoo diskWithDescriptor);
      vm_compute; reflexivity.
  - apply (existing_descriptor_is_replaced Unix attachFoo diskThatFillsUp);
      vm_compute; reflexivity.
Defined.

(** X12.  A run of [CreateNewProject] that answers success has written
    three texts: the descriptor to [<name>.cide] and the CMake file to
    [CMakeLists.txt], both in the project folder, and the main file to
    some path; the three files exist afterwards. *)
Theorem CreateNewProject_writes_three_files (pf : Platform) (d : Dialog)
  (w : World) :
  let r := CreateNewProject pf d w in
  let dir := QDir pf (folderEdit d) in
  let p1 :=
    absolutePath pf (cwd (fs w)) (filePath pf dir (nameEdit d ++ QS ".cide")) in
  let p2 :=
    absolutePath pf (cwd (fs w)) (filePath pf dir (QS "CMakeLists.txt")) in
  fst r = true ->
  In (Write p1 (newDescriptor d)) (trace (snd r)) /\
  In (Write p2 (newCMakeLists d)) (trace (snd r)) /\
  isFile (fs (snd r)) p1 = true /\ isFile (fs (snd r)) p2 = true /\
  exists p3, In (Write p3 (newMain d)) (trace (snd r)) /\
             isFile (fs (snd r)) p3 = true.
Proof.
  cbv zeta. intros Hr.
  destruct (CreateNewProject_run pf d w) as (evs & He & _ & H).
  destruct H as [(_ & _ & H1 & H2 & (p3 & H3 & F3) & F1 & F2) | (Hfalse & _)];
    [|congruence].
  rewrite (proj1 He).
  split; [apply in_or_app; right; exact H1|].
  split; [apply in_or_app; right; exact H2|].
  split; [exact F1|]. split; [exact F2|].
  exists p3. split; [apply in_or_app; right; exact H3 | exact F3].
Qed.

(** The theorem at the new project [Demo] in [/tmp/x]. *)
Lemma CreateNewProject_three_files_witness :
  let r := CreateNewProject Unix (newDemo CrLf) freshDisk in
  let p1 :=
    absolutePath Unix (cwd (fs freshDisk))
      (filePath Unix (QDir Unix (folderEdit (newDemo CrLf)))
         (nameEdit (newDemo CrLf) ++ QS ".cide")) in
  let p2 :=
    absolutePath Unix (cwd (fs freshDisk))
      (filePath Unix (QDir Unix (folderEdit (newDemo CrLf)))
         (QS "CMakeLists.txt")) in
  In (Write p1 (newDescriptor (newDemo CrLf))) (trace (snd r)) /\
  In (Write p2 (newCMakeLists (newDemo CrLf))) (trace (snd r)) /\
  isFile (fs (snd r)) p1 = true /\ isFile (fs (snd r)) p2 = true /\
  exists p3, In (Write p3 (newMain (newDemo CrLf))) (trace (snd r)) /\
             isFile (fs (snd r)) p3 = true.
Proof.
  apply (CreateNewProject_writes_three_files Unix (newDemo CrLf) freshDisk).
  vm_compute. reflexivity.
Defined.

(** X13.  When the project folder cannot be made, [CreateNewProject]
    answers failure after a message that names the folder; it opens no
    file, and the files on the disk are those that were there. *)
Theorem project_folder_that_cannot_be_made (pf : Platform) (d : Dialog)
  (w : World) :
  let dir := QDir pf (folderEdit d) in
  let r := CreateNewProject pf d w in
  fst (QDir_mkpath pf dir (QS ".") w) = false ->
  fst r = false /\
  files (fs (snd r)) = files (fs w) /\
  trace (snd r) =
    trace w ++
    [Mkpath (absolutePath pf (cwd (fs w)) (filePath pf dir (QS "."))) false;
     Warning (QS "New project")
       (QS "Failed to create project directory (" ++ dir ++ QS ").")].
Proof.
  cbv zeta. intros Hfail. unfold CreateNewProject, bind.
  pose proof (QDir_mkpath_files pf (QDir pf (folderEdit d)) (QS ".") w) as Hf.
  destruct (QDir_mkpath_run pf (QDir pf (folderEdit d)) (QS ".") w)
    as (made & f1 & _ & _ & E).
  rewrite E in Hfail, Hf |- *. cbn [fst snd fs] in Hfail, Hf. subst made.
  cbn [negb]. unfold QMessageBox_warning, emit, ret, tr.
  cbn [fst snd trace fs]. rewrite <- app_assoc.
  split; [reflexivity|]. split; [exact Hf | reflexivity].
Qed.

(** The theorem at a project folder below a regular file. *)
Lemma project_folder_witness :
  fst (CreateNewProject Unix newBelowFile diskWithFileNamedBuild) = false /\
  files (fs (snd (CreateNewProject Unix newBelowFile diskWithFileNamedBuild)))
  = files (fs diskWithFileNamedBuild) /\
  trace (snd (CreateNewProject Unix newBelowFile diskWithFileNamedBuild)) =
    trace diskWithFileNamedBuild ++
    [Mkpath (absolutePath Unix (cwd (fs diskWithFileNamedBuild))
               (filePath Unix (QDir Unix (folderEdit newBelowFile)) (QS ".")))
            false;
     Warning (QS "New project")
       (QS "Failed to create project directory (" ++
        QDir Unix (folderEdit newBelowFile) ++ QS ").")].
Proof.
  apply (project_folder_that_cannot_be_made Unix newBelowFile
           diskWithFileNamedBuild).
  vm_compute. reflexivity.
Defined.

(** X14.  [TryGuessProjectName] only reads: the disk after the call is the
    disk before it, and the call does nothing at all when the dialog was
    given no file, and otherwise nothing but one attempt to open that file
    for reading. *)
Theorem TryGuessProjectName_only_reads (pf : Platform) (d : Dialog)
  (w : World) :
  let r := TryGuessProjectName pf d w in
  fs (snd r) = fs w /\
  ((isEmpty (existingCMakeFilePath d) = true /\ r = (QS "", w))
   \/
   (isEmpty (existingCMakeFilePath d) = false /\
    exists ok,
      trace (snd r) =
        trace w ++
        [OpenRead (absolutePath pf (cwd (fs w)) (existingCMakeFilePath d))
                  ok])).
Proof.
  cbv zeta. unfold TryGuessProjectName.
  destruct (isEmpty (existingCMakeFilePath d)).
  - split; [reflexivity | left; split; reflexivity].
  - unfold bind.
    pose proof (QFile_open_read_step pf (existingCMakeFilePath d) w) as S.
    cbv zeta in S.
    destruct (QFile_open_read pf (existingCMakeFilePath d) w) as [o w1].
    cbn [fst snd] in S. destruct S as [Hfs Htr].
    assert (G : forall x : QString, fs (snd (ret x w1)) = fs w /\
      ((false = true /\ ret x w1 = (QS "", w)) \/
       (false = false /\ exists ok,
          trace (snd (ret x w1)) =
            trace w ++
            [OpenRead (absolutePath pf (cwd (fs w)) (existingCMakeFilePath d))
                      ok]))).
    { intros x. cbn [ret fst snd]. split; [exact Hfs|].
      right. split; [reflexivity | exact Htr]. }
    destruct o as [text|]; [|apply G].
    destruct (scanText text) as [[[name|] rd]|]; apply G.
Qed.


(** ** [QString::arg] on a template cut at its markers *)

Module ArgFacts.

Lemma argTokens_text (l s : QString) :
  noPercent l = true ->
  argTokens (l ++ s) 0 = map Lit l ++ argTokens s 0.
Proof.
  unfold noPercent. induction l as [|c l IH]; intros H; [reflexivity|].
  cbn [existsb] in H. apply negb_true_iff, orb_false_elim in H as [Hc Hl].
  cbn [app map argTokens markerAt]. rewrite (N.eqb_sym c percent), Hc.
  rewrite IH; [reflexivity|]. now rewrite Hl.
Qed.

Lemma digitValue_digit (k : nat) :
  (k <= 9)%nat ->
  digitValue (N.of_nat (48 + k)) = Some k /\
  N.eqb (N.of_nat (48 + k)) (ch "L") = false.
Proof.
  intros H.
  do 10 (destruct k as [|k]; [split; reflexivity|]). lia.
Qed.

Lemma argTokens_hole (k : nat) (rest : QString) :
  (k <= 9)%nat ->
  match rest with [] => True | c :: _ => digitValue c = None end ->
  argTokens (hole k ++ rest) 0 = Marker k (hole k) :: argTokens rest 0.
Proof.
  intros Hk Hrest. destruct (digitValue_digit k Hk) as [Hd HL].
  unfold hole. cbn [app argTokens markerAt].
  rewrite N.eqb_refl, HL, Hd.
  destruct rest as [|c rest]; [reflexivity|]. rewrite Hrest. reflexivity.
Qed.

Lemma render_startsPlain (ps : list Piece) :
  startsPlain ps = true ->
  match render ps with [] => True | c :: _ => digitValue c = None end.
Proof.
  destruct ps as [|[[|c s]|k] ps]; cbn; try discriminate; auto.
  destruct (digitValue c); [discriminate | reflexivity].
Qed.

Lemma argTokens_render (ps : list Piece) :
  wellCut ps = true -> argTokens (render ps) 0 = tokensOf ps.
Proof.
  induction ps as [|[s|k] ps IH]; cbn [wellCut render tokensOf]; intros H.
  - reflexivity.
  - apply andb_prop in H as [Hs Hps].
    now rewrite (argTokens_text s _ Hs), (IH Hps).
  - apply andb_prop in H as [H Hps]. apply andb_prop in H as [Hk Hp].
    apply Nat.leb_le in Hk.
    rewrite (argTokens_hole k _ Hk (render_startsPlain ps Hp)).
    now rewrite (IH Hps).
Qed.

Lemma lowestMarker_lits (s : QString) (ts : list ArgToken) :
  lowestMarker (map Lit s ++ ts) = lowestMarker ts.
Proof. induction s as [|c s IH]; [reflexivity | exact IH]. Qed.

Lemma lowestMarker_tokensOf (ps : list Piece) :
  lowestMarker (tokensOf ps) = lowestHole ps.
Proof.
  induction ps as [|[s|k] ps IH]; cbn [tokensOf lowestHole lowestMarker].
  - reflexivity.
  - now rewrite lowestMarker_lits.
  - now rewrite IH.
Qed.

Lemma fill_lits (m : nat) (a s : QString) :
  concat (map (fillMarker m a) (map Lit s)) = s.
Proof. induction s as [|c s IH]; [reflexivity|]. cbn. now rewrite IH. Qed.

Lemma fill_tokensOf (m : nat) (a : QString) (ps : list Piece) :
  concat (map (fillMarker m a) (tokensOf ps))
  = render (map (fillPiece m a) ps).
Proof.
  induction ps as [|[s|k] ps IH]; cbn [tokensOf map fillPiece render].
  - reflexivity.
  - now rewrite map_app, concat_app, fill_lits, IH.
  - cbn [concat fillMarker]. rewrite IH.
    destruct (Nat.eqb k m); reflexivity.
Qed.

(** On a well cut template [arg] fills the markers of the lowest number
    and leaves the rest as it is. *)
Lemma arg_render (ps : list Piece) (a : QString) (m : nat) :
  wellCut ps = true -> lowestHole ps = Some m ->
  arg (render ps) a = render (map (fillPiece m a) ps).
Proof.
  intros Hw Hm. unfold arg.
  rewrite (argTokens_render ps Hw), lowestMarker_tokensOf, Hm.
  apply fill_tokensOf.
Qed.

Lemma flat_map_crlf_plain (s : QString) :
  existsb (N.eqb LF) s = false -> flat_map crlf s = s.
Proof.
  induction s as [|c s IH]; [reflexivity|]. cbn [existsb flat_map].
  intros H. apply orb_false_elim in H as [Hc Hs].
  unfold crlf at 1. rewrite (N.eqb_sym c LF), Hc, (IH Hs). reflexivity.
Qed.

End ArgFacts.

Import ArgFacts NewlineFacts.

(** One call of [arg] on a cut template in the goal. *)
Ltac fill_marker Hn :=
  match goal with
  | |- context [arg (render ?ps) ?a] =>
      let o := eval lazy in (lowestHole ps) in
      match o with
      | Some ?m =>
          rewrite (arg_render ps a m);
          [ cbn [map fillPiece Nat.eqb]
          | cbn [wellCut]; rewrite ?Hn; reflexivity
          | reflexivity ]
      end
  end.

(** The text ends its lines as the main window asks. *)
Ltac end_lines d Hl :=
  unfold applyNewlineFormat, eol;
  destruct (defaultNewlineFormat d);
  [ rewrite replace_LF; cbn [render]; rewrite !flat_map_app;
    rewrite ?(flat_map_crlf_plain _ Hl); reflexivity
  | reflexivity ].

(** X15.  For a project name without percent sign and without line feed,
    the descriptor of a new project is the six lines of the template with
    the name in the place of each marker, every line ended as the newline
    format of the main window asks. *)
Theorem new_descriptor_text (d : Dialog) :
  existsb (N.eqb percent) (nameEdit d) = false ->
  existsb (N.eqb LF) (nameEdit d) = false ->
  newDescriptor d =
    QS "name: " ++ nameEdit d ++ eol d ++
    QS "projectCMakeDir: build" ++ eol d ++
    QS "buildDir: build" ++ eol d ++
    QS "buildTarget: " ++ nameEdit d ++ eol d ++
    QS "runDir: build" ++ eol d ++
    QS "runCmd: ./" ++ nameEdit d ++ eol d.
Proof.
  intros Hp Hl.
  assert (Hn : noPercent (nameEdit d) = true) by (unfold noPercent; now rewrite Hp).
  unfold newDescriptor.
  change projectFileTemplate with (render projectFilePieces).
  unfold projectFilePieces.
  fill_marker Hn. fill_marker Hn.
  end_lines d Hl.
Qed.


(** The theorem at the project [Demo], lines ended by CR LF. *)
Lemma new_descriptor_witness :
  newDescriptor (newDemo CrLf) =
    QS "name: " ++ nameEdit (newDemo CrLf) ++ eol (newDemo CrLf) ++
    QS "projectCMakeDir: build" ++ eol (newDemo CrLf) ++
    QS "buildDir: build" ++ eol (newDemo CrLf) ++
    QS "buildTarget: " ++ nameEdit (newDemo CrLf) ++ eol (newDemo CrLf) ++
    QS "runDir: build" ++ eol (newDemo CrLf) ++
    QS "runCmd: ./" ++ nameEdit (newDemo CrLf) ++ eol (newDemo CrLf).
Proof.
  apply (new_descriptor_text (newDemo CrLf)); reflexivity.
Defined.

(** X16.  For such a name the [CMakeLists.txt] of a new project declares
    the project, an executable of the same name built from
    [src/<name>/main.cc], and its compile options. *)
Theorem new_CMakeLists_text (d : Dialog) :
  existsb (N.eqb percent) (nameEdit d) = false ->
  existsb (N.eqb LF) (nameEdit d) = false ->
  newCMakeLists d =
    QS "cmake_minimum_required(VERSION 3.0)" ++ eol d ++
    eol d ++
    QS "project(" ++ nameEdit d ++ QS ")" ++ eol d ++
    eol d ++
    QS "# To set a C++ standard:" ++ eol d ++
    QS "# set(CMAKE_CXX_STANDARD 11)" ++ eol d ++
    eol d ++
    QS "add_executable(" ++ nameEdit d ++ eol d ++
    QS "  src/" ++ nameEdit d ++ QS "/main.cc" ++ eol d ++
    QS ")" ++ eol d ++
    QS "target_compile_options(" ++ nameEdit d ++ QS " PUBLIC" ++ eol d ++
    QS "  " ++ quoted "$<$<COMPILE_LANGUAGE:CXX>:-Wall>" ++ eol d ++
    QS "  " ++ quoted ";$<$<COMPILE_LANGUAGE:CXX>:-Wextra>" ++ eol d ++
    QS "  " ++ quoted ";$<$<COMPILE_LANGUAGE:CXX>:-O2>" ++ eol d ++
    QS "  " ++ quoted ";$<$<COMPILE_LANGUAGE:CXX>:-msse2>" ++ eol d ++
    QS "  " ++ quoted ";$<$<COMPILE_LANGUAGE:CXX>:-msse3>" ++ eol d ++
    QS ")" ++ eol d.
Proof.
  intros Hp Hl.
  assert (Hn : noPercent (nameEdit d) = true) by (unfold noPercent; now rewrite Hp).
  unfold newCMakeLists.
  change cmakeListsFileTemplate with (render cmakeListsPieces).
  unfold cmakeListsPieces.
  fill_marker Hn. fill_marker Hn. fill_marker Hn.
  end_lines d Hl.
Qed.

(** The theorem at the project [Demo], lines ended by LF. *)
Lemma new_CMakeLists_witness :
  newCMakeLists (newDemo Lf) =
    QS "cmake_minimum_required(VERSION 3.0)" ++ eol (newDemo Lf) ++
    eol (newDemo Lf) ++
    QS "project(" ++ nameEdit (newDemo Lf) ++ QS ")" ++ eol (newDemo Lf) ++
    eol (newDemo Lf) ++
    QS "# To set a C++ standard:" ++ eol (newDemo Lf) ++
    QS "# set(CMAKE_CXX_STANDARD 11)" ++ eol (newDemo Lf) ++
    eol (newDemo Lf) ++
    QS "add_executable(" ++ nameEdit (newDemo Lf) ++ eol (newDemo Lf) ++
    QS "  src/" ++ nameEdit (newDemo Lf) ++ QS "/main.cc" ++
      eol (newDemo Lf) ++
    QS ")" ++ eol (newDemo Lf) ++
    QS "target_compile_options(" ++ nameEdit (newDemo Lf) ++ QS " PUBLIC" ++
      eol (newDemo Lf) ++
    QS "  " ++ quoted "$<$<COMPILE_LANGUAGE:CXX>:-Wall>" ++
      eol (newDemo Lf) ++
    QS "  " ++ quoted ";$<$<COMPILE_LANGUAGE:CXX>:-Wextra>" ++
      eol (newDemo Lf) ++
    QS "  " ++ quoted ";$<$<COMPILE_LANGUAGE:CXX>:-O2>" ++ eol (newDemo Lf) ++
    QS "  " ++ quoted ";$<$<COMPILE_LANGUAGE:CXX>:-msse2>" ++
      eol (newDemo Lf) ++
    QS "  " ++ quoted ";$<$<COMPILE_LANGUAGE:CXX>:-msse3>" ++
      eol (newDemo Lf) ++
    QS ")" ++ eol (newDemo Lf).
Proof.
  apply (new_CMakeLists_text (newDemo Lf)); reflexivity.
Defined.

(** X17.  Beside an existing [CMakeLists.txt], for a project name without
    percent sign and without line feed and a build folder whose relative
    path holds no line feed, the descriptor names the project and gives
    that relative path as the CMake, build and run folder; percent signs
    in the path stand in the descriptor as they are. *)
Theorem existing_descriptor_text (pf : Platform) (d : Dialog) (w : World) :
  existsb (N.eqb percent) (nameEdit d) = false ->
  existsb (N.eqb LF) (nameEdit d) = false ->
  existsb (N.eqb LF) (relativeBuildDir pf d w) = false ->
  existingDescriptor pf d w =
    QS "name: " ++ nameEdit d ++ eol d ++
    QS "projectCMakeDir: " ++ relativeBuildDir pf d w ++ eol d ++
    QS "buildDir: " ++ relativeBuildDir pf d w ++ eol d ++
    QS "runDir: " ++ relativeBuildDir pf d w ++ eol d ++
    QS "runCmd: ./" ++ nameEdit d ++ eol d.
Proof.
  intros Hp Hl Hr.
  assert (Hn : noPercent (nameEdit d) = true) by (unfold noPercent; now rewrite Hp).
  unfold existingDescriptor.
  change existingProjectFileTemplate with (render existingProjectFilePieces).
  unfold existingProjectFilePieces.
  fill_marker Hn. fill_marker Hn. fill_marker Hn.
  unfold applyNewlineFormat, eol.
  destruct (defaultNewlineFormat d); [|reflexivity].
  rewrite replace_LF. cbn [render]. rewrite !flat_map_app.
  rewrite !(flat_map_crlf_plain _ Hl), !(flat_map_crlf_plain _ Hr).
  reflexivity.
Qed.

(** The theorem at the project [Foo] with its build folder [build]. *)
Lemma existing_descriptor_text_witness :
  existingDescriptor Unix attachFoo (diskWith (QS "project(Foo)")) =
    QS "name: " ++ nameEdit attachFoo ++ eol attachFoo ++
    QS "projectCMakeDir: " ++
      relativeBuildDir Unix attachFoo (diskWith (QS "project(Foo)")) ++
      eol attachFoo ++
    QS "buildDir: " ++
      relativeBuildDir Unix attachFoo (diskWith (QS "project(Foo)")) ++
      eol attachFoo ++
    QS "runDir: " ++
      relativeBuildDir Unix attachFoo (diskWith (QS "project(Foo)")) ++
      eol attachFoo ++
    QS "runCmd: ./" ++ nameEdit attachFoo ++ eol attachFoo.
Proof.
  apply (existing_descriptor_text Unix attachFoo (diskWith (QS "project(Foo)")));
    reflexivity.
Defined.
